(** * aretext: text tree, line breaking, line wrapping and word motions

    A shallow embedding of the text storage and segmentation core of the
    aretext editor, with the properties its specification states.

    - [Utf8]: the byte tables of [internal/pkg/text/tree.go] and
      well-formed UTF-8.
    - [Text]: the text tree of [internal/pkg/text/tree.go]: bulk loading,
      deletion, cursors.
    - [Segment]: the line breaker and the wrapped-line iterator of
      [text/segment/line.go].
    - [Locate]: word motions.

    Conventions.  A Go [uint64] is a [Z] and every arithmetic operation the
    source performs on it is written with [u64] (reduction modulo 2^64); a Go
    [byte] used as a number is a [Z] with [u8].  A byte of text is a
    [Byte.byte].  A fixed-size Go array is a list of the array's length, read
    with [arr_get] and written with [arr_set]; an index outside the array
    (a panic in Go) reads the zero value and writes nothing, and the
    invariants proved below keep every index inside its array. *)

From Stdlib Require Import ZArith List Bool Lia.
From Stdlib Require Import Strings.Byte.
From Stdlib Require Strings.Ascii Strings.String.
From Equations Require Import Equations.
Import ListNotations.
Local Open Scope Z_scope.

(** ** Bytes and UTF-8 *)
Module Utf8.

Definition byteZ (b : byte) : Z := Z.of_N (Byte.to_N b).

(** [utf8CharWidth]: the byte count of the character for start bytes, zero
    otherwise (the table filled by the first [init] of tree.go). *)
Definition utf8CharWidth (b : byte) : Z :=
  let v := byteZ b in
  if Z.shiftr v 7 =? 0 then 1
  else if Z.shiftr v 5 =? 6 then 2
  else if Z.shiftr v 4 =? 14 then 3
  else if Z.shiftr v 3 =? 30 then 4
  else 0.

(** [utf8StartByteIndicator]: 1 for start bytes, zero otherwise (the table
    filled by the second [init] of tree.go). *)
Definition utf8StartByteIndicator (b : byte) : Z :=
  let v := byteZ b in
  if (Z.shiftr v 7 =? 0) || (Z.shiftr v 5 =? 6)
     || (Z.shiftr v 4 =? 14) || (Z.shiftr v 3 =? 30)
  then 1 else 0.

Definition newline : byte := x0a.

Definition isNewline (b : byte) : bool := Byte.eqb b newline.

(** *** Well-formed UTF-8 (Unicode, Table 3-7) *)

Definition inRange (lo hi : Z) (b : byte) : bool :=
  (lo <=? byteZ b) && (byteZ b <=? hi).

Definition isCont (b : byte) : bool := inRange 128 191 b.

Definition lead3 (b1 b2 : byte) : bool :=
  (inRange 224 224 b1 && inRange 160 191 b2)
  || (inRange 225 236 b1 && isCont b2)
  || (inRange 237 237 b1 && inRange 128 159 b2)
  || (inRange 238 239 b1 && isCont b2).

Definition lead4 (b1 b2 : byte) : bool :=
  (inRange 240 240 b1 && inRange 144 191 b2)
  || (inRange 241 243 b1 && isCont b2)
  || (inRange 244 244 b1 && inRange 128 143 b2).

(** The byte sequence of one character. *)
Definition wf_char (c : list byte) : bool :=
  match c with
  | [b1] => inRange 0 127 b1
  | [b1; b2] => inRange 194 223 b1 && isCont b2
  | [b1; b2; b3] => lead3 b1 b2 && isCont b3
  | [b1; b2; b3; b4] => lead4 b1 b2 && isCont b3 && isCont b4
  | _ => false
  end.

(** Splits a byte string into its characters; [None] when the string is not
    well-formed UTF-8 (this includes a truncated last character). *)
Fixpoint utf8_decode (s : list byte) : option (list (list byte)) :=
  match s with
  | [] => Some []
  | b1 :: r1 =>
    if wf_char [b1] then option_map (cons [b1]) (utf8_decode r1)
    else match r1 with
    | [] => None
    | b2 :: r2 =>
      if wf_char [b1; b2] then option_map (cons [b1; b2]) (utf8_decode r2)
      else match r2 with
      | [] => None
      | b3 :: r3 =>
        if wf_char [b1; b2; b3]
        then option_map (cons [b1; b2; b3]) (utf8_decode r3)
        else match r3 with
        | [] => None
        | b4 :: r4 =>
          if wf_char [b1; b2; b3; b4]
          then option_map (cons [b1; b2; b3; b4]) (utf8_decode r4)
          else None
        end
      end
    end
  end.

Definition valid_utf8 (s : list byte) : bool :=
  match utf8_decode s with Some _ => true | None => false end.

(** *** The streaming validator

    Modelled from the spec: [NewValidator], [Validator.ValidateBytes] and
    [Validator.ValidateEnd] are called by [bulkLoadIntoLeaves] but are not
    part of the sources at hand.  The spec describes a "streaming validity
    check used during bulk loading" that validates "incrementally" and fails
    "on a truncated trailing sequence": a state machine over bytes that keeps,
    between chunks, what the character in progress still needs. *)
Inductive Validator : Type :=
| vAccept            (* between two characters *)
| vCont (k : nat)    (* [S k] continuation bytes are still due *)
| vE0 | vED          (* after E0 / ED: a restricted second byte, then one more *)
| vF0 | vF4          (* after F0 / F4: a restricted second byte, then two more *)
| vReject.

Definition NewValidator : Validator := vAccept.

Definition validatorStep (v : Validator) (b : byte) : Validator :=
  match v with
  | vAccept =>
    if inRange 0 127 b then vAccept
    else if inRange 194 223 b then vCont 0
    else if inRange 224 224 b then vE0
    else if inRange 237 237 b then vED
    else if inRange 225 239 b then vCont 1
    else if inRange 240 240 b then vF0
    else if inRange 241 243 b then vCont 2
    else if inRange 244 244 b then vF4
    else vReject
  | vCont O => if isCont b then vAccept else vReject
  | vCont (S k) => if isCont b then vCont k else vReject
  | vE0 => if inRange 160 191 b then vCont 0 else vReject
  | vED => if inRange 128 159 b then vCont 0 else vReject
  | vF0 => if inRange 144 191 b then vCont 1 else vReject
  | vF4 => if inRange 128 143 b then vCont 1 else vReject
  | vReject => vReject
  end.

Definition isReject (v : Validator) : bool :=
  match v with vReject => true | _ => false end.

(** [ValidateBytes buf]: feeds the bytes of one chunk; the boolean is false
    as soon as a byte cannot continue well-formed UTF-8. *)
Fixpoint ValidateBytes (v : Validator) (buf : list byte) : bool * Validator :=
  match buf with
  | [] => (true, v)
  | b :: buf' =>
    let v' := validatorStep v b in
    if isReject v' then (false, v') else ValidateBytes v' buf'
  end.

(** [ValidateEnd]: true when no character is left unfinished. *)
Definition ValidateEnd (v : Validator) : bool :=
  match v with vAccept => true | _ => false end.

End Utf8.

(** ** The text tree ([internal/pkg/text/tree.go]) *)
Module Text.
Import Utf8.

Definition maxKeysPerNode : Z := 64.
Definition maxNodesPerGroup : Z := maxKeysPerNode.
Definition maxBytesPerLeaf : Z := 63.

(** Go's [byte] and [uint64] arithmetic wraps around. *)
Definition u8 (z : Z) : Z := z mod 256.
Definition u64 (z : Z) : Z := z mod 18446744073709551616.

(** *** Fixed-size arrays and slices *)
Section Arrays.
Context {A : Type}.

Definition arr_get (d : A) (a : list A) (i : Z) : A := nth (Z.to_nat i) a d.

Fixpoint set_nth (n : nat) (v : A) (a : list A) : list A :=
  match a, n with
  | [], _ => []
  | _ :: a', O => v :: a'
  | x :: a', S n' => x :: set_nth n' v a'
  end.

Definition arr_set (a : list A) (i : Z) (v : A) : list A :=
  set_nth (Z.to_nat i) v a.

(** [a[lo:hi]] *)
Definition slice (a : list A) (lo hi : Z) : list A :=
  firstn (Z.to_nat (hi - lo)) (skipn (Z.to_nat lo) a).
End Arrays.

(** Applying a function to the [i]-th element of an array of nodes; written
    as a fixpoint on the list so that the recursive functions on the tree
    below are structural. *)
Section NodeAt.
Context {A B : Type} (f : A -> B) (d : B).

Fixpoint nth_apply (l : list A) (i : nat) : B :=
  match l with
  | [] => d
  | x :: l' => match i with O => f x | S i' => nth_apply l' i' end
  end.
End NodeAt.

Section NodeUpdate.
Context {A R : Type} (f : A -> A * R) (d : R).

Fixpoint nth_update (l : list A) (i : nat) : list A * R :=
  match l with
  | [] => ([], d)
  | x :: l' =>
    match i with
    | O => let '(x', r) := f x in (x' :: l', r)
    | S i' => let '(l'', r) := nth_update l' i' in (x :: l'', r)
    end
  end.
End NodeUpdate.

(** *** Data *)

(** [indexKey]: number of characters and of newlines in a subtree. *)
Record indexKey : Type := mkKey { numChars : Z; numNewlines : Z }.

Definition zeroKey : indexKey := mkKey 0 0.

(** [leafNode]: [numBytes] is a Go [byte], [textBytes] a [[63]byte]. *)
Record leafNode : Type := mkLeaf { numBytes : Z; textBytes : list byte }.

Definition zeroLeaf : leafNode := mkLeaf 0 (repeat x00 63).

(** [leafNodeGroup]: [nodes] is a [[64]leafNode]; [prev] and [next] are
    pointers to leaf groups, here addresses in the leaf heap. *)
Record leafNodeGroup : Type := mkLeafGroup {
  lg_prev : option nat;
  lg_next : option nat;
  lg_numNodes : Z;
  lg_nodes : list leafNode
}.

Definition zeroLeafGroup : leafNodeGroup :=
  mkLeafGroup None None 0 (repeat zeroLeaf 64).

(** The leaf groups live in a heap: the tree, the [prev]/[next] links and
    the cursors all point to the same groups. *)
Definition leafHeap : Type := list leafNodeGroup.

Definition getGroup (h : leafHeap) (p : nat) : leafNodeGroup :=
  nth p h zeroLeafGroup.

Definition setGroup (h : leafHeap) (p : nat) (g : leafNodeGroup) : leafHeap :=
  set_nth p g h.

(** [innerNode] and the [nodeGroup] interface.  An inner node group is owned
    by the one inner node that points to it, so it is held by value; a leaf
    group is held by its address. *)
Inductive innerNode : Type :=
| mkInnerNode (child : nodeGroup) (numKeys : Z) (keys : list indexKey)
with nodeGroup : Type :=
| nilGroup
| leafGroupAt (p : nat)
| innerGroupOf (ig_numNodes : Z) (ig_nodes : list innerNode).

Definition child (n : innerNode) : nodeGroup :=
  match n with mkInnerNode c _ _ => c end.
Definition numKeys (n : innerNode) : Z :=
  match n with mkInnerNode _ k _ => k end.
Definition keys (n : innerNode) : list indexKey :=
  match n with mkInnerNode _ _ ks => ks end.

Definition zeroKeys : list indexKey := repeat zeroKey 64.
Definition zeroInner : innerNode := mkInnerNode nilGroup 0 zeroKeys.
Definition zeroInnerNodes : list innerNode := repeat zeroInner 64.

(** [Tree]: the root, together with the heap its leaf groups live in. *)
Record Tree : Type := mkTree { root : innerNode; heap : leafHeap }.

(** [Cursor]: [group] is a pointer to a leaf group, [None] for nil. *)
Record Cursor : Type := mkCursor {
  group : option nat;
  nodeIdx : Z;
  textByteOffset : Z
}.

Definition nilCursor : Cursor := mkCursor None 0 0.

(** *** Leaf nodes *)

(** [textBytes[:numBytes]] *)
Definition leafBytes (l : leafNode) : list byte :=
  slice (textBytes l) 0 (numBytes l).

Definition leaf_key (l : leafNode) : indexKey :=
  fold_left
    (fun key b =>
       mkKey (u64 (numChars key + utf8StartByteIndicator b))
             (if isNewline b then u64 (numNewlines key + 1)
              else numNewlines key))
    (leafBytes l) zeroKey.

Fixpoint byteOffsetForPosition_loop (bs : list byte) (i n charPos dflt : Z) : Z :=
  match bs with
  | [] => dflt
  | b :: bs' =>
    let c := utf8StartByteIndicator b in
    if (0 <? c) && (n =? charPos) then i
    else byteOffsetForPosition_loop bs' (i + 1) (u64 (n + c)) charPos dflt
  end.

Definition byteOffsetForPosition (l : leafNode) (charPos : Z) : Z :=
  byteOffsetForPosition_loop (leafBytes l) 0 0 charPos (numBytes l).

Fixpoint byteOffsetAfterNewline_loop (bs : list byte) (i n newlinePos dflt : Z) : Z :=
  match bs with
  | [] => dflt
  | b :: bs' =>
    if isNewline b then
      if n =? newlinePos then u64 (i + 1)
      else byteOffsetAfterNewline_loop bs' (i + 1) (u64 (n + 1)) newlinePos dflt
    else byteOffsetAfterNewline_loop bs' (i + 1) n newlinePos dflt
  end.

Definition byteOffsetAfterNewline (l : leafNode) (newlinePos : Z) : Z :=
  byteOffsetAfterNewline_loop (leafBytes l) 0 0 newlinePos (numBytes l).

(** The loop [for i := offset; i < bound; i++ { textBytes[i] = textBytes[i+w] }],
    [cnt] being the number of its iterations. *)
Fixpoint shiftBytes (cnt : nat) (i w : Z) (tb : list byte) : list byte :=
  match cnt with
  | O => tb
  | S cnt' =>
    shiftBytes cnt' (u64 (i + 1)) w (arr_set tb i (arr_get x00 tb (u64 (i + w))))
  end.

(** [leafNode.deleteAtPosition]: the node after the call, [didDelete] and
    [wasNewline]. *)
Definition leaf_deleteAtPosition (l : leafNode) (charPos : Z)
  : leafNode * bool * bool :=
  let offset := byteOffsetForPosition l charPos in
  if offset <? numBytes l then
    let startByte := arr_get x00 (textBytes l) offset in
    let charWidth := utf8CharWidth startByte in
    let bound := u8 (numBytes l - charWidth) in
    let tb := shiftBytes (Z.to_nat (bound - offset)) offset charWidth (textBytes l) in
    (mkLeaf (u8 (numBytes l - charWidth)) tb, true, isNewline startByte)
  else (l, false, false).

(** *** Leaf node groups *)

(** [g.nodes[:g.numNodes]] *)
Definition liveNodes (g : leafNodeGroup) : list leafNode :=
  slice (lg_nodes g) 0 (lg_numNodes g).

Definition leafGroup_keys (g : leafNodeGroup) : list indexKey :=
  map leaf_key (liveNodes g).

Definition leafGroup_deleteAtPosition (h : leafHeap) (p : nat)
    (nodeIdx charPos : Z) : leafHeap * bool * bool :=
  let g := getGroup h p in
  let '(l', didDelete, wasNewline) :=
    leaf_deleteAtPosition (arr_get zeroLeaf (lg_nodes g) nodeIdx) charPos in
  let g' := mkLeafGroup (lg_prev g) (lg_next g) (lg_numNodes g)
                        (arr_set (lg_nodes g) nodeIdx l') in
  (setGroup h p g', didDelete, wasNewline).

Definition leafGroup_cursorAtPosition (h : leafHeap) (p : nat)
    (nodeIdx charPos : Z) : Cursor :=
  let g := getGroup h p in
  mkCursor (Some p) nodeIdx
    (byteOffsetForPosition (arr_get zeroLeaf (lg_nodes g) nodeIdx) charPos).

Definition leafGroup_cursorAfterNewline (h : leafHeap) (p : nat)
    (nodeIdx newlinePos : Z) : Cursor :=
  let g := getGroup h p in
  mkCursor (Some p) nodeIdx
    (byteOffsetAfterNewline (arr_get zeroLeaf (lg_nodes g) nodeIdx) newlinePos).

(** *** Inner nodes *)

(** [innerNode.key]: the sum of [keys[:numKeys]]. *)
Definition inner_key (n : innerNode) : indexKey :=
  fold_left
    (fun nodeKey key =>
       mkKey (u64 (numChars nodeKey + numChars key))
             (u64 (numNewlines nodeKey + numNewlines key)))
    (slice (keys n) 0 (numKeys n)) zeroKey.

(** [nodeGroup.keys] *)
Definition group_keys (h : leafHeap) (g : nodeGroup) : list indexKey :=
  match g with
  | nilGroup => []
  | leafGroupAt p => leafGroup_keys (getGroup h p)
  | innerGroupOf n nodes => map inner_key (slice nodes 0 n)
  end.

(** The loop [for i, key := range childKeys { n.keys[i] = key }]. *)
Fixpoint setKeys (i : Z) (childKeys ks : list indexKey) : list indexKey :=
  match childKeys with
  | [] => ks
  | key :: rest => setKeys (i + 1) rest (arr_set ks i key)
  end.

Definition recalculateChildKeys (h : leafHeap) (n : innerNode) : innerNode :=
  let childKeys := group_keys h (child n) in
  mkInnerNode (child n) (Z.of_nat (length childKeys))
              (setKeys 0 childKeys (keys n)).

(** [innerNode.locatePosition]; [cnt] counts the iterations left of
    [for i := 0; i < numKeys; i++]. *)
Fixpoint locatePosition_loop (cnt : nat) (i c : Z) (ks : list indexKey)
    (nKeys charPos : Z) : Z * Z :=
  match cnt with
  | O => (u64 (nKeys - 1), c)
  | S cnt' =>
    let nc := numChars (arr_get zeroKey ks i) in
    if charPos <? u64 (c + nc) then (i, u64 (charPos - c))
    else locatePosition_loop cnt' (u64 (i + 1)) (u64 (c + nc)) ks nKeys charPos
  end.

Definition locatePosition (n : innerNode) (charPos : Z) : Z * Z :=
  locatePosition_loop (Z.to_nat (numKeys n)) 0 0 (keys n) (numKeys n) charPos.

(** The search of [innerNode.cursorAfterNewline]: the child to descend into
    and the newline position inside it; the loop is
    [for i := 0; i < numKeys-1; i++]. *)
Fixpoint locateNewline_loop (cnt : nat) (i c : Z) (ks : list indexKey)
    (nKeys newlinePos : Z) : Z * Z :=
  match cnt with
  | O => (u64 (nKeys - 1), u64 (newlinePos - c))
  | S cnt' =>
    let nc := numNewlines (arr_get zeroKey ks i) in
    if newlinePos <? u64 (c + nc) then (i, u64 (newlinePos - c))
    else locateNewline_loop cnt' (u64 (i + 1)) (u64 (c + nc)) ks nKeys newlinePos
  end.

Definition locateNewline (n : innerNode) (newlinePos : Z) : Z * Z :=
  locateNewline_loop (Z.to_nat (u64 (numKeys n - 1))) 0 0 (keys n) (numKeys n)
                     newlinePos.

(** [innerNode.cursorAtPosition], with the dispatch on the child group
    ([innerNodeGroup.cursorAtPosition] / [leafNodeGroup.cursorAtPosition])
    inlined.  A nil child is a nil dereference in Go. *)
Fixpoint inner_cursorAtPosition (h : leafHeap) (n : innerNode) (charPos : Z)
    {struct n} : Cursor :=
  match n with
  | mkInnerNode c nk ks =>
    let '(nodeIdx, adjustedCharPos) := locatePosition (mkInnerNode c nk ks) charPos in
    match c with
    | nilGroup => nilCursor
    | leafGroupAt p => leafGroup_cursorAtPosition h p nodeIdx adjustedCharPos
    | innerGroupOf _ nodes =>
      nth_apply (fun x => inner_cursorAtPosition h x adjustedCharPos)
                nilCursor nodes (Z.to_nat nodeIdx)
    end
  end.

Fixpoint inner_cursorAfterNewline (h : leafHeap) (n : innerNode) (newlinePos : Z)
    {struct n} : Cursor :=
  match n with
  | mkInnerNode c nk ks =>
    let '(nodeIdx, adjusted) := locateNewline (mkInnerNode c nk ks) newlinePos in
    match c with
    | nilGroup => nilCursor
    | leafGroupAt p => leafGroup_cursorAfterNewline h p nodeIdx adjusted
    | innerGroupOf _ nodes =>
      nth_apply (fun x => inner_cursorAfterNewline h x adjusted)
                nilCursor nodes (Z.to_nat nodeIdx)
    end
  end.

(** [n.keys[nodeIdx].numChars--] and, for a newline, [numNewlines--]. *)
Definition decrementKey (ks : list indexKey) (nodeIdx : Z) (wasNewline : bool)
  : list indexKey :=
  let k := arr_get zeroKey ks nodeIdx in
  arr_set ks nodeIdx
    (mkKey (u64 (numChars k - 1))
           (if wasNewline then u64 (numNewlines k - 1) else numNewlines k)).

(** [innerNode.deleteAtPosition]: the node and the heap after the call,
    [didDelete] and [wasNewline]. *)
Fixpoint inner_deleteAtPosition (h : leafHeap) (n : innerNode) (charPos : Z)
    {struct n} : innerNode * (leafHeap * bool * bool) :=
  match n with
  | mkInnerNode c nk ks =>
    let '(nodeIdx, adjustedCharPos) := locatePosition (mkInnerNode c nk ks) charPos in
    let '(c', (h', didDelete, wasNewline)) :=
      match c with
      | nilGroup => (c, (h, false, false))
      | leafGroupAt p =>
        (c, leafGroup_deleteAtPosition h p nodeIdx adjustedCharPos)
      | innerGroupOf nn nodes =>
        let '(nodes', r) :=
          nth_update (fun x => inner_deleteAtPosition h x adjustedCharPos)
                     (h, false, false) nodes (Z.to_nat nodeIdx) in
        (innerGroupOf nn nodes', r)
      end in
    let ks' := if didDelete then decrementKey ks nodeIdx wasNewline else ks in
    (mkInnerNode c' nk ks', (h', didDelete, wasNewline))
  end.

(** *** Bulk loading *)

(** Go's [error] values that occur here. *)
Inductive error : Type :=
| EOF                       (* io.EOF *)
| ErrInvalidUTF8            (* errors.New("invalid UTF-8") *)
| ErrRead (code : nat).     (* any other error of the reader *)

Definition isEOF (e : error) : bool :=
  match e with EOF => true | _ => false end.

(** An [io.Reader] is given by what its successive [Read(buf[:])] calls
    return: the bytes put in [buf] ([n] is their number) and the error.
    Once the script is used up, [Read] returns [(0, io.EOF)]. *)
Definition Reader : Type := list (list byte * option error).

(** The state of the loading loop: the leaf groups made so far (the heap, in
    the order of their creation), [currentGroup] (an address) and
    [currentNode] (an index into [currentGroup.nodes]). *)
Record loadState : Type := mkLoad {
  leafGroups : leafHeap;
  currentGroup : nat;
  currentNode : Z
}.

Definition initialLoad : loadState :=
  mkLoad [mkLeafGroup None None 1 (repeat zeroLeaf 64)] 0 0.

(** The body of [for i := 0; i < n; i++] for the byte [buf[i]]. *)
Definition loadByte (st : loadState) (b : byte) : loadState :=
  let g := getGroup (leafGroups st) (currentGroup st) in
  let node := arr_get zeroLeaf (lg_nodes g) (currentNode st) in
  let charWidth := utf8CharWidth b in
  let st1 :=
    if maxBytesPerLeaf <=? u8 (numBytes node + charWidth) then
      if lg_numNodes g <? maxNodesPerGroup then
        mkLoad
          (setGroup (leafGroups st) (currentGroup st)
             (mkLeafGroup (lg_prev g) (lg_next g) (u64 (lg_numNodes g + 1))
                          (lg_nodes g)))
          (currentGroup st) (lg_numNodes g)
      else
        let newGroup := length (leafGroups st) in
        mkLoad
          (setGroup (leafGroups st) (currentGroup st)
             (mkLeafGroup (lg_prev g) (Some newGroup) (lg_numNodes g)
                          (lg_nodes g))
           ++ [mkLeafGroup (Some (currentGroup st)) None 1 (repeat zeroLeaf 64)])
          newGroup 0
    else st in
  let g1 := getGroup (leafGroups st1) (currentGroup st1) in
  let node1 := arr_get zeroLeaf (lg_nodes g1) (currentNode st1) in
  let node2 := mkLeaf (u8 (numBytes node1 + 1))
                      (arr_set (textBytes node1) (numBytes node1) b) in
  mkLoad
    (setGroup (leafGroups st1) (currentGroup st1)
       (mkLeafGroup (lg_prev g1) (lg_next g1) (lg_numNodes g1)
                    (arr_set (lg_nodes g1) (currentNode st1) node2)))
    (currentGroup st1) (currentNode st1).

(** The loop [for { n, err := r.Read(buf[:]) ... }] of [bulkLoadIntoLeaves],
    by recursion on the reads still to come. *)
Fixpoint bulkLoad_loop (r : Reader) (v : Validator) (st : loadState)
  : option loadState * option error :=
  let finish :=
    if ValidateEnd v then (Some st, None) else (None, Some ErrInvalidUTF8) in
  match r with
  | [] => finish
  | (chunk, err) :: r' =>
    let failed :=
      match err with Some e => negb (isEOF e) | None => false end in
    if failed then (None, err)
    else
      match chunk with
      | [] => finish
      | _ =>
        let '(ok, v') := ValidateBytes v chunk in
        if ok then bulkLoad_loop r' v' (fold_left loadByte chunk st)
        else (None, Some ErrInvalidUTF8)
      end
  end.

(** [bulkLoadIntoLeaves]: the slice of leaf groups (pointers, in order) and
    the heap that holds them. *)
Definition bulkLoadIntoLeaves (r : Reader)
  : option (list nodeGroup * leafHeap) * option error :=
  match bulkLoad_loop r NewValidator initialLoad with
  | (Some st, _) =>
    (Some (map leafGroupAt (seq 0 (length (leafGroups st))), leafGroups st), None)
  | (None, e) => (None, e)
  end.

(** *** Building the inner nodes *)

(** The state of [for _, cg := range childGroups]: the parent groups that are
    full, and [currentGroup] ([numNodes] and [nodes]), the last of
    [parentGroups]. *)
Definition layerState : Type := list nodeGroup * (Z * list innerNode).

Definition addChild (h : leafHeap) (st : layerState) (cg : nodeGroup)
  : layerState :=
  let '(finished, (n, nodes)) := st in
  let '(finished1, (n1, nodes1)) :=
    if n =? maxNodesPerGroup
    then (finished ++ [innerGroupOf n nodes], (0, zeroInnerNodes))
    else (finished, (n, nodes)) in
  let slot := arr_get zeroInner nodes1 n1 in
  let innerNode :=
    recalculateChildKeys h (mkInnerNode cg (numKeys slot) (keys slot)) in
  (finished1, (u64 (n1 + 1), arr_set nodes1 n1 innerNode)).

(** One round of the outer loop: [parentGroups] for [childGroups]. *)
Definition buildLayer (h : leafHeap) (childGroups : list nodeGroup)
  : list nodeGroup :=
  let '(finished, (n, nodes)) :=
    fold_left (addChild h) childGroups ([], (0, zeroInnerNodes)) in
  finished ++ [innerGroupOf n nodes].

Lemma addChild_step (h : leafHeap) (cg : nodeGroup) (fin : list nodeGroup)
    (n : Z) (nodes : list innerNode) :
  0 <= n <= 64 ->
  exists fin1 n1 nodes1,
    addChild h (fin, (n, nodes)) cg = (fin1, (n1, nodes1)) /\
    0 <= n1 <= 64 /\
    64 * Z.of_nat (length fin1) + n1 = 64 * Z.of_nat (length fin) + n + 1.
Proof.
  intros Hn. unfold addChild, maxNodesPerGroup, maxKeysPerNode.
  destruct (Z.eqb_spec n 64) as [E|E].
  - do 3 eexists. split; [reflexivity|].
    rewrite length_app. simpl length. change (u64 (0 + 1)) with 1. lia.
  - do 3 eexists. split; [reflexivity|].
    unfold u64. rewrite Z.mod_small by lia. lia.
Qed.

Lemma addChild_count (h : leafHeap) (cgs : list nodeGroup) :
  forall (fin : list nodeGroup) (n : Z) (nodes : list innerNode),
    0 <= n <= 64 ->
    forall fin' n' nodes',
      fold_left (addChild h) cgs (fin, (n, nodes)) = (fin', (n', nodes')) ->
      0 <= n' <= 64 /\
      64 * Z.of_nat (length fin') + n'
      = 64 * Z.of_nat (length fin) + n + Z.of_nat (length cgs).
Proof.
  induction cgs as [|cg cgs IH]; intros fin n nodes Hn fin' n' nodes' Hf.
  - simpl in Hf. inversion Hf; subst. simpl. lia.
  - cbn [fold_left] in Hf.
    destruct (addChild_step h cg fin n nodes Hn) as (fin1 & n1 & nodes1 & E & Hr & Hc).
    rewrite E in Hf. apply IH in Hf; [|exact Hr].
    destruct Hf as [Hr' Hc']. split; [exact Hr'|].
    rewrite Hc'. simpl length. lia.
Qed.

Lemma buildLayer_shrinks (h : leafHeap) (cgs : list nodeGroup) :
  length (buildLayer h cgs) <> 1%nat ->
  (length (buildLayer h cgs) < length cgs)%nat.
Proof.
  unfold buildLayer.
  destruct (fold_left (addChild h) cgs ([], (0, zeroInnerNodes)))
    as [fin [n nodes]] eqn:Hf.
  apply addChild_count in Hf; [|lia].
  rewrite length_app. simpl length in *. lia.
Qed.

(** [buildTreeFromLeaves]: rounds of [buildLayer] until one parent group is
    left.  Each round that does not return leaves fewer groups than it
    received. *)
Equations buildTreeFromLeaves (h : leafHeap) (childGroups : list nodeGroup)
  : innerNode by wf (length childGroups) lt :=
  buildTreeFromLeaves h childGroups
    with Nat.eq_dec (length (buildLayer h childGroups)) 1 => {
    | left _ =>
      recalculateChildKeys h
        (mkInnerNode (nth 0 (buildLayer h childGroups) nilGroup) 0 zeroKeys);
    | right Hmore => buildTreeFromLeaves h (buildLayer h childGroups)
    }.
Next Obligation. apply buildLayer_shrinks; assumption. Qed.

(** *** The tree *)

(** [NewTree]: a tree representing an empty string. *)
Definition NewTree : Tree :=
  mkTree (mkInnerNode (leafGroupAt 0) 1 zeroKeys)
         [mkLeafGroup None None 1 (repeat zeroLeaf 64)].

Definition NewTreeFromReader (r : Reader) : option Tree * option error :=
  match bulkLoadIntoLeaves r with
  | (_, Some err) => (None, Some err)
  | (Some (groups, h), None) =>
    (Some (mkTree (buildTreeFromLeaves h groups) h), None)
  | (None, None) => (None, None)
  end.

(** [strings.NewReader(s)] read through a 1024-byte buffer: every [Read]
    returns the next (at most) 1024 bytes and a nil error, then [(0, io.EOF)]. *)
Fixpoint chunksOf (fuel : nat) (size : nat) (s : list byte) : list (list byte) :=
  match fuel with
  | O => []
  | S fuel' =>
    match s with
    | [] => []
    | _ => firstn size s :: chunksOf fuel' size (skipn size s)
    end
  end.

Definition stringsNewReader (s : list byte) : Reader :=
  map (fun chunk => (chunk, None)) (chunksOf (length s) 1024 s).

Definition NewTreeFromString (s : list byte) : option Tree * option error :=
  NewTreeFromReader (stringsNewReader s).

Definition DeleteAtPosition (t : Tree) (charPos : Z) : Tree :=
  let '(root', (h', _, _)) := inner_deleteAtPosition (heap t) (root t) charPos in
  mkTree root' h'.

Definition CursorAtPosition (t : Tree) (charPos : Z) : Cursor :=
  inner_cursorAtPosition (heap t) (root t) charPos.

Definition CursorAtLine (t : Tree) (lineNum : Z) : Cursor :=
  if lineNum =? 0 then inner_cursorAtPosition (heap t) (root t) 0
  else inner_cursorAfterNewline (heap t) (root t) (u64 (lineNum - 1)).

(** *** Reading *)

(** The result of [Cursor.Read(b)]: the cursor after the call, the bytes
    written to the front of [b], and the returned [(int, error)]. *)
Record readResult : Type := mkRead {
  r_cursor : Cursor;
  r_bytes : list byte;
  r_n : Z;
  r_err : option error
}.

(** The loop of [Cursor.Read]; [lenb] is [len(b)], [out] the bytes written
    so far ([b[:i]]).  Nothing in the code bounds the number of rounds, so the
    model takes fuel and answers [None] when it runs out. *)
Fixpoint Read_loop (fuel : nat) (h : leafHeap) (c : Cursor) (lenb i : Z)
    (out : list byte) : option readResult :=
  match fuel with
  | O => None
  | S fuel' =>
    if i =? lenb then Some (mkRead c out i None)
    else
      match group c with
      | None => Some (mkRead c out i (Some EOF))
      | Some p =>
        let g := getGroup h p in
        let node := arr_get zeroLeaf (lg_nodes g) (nodeIdx c) in
        let src := slice (textBytes node) (textByteOffset c) (numBytes node) in
        let bytesWritten := Z.min (lenb - i) (Z.of_nat (length src)) in
        let out' := out ++ firstn (Z.to_nat bytesWritten) src in
        let c1 := mkCursor (group c) (nodeIdx c)
                           (u64 (textByteOffset c + bytesWritten)) in
        let i' := i + bytesWritten in
        let c2 :=
          if textByteOffset c1 =? numBytes node
          then mkCursor (group c1) (u64 (nodeIdx c1 + 1)) 0 else c1 in
        let c3 :=
          if nodeIdx c2 =? lg_numNodes g
          then mkCursor (lg_next g) 0 0 else c2 in
        Read_loop fuel' h c3 lenb i' out'
      end
  end.

Definition Read (fuel : nat) (h : leafHeap) (c : Cursor) (lenb : Z)
  : option readResult :=
  Read_loop fuel h c lenb 0 [].

(** *** Statements about the tree *)

(** The text held by a leaf group and by the heap, the groups taken in the
    order of their addresses. *)
Definition groupBytes (g : leafNodeGroup) : list byte :=
  concat (map leafBytes (liveNodes g)).

Definition heapBytes (h : leafHeap) : list byte :=
  concat (map groupBytes h).

(** *** The heap as a list of leaves *)

Definition groupLeaves (g : leafNodeGroup) : list (list byte) :=
  map leafBytes (liveNodes g).

(** The texts of the leaves, in order. *)
Definition leaves (h : leafHeap) : list (list byte) :=
  concat (map groupLeaves h).

(** The bytes between a cursor and the end of the text: the rest of its
    node, the nodes after it in its group, and the groups after it. *)
Definition remaining (h : leafHeap) (c : Cursor) : list byte :=
  match group c with
  | None => []
  | Some p =>
    let g := getGroup h p in
    skipn (Z.to_nat (textByteOffset c))
          (leafBytes (arr_get zeroLeaf (lg_nodes g) (nodeIdx c)))
    ++ concat (map leafBytes (slice (lg_nodes g) (nodeIdx c + 1) (lg_numNodes g)))
    ++ heapBytes (skipn (S p) h)
  end.

(** Removing the character at position [p] from a text given by its
    characters; nothing is removed when [p] is past the end. *)
Definition deleteChar (p : Z) (cs : list (list byte)) : list (list byte) :=
  if (0 <=? p) && (p <? Z.of_nat (length cs))
  then firstn (Z.to_nat p) cs ++ skipn (S (Z.to_nat p)) cs
  else cs.

(** The bytes after the [k]-th newline, counting from zero; none when the
    text has fewer newlines. *)
Fixpoint afterNewline (k : nat) (bs : list byte) : list byte :=
  match bs with
  | [] => []
  | b :: bs' =>
    if isNewline b then
      match k with
      | O => bs'
      | S k' => afterNewline k' bs'
      end
    else afterNewline k bs'
  end.

Definition countNewlines (bs : list byte) : Z :=
  Z.of_nat (length (filter isNewline bs)).

(** What a reader hands to the loading loop: the bytes of its reads, up to
    the first read that fails or returns no byte; and whether a read fails
    (with an error other than io.EOF) before the stream ends. *)
Definition readFailed (err : option error) : bool :=
  match err with Some e => negb (isEOF e) | None => false end.

Fixpoint delivered (r : Reader) : list byte :=
  match r with
  | [] => []
  | (chunk, err) :: r' =>
    if readFailed err then []
    else match chunk with
         | [] => []
         | _ => chunk ++ delivered r'
         end
  end.

Fixpoint readerFails (r : Reader) : bool :=
  match r with
  | [] => false
  | (chunk, err) :: r' =>
    if readFailed err then true
    else match chunk with
         | [] => false
         | _ => readerFails r'
         end
  end.

(** The trees the claims are about: the empty tree, and the trees built from
    a string or from a reader that delivers well-formed UTF-8 of less than
    2^64 bytes, then changed by deletions at positions given as [uint64].
    [built t cs]: such a tree [t], and the characters [cs] of the text it
    should hold. *)
Inductive built : Tree -> list (list byte) -> Prop :=
| built_empty : built NewTree []
| built_new (s : list byte) (cs : list (list byte)) (t : Tree) :
    utf8_decode s = Some cs ->
    Z.of_nat (length s) < 18446744073709551616 ->
    NewTreeFromString s = (Some t, None) ->
    built t cs
| built_reader (r : Reader) (cs : list (list byte)) (t : Tree) :
    utf8_decode (delivered r) = Some cs ->
    Z.of_nat (length (delivered r)) < 18446744073709551616 ->
    NewTreeFromReader r = (Some t, None) ->
    built t cs
| built_delete (t : Tree) (cs : list (list byte)) (p : Z) :
    built t cs ->
    0 <= p < 18446744073709551616 ->
    built (DeleteAtPosition t p) (deleteChar p cs).

(** A cursor at which the bytes [bs] are left to read: a [Read] into a
    buffer of any length returns the first bytes of [bs], as many as the
    buffer holds, with io.EOF when and only when [bs] is shorter than the
    buffer.  Enough fuel gives the result. *)
Definition cursorReads (h : leafHeap) (c : Cursor) (bs : list byte) : Prop :=
  forall lenb : Z,
    0 <= lenb ->
    exists fuel0 : nat,
    forall fuel : nat,
      (fuel0 <= fuel)%nat ->
      exists r : readResult,
        Read fuel h c lenb = Some r /\
        r_bytes r = firstn (Z.to_nat lenb) bs /\
        r_n r = Z.of_nat (length (r_bytes r)) /\
        r_err r = (if lenb <=? Z.of_nat (length bs) then None else Some EOF).

(** A leaf node as Go holds it: [numBytes] within the array of 63 bytes. *)
Definition leafOk (l : leafNode) : Prop :=
  0 <= numBytes l <= 63 /\ length (textBytes l) = 63%nat.

(** The number of start bytes, that is, of characters that start in the
    bytes. *)
Definition charCount (bs : list byte) : Z :=
  fold_right (fun b n => utf8StartByteIndicator b + n) 0 bs.

(** Reading a cursor to the end through a buffer of [lenb] bytes, as a
    caller does: [Read] is called until it returns io.EOF, and the bytes are
    collected.  [rounds] bounds the number of calls. *)
Fixpoint readToEnd (rounds fuel : nat) (h : leafHeap) (c : Cursor) (lenb : Z)
  : option (list byte) :=
  match rounds with
  | O => None
  | S rounds' =>
    match Read fuel h c lenb with
    | None => None
    | Some r =>
      match r_err r with
      | Some _ => Some (r_bytes r)
      | None =>
        option_map (app (r_bytes r)) (readToEnd rounds' fuel h (r_cursor r) lenb)
      end
    end
  end.

(** The cursors of a tree: those returned by [CursorAtPosition] and
    [CursorAtLine], and what [Read] makes of them. *)
Inductive cursorOf (t : Tree) : Cursor -> Prop :=
| cursor_at_position (p : Z) :
    0 <= p < 18446744073709551616 -> cursorOf t (CursorAtPosition t p)
| cursor_at_line (l : Z) :
    0 <= l < 18446744073709551616 -> cursorOf t (CursorAtLine t l)
| cursor_after_read (c : Cursor) (fuel : nat) (lenb : Z) (r : readResult) :
    cursorOf t c -> 0 <= lenb ->
    Read fuel (heap t) c lenb = Some r ->
    cursorOf t (r_cursor r).

End Text.

(** ** Line breaking and line wrapping ([text/segment/line.go]) *)
Module Segment.

(** A Go [rune]. *)
Definition rune : Type := Z.

(** *** The line breaker *)

Inductive LineBreakDecision : Type :=
| NoLineBreak
| AllowLineBreakBefore
| RequireLineBreakBefore
| RequireLineBreakAfter.

(** The line-breaking classes: [lbPropNone] and one constant per
    [--propertyName] of the [go:generate] line (the generated file
    [line_break_props.go] is not part of the sources at hand). *)
Inductive lbProp : Type :=
| lbPropNone
| lbPropBK | lbPropCM | lbPropCR | lbPropGL | lbPropLF | lbPropNL | lbPropSP
| lbPropWJ | lbPropZW | lbPropAI | lbPropAL | lbPropB2 | lbPropBA | lbPropBB
| lbPropCB | lbPropCJ | lbPropCL | lbPropCP | lbPropEB | lbPropEM | lbPropEX
| lbPropH2 | lbPropH3 | lbPropHL | lbPropHY | lbPropID | lbPropIN | lbPropIS
| lbPropJL | lbPropJT | lbPropJV | lbPropNS | lbPropNU | lbPropOP | lbPropPO
| lbPropPR | lbPropQU | lbPropRI | lbPropSA | lbPropSG | lbPropSY | lbPropXX
| lbPropZWJ.

(** The East Asian width classes of the second [go:generate] line. *)
Inductive eaProp : Type := eaPropNone | eaPropF | eaPropW | eaPropH.

Scheme Equality for lbProp.
Scheme Equality for eaProp.

Declare Scope lb_scope.
Notation "a == b" := (lbProp_beq a b) (at level 70, no associativity) : lb_scope.
Notation "a != b" := (negb (lbProp_beq a b)) (at level 70, no associativity) : lb_scope.
Local Open Scope lb_scope.

Record LineBreaker : Type := mkLineBreaker {
  lastProp : lbProp;
  lastLastProp : lbProp;
  inZeroWidthSpaceSeq : bool;
  inLeftBraceSpaceSeq : bool;
  inQuotationSpaceSeq : bool;
  inClosePunctSpaceSeq : bool;
  inDashSpaceSeq : bool;
  lastPropsWereRIOdd : bool
}.

(** The zero value [LineBreaker{}]. *)
Definition zeroLineBreaker : LineBreaker :=
  mkLineBreaker lbPropNone lbPropNone false false false false false false.

Section ProcessRune.
(** The generated lookup tables and [unicode.In(r, unicode.Mn, unicode.Mc)]
    are taken as parameters. *)
Variable lbPropForRune : rune -> lbProp.
Variable eaPropForRune : rune -> eaProp.
Variable unicodeInMnMc : rune -> bool.

(** LB1 *)
Definition resolveProp (r : rune) : lbProp :=
  let prop := lbPropForRune r in
  let prop := if prop == lbPropNone then lbPropXX else prop in
  if (prop == lbPropAI) || (prop == lbPropSG) || (prop == lbPropXX)
  then lbPropAL
  else if prop == lbPropSA then
    if unicodeInMnMc r then lbPropCM else lbPropAL
  else if prop == lbPropCJ then lbPropNS
  else prop.

(** What is known at the label [done]: [decision], [prop] and
    [lb.lastPropsWereRIOdd] (LB9 changes the last two). *)
Record atDone : Type := mkAtDone {
  d_decision : LineBreakDecision;
  d_prop : lbProp;
  d_odd : bool
}.

(** LB4 to LB31: the chain of [if ... { goto done }]. *)
Definition applyRules (lb : LineBreaker) (r : rune) (prop : lbProp) : atDone :=
  let last := lastProp lb in
  let lastLast := lastLastProp lb in
  let done (d : LineBreakDecision) := mkAtDone d prop (lastPropsWereRIOdd lb) in
  (* LB4 *)
  if (prop == lbPropBK) && (last != lbPropCR) then done RequireLineBreakAfter
  (* LB5 *)
  else if (last == lbPropCR) && (prop == lbPropLF) then done RequireLineBreakAfter
  else if last == lbPropCR then done RequireLineBreakBefore
  else if (prop == lbPropLF) || (prop == lbPropNL) then done RequireLineBreakAfter
  (* LB6 *)
  else if (prop == lbPropBK) || (prop == lbPropCR) || (prop == lbPropLF)
          || (prop == lbPropNL) then done NoLineBreak
  (* LB7 *)
  else if (prop == lbPropSP) || (prop == lbPropZW) then done NoLineBreak
  (* LB8 *)
  else if inZeroWidthSpaceSeq lb && (prop != lbPropSP) then done AllowLineBreakBefore
  (* LB8a *)
  else if last == lbPropZWJ then done NoLineBreak
  (* LB9 *)
  else if ((prop == lbPropCM) || (prop == lbPropZWJ))
          && (last != lbPropBK) && (last != lbPropCR) && (last != lbPropLF)
          && (last != lbPropNL) && (last != lbPropSP) && (last != lbPropZW)
          && (last != lbPropNone)
  then mkAtDone NoLineBreak last
         (if last == lbPropRI then negb (lastPropsWereRIOdd lb)
          else lastPropsWereRIOdd lb)
  (* LB11 *)
  else if (last == lbPropWJ) || (prop == lbPropWJ) then done NoLineBreak
  (* LB12 *)
  else if last == lbPropGL then done NoLineBreak
  (* LB12a *)
  else if (last != lbPropSP) && (last != lbPropBA) && (last != lbPropHY)
          && (prop == lbPropGL) then done NoLineBreak
  (* LB13 *)
  else if (prop == lbPropCL) || (prop == lbPropCP) || (prop == lbPropEX)
          || (prop == lbPropIS) || (prop == lbPropSY) then done NoLineBreak
  (* LB14 *)
  else if inLeftBraceSpaceSeq lb && (prop != lbPropSP) then done NoLineBreak
  (* LB15 *)
  else if inQuotationSpaceSeq lb && (prop == lbPropOP) then done NoLineBreak
  (* LB16 *)
  else if inClosePunctSpaceSeq lb && (prop == lbPropNS) then done NoLineBreak
  (* LB17 *)
  else if inDashSpaceSeq lb && (prop == lbPropB2) then done NoLineBreak
  (* LB18 *)
  else if last == lbPropSP then done AllowLineBreakBefore
  (* LB19 *)
  else if (last == lbPropQU) || (prop == lbPropQU) then done NoLineBreak
  (* LB20 *)
  else if (last == lbPropCB) || (prop == lbPropCB) then done AllowLineBreakBefore
  (* LB21 *)
  else if (prop == lbPropBA) || (prop == lbPropHY) || (prop == lbPropNS)
          || (last == lbPropBB) then done NoLineBreak
  (* LB21a *)
  else if (lastLast == lbPropHL) && ((last == lbPropHY) || (last == lbPropBA))
  then done NoLineBreak
  (* LB21b *)
  else if (last == lbPropSY) && (prop == lbPropHL) then done NoLineBreak
  (* LB22 *)
  else if prop == lbPropIN then done NoLineBreak
  (* LB23 *)
  else if (((last == lbPropAL) || (last == lbPropHL)) && (prop == lbPropNU))
          || ((last == lbPropNU) && ((prop == lbPropAL) || (prop == lbPropHL)))
  then done NoLineBreak
  (* LB23a *)
  else if ((last == lbPropPR)
           && ((prop == lbPropID) || (prop == lbPropEB) || (prop == lbPropEM)))
          || (((last == lbPropID) || (last == lbPropEB) || (last == lbPropEM))
              && (prop == lbPropPO))
  then done NoLineBreak
  (* LB24 *)
  else if (((last == lbPropPR) || (last == lbPropPO))
           && ((prop == lbPropAL) || (prop == lbPropHL)))
          || (((last == lbPropAL) || (last == lbPropHL))
              && ((prop == lbPropPR) || (prop == lbPropPO)))
  then done NoLineBreak
  (* LB25 *)
  else if ((last == lbPropCL) && (prop == lbPropPO))
          || ((last == lbPropCP) && (prop == lbPropPO))
          || ((last == lbPropCL) && (prop == lbPropPR))
          || ((last == lbPropCP) && (prop == lbPropPR))
          || ((last == lbPropNU) && (prop == lbPropPO))
          || ((last == lbPropNU) && (prop == lbPropPR))
          || ((last == lbPropPO) && (prop == lbPropOP))
          || ((last == lbPropPO) && (prop == lbPropNU))
          || ((last == lbPropPR) && (prop == lbPropOP))
          || ((last == lbPropPR) && (prop == lbPropNU))
          || ((last == lbPropHY) && (prop == lbPropNU))
          || ((last == lbPropIS) && (prop == lbPropNU))
          || ((last == lbPropNU) && (prop == lbPropNU))
          || ((last == lbPropSY) && (prop == lbPropNU))
  then done NoLineBreak
  (* LB26 *)
  else if ((last == lbPropJL)
           && ((prop == lbPropJL) || (prop == lbPropJV) || (prop == lbPropH2)
               || (prop == lbPropH3)))
          || (((last == lbPropJV) || (last == lbPropH2))
              && ((prop == lbPropJV) || (prop == lbPropJT)))
          || (((last == lbPropJT) || (last == lbPropH3)) && (prop == lbPropJT))
  then done NoLineBreak
  (* LB27 *)
  else if (((last == lbPropJL) || (last == lbPropJV) || (last == lbPropJT)
            || (last == lbPropH2) || (last == lbPropH3)) && (prop == lbPropPO))
          || ((last == lbPropPR)
              && ((prop == lbPropJL) || (prop == lbPropJV) || (prop == lbPropJT)
                  || (prop == lbPropH2) || (prop == lbPropH3)))
  then done NoLineBreak
  (* LB28 *)
  else if ((last == lbPropAL) || (last == lbPropHL))
          && ((prop == lbPropAL) || (prop == lbPropHL)) then done NoLineBreak
  (* LB29 *)
  else if (last == lbPropIS) && ((prop == lbPropAL) || (prop == lbPropHL))
  then done NoLineBreak
  (* LB30: the inner [if] on the East Asian width may fall through *)
  else if (((((last == lbPropAL) || (last == lbPropHL) || (last == lbPropNU))
             && (prop == lbPropOP))
            || ((last == lbPropCP)
                && ((prop == lbPropAL) || (prop == lbPropHL) || (prop == lbPropNU))))
           && (negb (eaProp_beq (eaPropForRune r) eaPropF)
               && negb (eaProp_beq (eaPropForRune r) eaPropW)
               && negb (eaProp_beq (eaPropForRune r) eaPropH)))
  then done NoLineBreak
  (* LB30a *)
  else if lastPropsWereRIOdd lb && (prop == lbPropRI) then done NoLineBreak
  (* LB30b *)
  else if (last == lbPropEB) && (prop == lbPropEM) then done NoLineBreak
  (* LB31 *)
  else done AllowLineBreakBefore.

(** LB10, at the label [done]. *)
Definition reinterpret (lb : LineBreaker) (prop : lbProp) : lbProp :=
  if (prop == lbPropCM) || ((prop == lbPropZWJ) && (lastProp lb != lbPropNone))
  then lbPropAL else prop.

(** [LineBreaker.ProcessRune]: the decision and the breaker after the call. *)
Definition ProcessRune (lb : LineBreaker) (r : rune)
  : LineBreakDecision * LineBreaker :=
  let prop := resolveProp r in
  let at_done := applyRules lb r prop in
  let prop := reinterpret lb (d_prop at_done) in
  let odd := d_odd at_done in
  (d_decision at_done,
   mkLineBreaker
     prop
     (lastProp lb)
     ((prop == lbPropZW) || (inZeroWidthSpaceSeq lb && (prop == lbPropSP)))
     ((prop == lbPropOP) || (inLeftBraceSpaceSeq lb && (prop == lbPropSP)))
     ((prop == lbPropQU) || (inQuotationSpaceSeq lb && (prop == lbPropSP)))
     (((prop == lbPropCL) || (prop == lbPropCP))
      || (inClosePunctSpaceSeq lb && (prop == lbPropSP)))
     ((prop == lbPropB2) || (inDashSpaceSeq lb && (prop == lbPropSP)))
     ((prop == lbPropRI) && negb odd)).
End ProcessRune.

(** *** The wrapped-line iterator *)

(** A grapheme cluster, and the runes of a [Segment]. *)
Definition cluster : Type := list rune.

(** Modelled from the spec: [Segment.HasNewline] is not part of the sources
    at hand.  The spec speaks of a cluster that "contains a hard newline";
    the comment of [NextSegment] of "the grapheme cluster containing the
    newline". *)
Definition HasNewline (seg : list rune) : bool :=
  existsb (fun r => r =? 10) seg.

(** Modelled from the spec: [GraphemeClusterIter] is not part of the sources
    at hand.  The spec describes "a lazy, non-restartable sequence of
    extended grapheme clusters from a cursor's rune stream ..., one cluster
    per call ... (or end-of-stream)".  The iterator is the clusters still to
    come, and the error of the underlying reader, if any, that ends them; a
    copy of the iterator (as [gcIterClone := iter.gcIter] makes) moves on its
    own. *)
Record GraphemeClusterIter : Type := mkGcIter {
  gc_pending : list cluster;
  gc_failure : option Text.error
}.

(** [gcIter.NextSegment(seg)]: the iterator after the call, the cluster put
    in [seg] and the error. *)
Definition gcNextSegment (it : GraphemeClusterIter)
  : GraphemeClusterIter * cluster * option Text.error :=
  match gc_pending it with
  | gc :: rest => (mkGcIter rest (gc_failure it), gc, None)
  | [] =>
    (it, [],
     match gc_failure it with Some e => Some e | None => Some Text.EOF end)
  end.

Definition GraphemeClusterWidthFunc : Type := cluster -> Z -> Z.

Record LineWrapConfig : Type := mkLineWrapConfig {
  maxLineWidth : Z;
  widthFunc : GraphemeClusterWidthFunc
}.

(** [NewLineWrapConfig]; [None] stands for [log.Fatalf]. *)
Definition NewLineWrapConfig (maxLineWidth : Z) (widthFunc : GraphemeClusterWidthFunc)
  : option LineWrapConfig :=
  if maxLineWidth =? 0 then None
  else Some (mkLineWrapConfig maxLineWidth widthFunc).

(** [WrappedLineIter].  The field [gcSegment] is scratch storage: every use
    of it in [NextSegment] follows a [gcIter.NextSegment(iter.gcSegment)]
    that overwrites it, so it carries nothing from one call to the next and
    is left out of the state. *)
Record WrappedLineIter : Type := mkWrappedLineIter {
  wrapConfig : LineWrapConfig;
  gcIter : GraphemeClusterIter;
  buffer : list rune;
  currentWidth : Z
}.

Definition NewWrappedLineIter (reader : GraphemeClusterIter)
    (wrapConfig : LineWrapConfig) : WrappedLineIter :=
  mkWrappedLineIter wrapConfig reader [] 0.

(** The loop of [WrappedLineIter.NextSegment], by recursion on the clusters
    still to come: every round starts with [iter.gcIter.NextSegment], which
    takes one of them.  The result is the iterator after the call, the runes
    of [segment], and the error. *)
Fixpoint NextSegment_loop (cfg : LineWrapConfig) (pending : list cluster)
    (failure : option Text.error) (buffer : list rune) (currentWidth : Z)
  : WrappedLineIter * list rune * option Text.error :=
  let iter gcs buf w := mkWrappedLineIter cfg (mkGcIter gcs failure) buf w in
  match pending with
  | [] =>
    match failure with
    | Some e =>
      if Text.isEOF e then
        if negb (Nat.eqb (length buffer) 0) then (iter [] [] currentWidth, buffer, None)
        else (iter [] buffer currentWidth, [], Some Text.EOF)
      else (iter [] buffer currentWidth, [], Some e)
    | None =>
      if negb (Nat.eqb (length buffer) 0) then (iter [] [] currentWidth, buffer, None)
      else (iter [] buffer currentWidth, [], Some Text.EOF)
    end
  | gc :: rest =>
    if HasNewline gc then
      (* Hard line-break on newline. *)
      (iter rest [] 0, buffer ++ gc, None)
    else
      let gcWidth := widthFunc cfg gc currentWidth in
      if maxLineWidth cfg <? Text.u64 (currentWidth + gcWidth) then
        if currentWidth =? 0 then
          (* The cluster gets its own line; look at the next one through a
             copy of the iterator. *)
          match rest with
          | next :: rest' =>
            if HasNewline next then (iter rest' buffer currentWidth, gc ++ next, None)
            else (iter rest buffer currentWidth, gc, None)
          | [] => (iter rest buffer currentWidth, gc, None)
          end
        else
          (iter rest gc gcWidth, buffer, None)
      else
        NextSegment_loop cfg rest failure (buffer ++ gc)
                         (Text.u64 (currentWidth + gcWidth))
  end.

Definition NextSegment (it : WrappedLineIter)
  : WrappedLineIter * list rune * option Text.error :=
  NextSegment_loop (wrapConfig it) (gc_pending (gcIter it))
                   (gc_failure (gcIter it)) (buffer it) (currentWidth it).

(** Calling [NextSegment] until it returns an error: the lines, in order.
    [None] when the fuel runs out first. *)
Fixpoint wrappedLines (fuel : nat) (it : WrappedLineIter)
  : option (list (list rune)) :=
  match fuel with
  | O => None
  | S fuel' =>
    match NextSegment it with
    | (_, _, Some _) => Some []
    | (it', seg, None) => option_map (cons seg) (wrappedLines fuel' it')
    end
  end.

(** *** Statements about the line breaker *)

(** The condition of the [if] of LB9. *)
Definition lb9Condition (lb : LineBreaker) (prop : lbProp) : bool :=
  ((prop == lbPropCM) || (prop == lbPropZWJ))
  && (lastProp lb != lbPropBK) && (lastProp lb != lbPropCR)
  && (lastProp lb != lbPropLF) && (lastProp lb != lbPropNL)
  && (lastProp lb != lbPropSP) && (lastProp lb != lbPropZW)
  && (lastProp lb != lbPropNone).


(** The classes that are never remembered: the ones LB1 replaces, and CM. *)
Definition storable (p : lbProp) : bool :=
  (p != lbPropNone) && (p != lbPropAI) && (p != lbPropSG) && (p != lbPropXX)
  && (p != lbPropSA) && (p != lbPropCJ) && (p != lbPropCM).

(** The breaker after the runes [rs], from the zero value. *)
Definition breakerAfter (lbPropForRune : rune -> lbProp)
    (eaPropForRune : rune -> eaProp) (unicodeInMnMc : rune -> bool)
    (rs : list rune) : LineBreaker :=
  fold_left
    (fun lb r => snd (ProcessRune lbPropForRune eaPropForRune unicodeInMnMc lb r))
    rs zeroLineBreaker.

(** An excerpt of the generated table, for examples: LineBreak.txt gives
    ZWJ to U+200D, CM to U+0300..U+036F, ID to U+4E00..U+9FFF, SP to U+0020
    and LF to U+000A; the code points outside the excerpt are left unlisted. *)
Definition lbPropForRune_excerpt (r : rune) : lbProp :=
  if r =? 8205 then lbPropZWJ
  else if (768 <=? r) && (r <=? 879) then lbPropCM
  else if (19968 <=? r) && (r <=? 40959) then lbPropID
  else if r =? 32 then lbPropSP
  else if r =? 10 then lbPropLF
  else lbPropNone.

Definition eaPropForRune_excerpt (r : rune) : eaProp :=
  if (19968 <=? r) && (r <=? 40959) then eaPropW else eaPropNone.

Definition unicodeInMnMc_excerpt (r : rune) : bool :=
  (768 <=? r) && (r <=? 879).

(** *** Statements about the wrapped-line iterator *)

(** The iterators that calls of [NextSegment] can produce from a new one.
    A grapheme cluster has at least one rune. *)
Inductive reachable (cfg : LineWrapConfig) : WrappedLineIter -> Prop :=
| reach_new (reader : GraphemeClusterIter) :
    Forall (fun gc => gc <> []) (gc_pending reader) ->
    reachable cfg (NewWrappedLineIter reader cfg)
| reach_next (it it' : WrappedLineIter) (seg : list rune)
             (err : option Text.error) :
    reachable cfg it ->
    NextSegment it = (it', seg, err) ->
    reachable cfg it'.

(** The width function returns a [uint64]. *)
Definition widthsAreUint64 (cfg : LineWrapConfig) : Prop :=
  forall gc off, 0 <= widthFunc cfg gc off < 18446744073709551616.

(** The cell width of a line made of the clusters [gcs]: each cluster is as
    wide as the width function says at the cell offset it starts at. *)
Definition lineWidth (cfg : LineWrapConfig) (gcs : list cluster) : Z :=
  fold_left (fun off gc => off + widthFunc cfg gc off) gcs 0.

(** The clusters of a line before the newline cluster that ends it. *)
Definition lineBody (gcs : list cluster) : list cluster :=
  match rev gcs with
  | last :: front => if HasNewline last then rev front else gcs
  | [] => gcs
  end.

(** "No emitted line exceeds max width unless it is a single oversized
    cluster": the newline cluster that ends a line is set apart (a hard
    newline is included in the line it ends, also the one absorbed after an
    oversized cluster), and what comes before it is at most as wide as the
    maximum, or is a single cluster wider than the maximum. *)
Definition lineBodyWithinWidth (cfg : LineWrapConfig) (gcs : list cluster) : Prop :=
  lineWidth cfg (lineBody gcs) <= maxLineWidth cfg \/
  exists gc, lineBody gcs = [gc] /\ maxLineWidth cfg < widthFunc cfg gc 0.

(** Wrap fidelity for the text whose clusters are [clusters]: the iterator
    ends, its lines are the clusters in order, cut into groups (so their
    concatenation is the text), and every line satisfies [lineOk]. *)
Definition wrapFidelity (lineOk : LineWrapConfig -> list cluster -> Prop)
    (cfg : LineWrapConfig) (clusters : list cluster) : Prop :=
  exists (fuel : nat) (groups : list (list cluster)),
    wrappedLines fuel (NewWrappedLineIter (mkGcIter clusters None) cfg)
    = Some (map (@concat rune) groups) /\
    concat groups = clusters /\
    Forall (lineOk cfg) groups.

(** The calls still needed: two for every cluster to come at most, and one
    for a buffer that is not empty. *)
Definition callsLeft (it : WrappedLineIter) : nat :=
  2 * length (gc_pending (gcIter it))
  + match buffer it with [] => 0 | _ => 1 end.

(** Width functions for which wrap fidelity is proved: a cluster
    without a newline is at least one cell wide, widths and the maximum stay
    below 2^63 (no sum of two of them wraps around), and the width of a
    cluster does not depend on where in the line it is. *)
Definition widthsPositive (cfg : LineWrapConfig) : Prop :=
  forall gc off, HasNewline gc = false -> 0 < widthFunc cfg gc off.

Definition widthsSmall (cfg : LineWrapConfig) : Prop :=
  0 < maxLineWidth cfg < 9223372036854775808 /\
  forall gc off, 0 <= widthFunc cfg gc off < 9223372036854775808.

Definition widthsOffsetFree (cfg : LineWrapConfig) : Prop :=
  forall gc off, widthFunc cfg gc off = widthFunc cfg gc 0.

End Segment.

(** ** Word motions *)
Module Locate.
Import Segment.

(** Modelled from the spec: the package [locate] ([NextWordStart],
    [PrevWordStart], [WordObject], [InnerWordObject], [isPunct]) is not part
    of the sources at hand; only its tests are.  The definitions below follow
    section 4.5 of the spec:
    - "Character classification is three-valued: whitespace, punctuation
      (ASCII punctuation excluding underscore), word-character (everything
      else, including underscore and non-ASCII)";
    - the motions "scan cluster by cluster, treating a class change as a word
      boundary; a blank line is its own word; out-of-range clamps to the last
      valid position";
    - the word objects return [[start, end)]: the "outer form spans the
      classified run plus trailing whitespace, unless the position sits on
      whitespace, in which case it spans the whitespace run plus the
      following word.  Inner form spans only the classified run under the
      position.  An empty line is a zero-width word".
    The document is the sequence of grapheme clusters of the tree's text;
    positions count characters (runes).  A cluster is classified by its
    first rune, a cluster with a newline apart. *)
Inductive kind : Type := Newline | Space | Punct | WordChar.

Scheme Equality for kind.

Definition isSpaceRune (r : rune) : bool :=
  ((9 <=? r) && (r <=? 13)) || (r =? 32) || (r =? 133) || (r =? 160)
  || (r =? 5760) || ((8192 <=? r) && (r <=? 8202)) || (r =? 8232)
  || (r =? 8233) || (r =? 8239) || (r =? 8287) || (r =? 12288).

Definition isPunctRune (r : rune) : bool :=
  ((33 <=? r) && (r <=? 47)) || ((58 <=? r) && (r <=? 64))
  || ((91 <=? r) && (r <=? 94)) || (r =? 96) || ((123 <=? r) && (r <=? 126)).

Definition isPunct (gc : cluster) : bool :=
  match gc with r :: _ => isPunctRune r | [] => false end.

Definition isWhitespace (gc : cluster) : bool :=
  match gc with r :: _ => isSpaceRune r | [] => false end.

Definition classify (gc : cluster) : kind :=
  if HasNewline gc then Newline
  else if isWhitespace gc then Space
  else if isPunct gc then Punct
  else WordChar.

(** The clusters of a document with the position of their first character. *)
Fixpoint entriesFrom (pos : Z) (doc : list cluster) : list (Z * kind) :=
  match doc with
  | [] => []
  | gc :: doc' => (pos, classify gc) :: entriesFrom (pos + Z.of_nat (length gc)) doc'
  end.

Definition entries (doc : list cluster) : list (Z * kind) := entriesFrom 0 doc.

Definition docLength (doc : list cluster) : Z :=
  fold_left (fun n gc => n + Z.of_nat (length gc)) doc 0.

(** A word starts at a cluster that is not white space and whose class
    differs from the class before it; an empty line is a word of its own.
    [prev] is the class of the cluster before, [None] at the start of the
    document. *)
Definition startsWord (prev : option kind) (k : kind) : bool :=
  match k with
  | Newline =>
    match prev with None => true | Some p => kind_beq p Newline end
  | Space => false
  | _ =>
    match prev with None => true | Some p => negb (kind_beq p k) end
  end.

(** The first word start after [pos]; the end of the document when there
    is none. *)
Fixpoint nextWordStartFrom (es : list (Z * kind)) (prev : option kind)
    (pos endPos : Z) : Z :=
  match es with
  | [] => endPos
  | (p, k) :: es' =>
    if (pos <? p) && startsWord prev k then p
    else nextWordStartFrom es' (Some k) pos endPos
  end.

Definition NextWordStart (doc : list cluster) (pos : Z) : Z :=
  nextWordStartFrom (entries doc) None pos (docLength doc).

(** The last word start before [pos]; the start of the document when there
    is none. *)
Fixpoint prevWordStartFrom (es : list (Z * kind)) (prev : option kind)
    (pos found : Z) : Z :=
  match es with
  | [] => found
  | (p, k) :: es' =>
    if p <? pos then
      prevWordStartFrom es' (Some k) pos (if startsWord prev k then p else found)
    else found
  end.

Definition PrevWordStart (doc : list cluster) (pos : Z) : Z :=
  prevWordStartFrom (entries doc) None pos 0.

(** The end of the run of class [k] at the head of [es]: the position of the
    first cluster of another class, with the clusters from there on. *)
Fixpoint skipRun (k : kind) (es : list (Z * kind)) (endPos : Z)
  : Z * list (Z * kind) :=
  match es with
  | [] => (endPos, [])
  | (p, k') :: es' =>
    if kind_beq k' k then skipRun k es' endPos else (p, es)
  end.

(** The class of the cluster at the head of [es], if it is a word or
    punctuation class. *)
Definition headWordKind (es : list (Z * kind)) : option kind :=
  match es with
  | (_, Punct) :: _ => Some Punct
  | (_, WordChar) :: _ => Some WordChar
  | _ => None
  end.

(** White space, then the word that follows it. *)
Definition spaceThenWord (es : list (Z * kind)) (endPos : Z) : Z :=
  let '(e1, es1) := skipRun Space es endPos in
  match headWordKind es1 with
  | Some k => fst (skipRun k es1 endPos)
  | None => e1
  end.

(** Scans for the run that holds [pos]: [runStart] and [runKind] describe the
    run the scan is in.  [outer] selects the outer form. *)
Fixpoint wordObjectFrom (outer : bool) (es : list (Z * kind))
    (runStart : Z) (runKind : option kind) (pos endPos : Z) : Z * Z :=
  match es with
  | [] => (endPos, endPos)
  | (p, k) :: es' =>
    let sameRun :=
      match runKind with
      | Some rk => kind_beq rk k && negb (kind_beq k Newline)
      | None => false
      end in
    let start := if sameRun then runStart else p in
    let next := match es' with (q, _) :: _ => q | [] => endPos end in
    if pos <? next then
      match k with
      | Newline => (p, if outer then spaceThenWord es' endPos else p)
      | Space =>
        (start, if outer then spaceThenWord es' endPos
                else fst (skipRun Space es' endPos))
      | _ =>
        let '(e1, es1) := skipRun k es' endPos in
        (start, if outer then fst (skipRun Space es1 endPos) else e1)
      end
    else wordObjectFrom outer es' start (Some k) pos endPos
  end.

Definition WordObject (doc : list cluster) (pos : Z) : Z * Z :=
  wordObjectFrom true (entries doc) 0 None pos (docLength doc).

Definition InnerWordObject (doc : list cluster) (pos : Z) : Z * Z :=
  wordObjectFrom false (entries doc) 0 None pos (docLength doc).

(** An ASCII document: every character is a cluster of its own. *)
Definition asciiDoc (s : String.string) : list cluster :=
  map (fun a => [Z.of_nat (Ascii.nat_of_ascii a)]) (String.list_ascii_of_string s).

(** The string of one newline character. *)
Definition nl : String.string :=
  String.String (Ascii.ascii_of_nat 10) String.EmptyString.

End Locate.

(** * Properties *)

(** ** Well-formed UTF-8 and the byte tables *)
Module Utf8Facts.
Import Utf8.

Lemma byteZ_range (b : byte) : 0 <= byteZ b < 256.
Proof. destruct b; cbv; split; congruence. Qed.

(** The tables, by ranges of the byte. *)
Lemma utf8CharWidth_table (b : byte) :
  utf8CharWidth b =
  if byteZ b <? 128 then 1
  else if byteZ b <? 192 then 0
  else if byteZ b <? 224 then 2
  else if byteZ b <? 240 then 3
  else if byteZ b <? 248 then 4
  else 0.
Proof. destruct b; reflexivity. Qed.

Lemma utf8StartByteIndicator_table (b : byte) :
  utf8StartByteIndicator b =
  if byteZ b <? 128 then 1
  else if byteZ b <? 192 then 0
  else if byteZ b <? 248 then 1
  else 0.
Proof. destruct b; reflexivity. Qed.

Lemma isNewline_table (b : byte) : isNewline b = (byteZ b =? 10).
Proof. destruct b; reflexivity. Qed.

Lemma utf8StartByteIndicator_01 (b : byte) :
  utf8StartByteIndicator b = 0 \/ utf8StartByteIndicator b = 1.
Proof.
  rewrite utf8StartByteIndicator_table.
  repeat destruct (_ <? _); auto.
Qed.

Lemma utf8CharWidth_bound (b : byte) : 0 <= utf8CharWidth b <= 4.
Proof.
  rewrite utf8CharWidth_table.
  repeat destruct (_ <? _); lia.
Qed.

(** Turns the boolean range tests of the hypotheses into inequalities. *)
Ltac ranges :=
  unfold lead3, lead4, isCont, inRange in *;
  repeat match goal with
         | H : _ && _ = true |- _ => apply andb_true_iff in H; destruct H
         | H : _ || _ = true |- _ => apply orb_true_iff in H; destruct H
         | H : _ && _ = false |- _ => apply andb_false_iff in H; destruct H
         | H : _ || _ = false |- _ => apply orb_false_iff in H; destruct H
         | H : (_ <=? _) = true |- _ => apply Z.leb_le in H
         | H : (_ <=? _) = false |- _ => apply Z.leb_gt in H
         end.

(** Solves a goal about the tables once the ranges are known. *)
Ltac tables :=
  rewrite ?utf8CharWidth_table, ?utf8StartByteIndicator_table, ?isNewline_table;
  repeat match goal with
         | |- context [?a <? ?b] => destruct (Z.ltb_spec a b)
         | |- context [?a =? ?b] => destruct (Z.eqb_spec a b)
         end;
  try reflexivity; try lia.

(** A byte that is not the first byte of a character. *)
Definition contByte (b : byte) : Prop :=
  utf8StartByteIndicator b = 0 /\ utf8CharWidth b = 0 /\ isNewline b = false.

(** What the tree uses of a character: its first byte is a start byte whose
    width is the length of the character, and the other bytes are not start
    bytes; a newline is a character of one byte. *)
Definition charShape (c : list byte) : Prop :=
  exists b1 tail,
    c = b1 :: tail /\
    utf8StartByteIndicator b1 = 1 /\
    utf8CharWidth b1 = Z.of_nat (length c) /\
    Forall contByte tail /\
    (isNewline b1 = true -> tail = []).

Lemma isCont_contByte (b : byte) : isCont b = true -> contByte b.
Proof. intros H. ranges. repeat split; tables. Qed.

Lemma wf_char_shape (c : list byte) : wf_char c = true -> charShape c.
Proof.
  intros H.
  destruct c as [|b1 [|b2 [|b3 [|b4 [|b5 c]]]]]; simpl in H; try discriminate.
  - exists b1, []. ranges. repeat split; auto; tables.
  - apply andb_true_iff in H. destruct H as [H1 H2].
    apply isCont_contByte in H2.
    exists b1, [b2]. ranges.
    repeat split; auto; try (intros Hn; exfalso; revert Hn); tables.
  - apply andb_true_iff in H. destruct H as [H1 H3].
    assert (H2 : contByte b2).
    { apply isCont_contByte. ranges; unfold isCont, inRange;
        apply andb_true_iff; split; apply Z.leb_le; lia. }
    apply isCont_contByte in H3.
    exists b1, [b2; b3]. ranges;
      (repeat split; auto; try (intros Hn; exfalso; revert Hn); tables).
  - apply andb_true_iff in H. destruct H as [H H4].
    apply andb_true_iff in H. destruct H as [H1 H3].
    assert (H2 : contByte b2).
    { apply isCont_contByte. ranges; unfold isCont, inRange;
        apply andb_true_iff; split; apply Z.leb_le; lia. }
    apply isCont_contByte in H3. apply isCont_contByte in H4.
    exists b1, [b2; b3; b4]. ranges;
      (repeat split; auto; try (intros Hn; exfalso; revert Hn); tables).
Qed.

(** *** Decoding *)

Definition wellFormed (cs : list (list byte)) : Prop :=
  Forall (fun c => wf_char c = true) cs.

Lemma wf_char_prefix1 (b1 b2 : byte) (t : list byte) :
  wf_char (b1 :: b2 :: t) = true -> wf_char [b1] = false.
Proof.
  intros H. apply not_true_is_false. intros H1.
  destruct t as [|b3 [|b4 [|b5 t]]]; simpl in H, H1; try discriminate;
    ranges; lia.
Qed.

Lemma wf_char_prefix2 (b1 b2 b3 : byte) (t : list byte) :
  wf_char (b1 :: b2 :: b3 :: t) = true -> wf_char [b1; b2] = false.
Proof.
  intros H. apply not_true_is_false. intros H1.
  destruct t as [|b4 [|b5 t]]; simpl in H, H1; try discriminate;
    ranges; lia.
Qed.

Lemma wf_char_prefix3 (b1 b2 b3 b4 : byte) (t : list byte) :
  wf_char (b1 :: b2 :: b3 :: b4 :: t) = true -> wf_char [b1; b2; b3] = false.
Proof.
  intros H. apply not_true_is_false. intros H1.
  destruct t as [|b5 t]; simpl in H, H1; try discriminate;
    ranges; lia.
Qed.

Lemma utf8_decode_char (c r : list byte) :
  wf_char c = true ->
  utf8_decode (c ++ r) = option_map (cons c) (utf8_decode r).
Proof.
  intros H.
  destruct c as [|b1 [|b2 [|b3 [|b4 [|b5 c]]]]]; try discriminate H.
  - cbn [app utf8_decode]. rewrite H. reflexivity.
  - pose proof (wf_char_prefix1 _ _ _ H) as P1.
    cbn [app utf8_decode]. rewrite P1, H. reflexivity.
  - pose proof (wf_char_prefix1 _ _ _ H) as P1.
    pose proof (wf_char_prefix2 _ _ _ _ H) as P2.
    cbn [app utf8_decode]. rewrite P1, P2, H. reflexivity.
  - pose proof (wf_char_prefix1 _ _ _ H) as P1.
    pose proof (wf_char_prefix2 _ _ _ _ H) as P2.
    pose proof (wf_char_prefix3 _ _ _ _ _ H) as P3.
    cbn [app utf8_decode]. rewrite P1, P2, P3, H. reflexivity.
Qed.

Lemma utf8_decode_concat (cs : list (list byte)) :
  wellFormed cs -> utf8_decode (concat cs) = Some cs.
Proof.
  induction 1 as [|c cs Hc _ IH]; [reflexivity|].
  simpl. rewrite utf8_decode_char by exact Hc. rewrite IH. reflexivity.
Qed.

Lemma utf8_decode_sound_aux (n : nat) :
  forall (s : list byte) (cs : list (list byte)),
    (length s <= n)%nat ->
    utf8_decode s = Some cs ->
    wellFormed cs /\ concat cs = s.
Proof.
  induction n as [|n IH]; intros s cs Hl H.
  - destruct s; [|simpl in Hl; lia]. inversion H. split; constructor.
  - assert (Hstep : forall c r,
               wf_char c = true -> (length r <= n)%nat ->
               option_map (cons c) (utf8_decode r) = Some cs ->
               wellFormed cs /\ concat cs = c ++ r).
    { intros c r Hc Hr Hd. destruct (utf8_decode r) as [cs'|] eqn:D; [|discriminate].
      inversion Hd; subst. destruct (IH r cs' Hr D) as [Hw Hcat].
      split; [constructor; assumption | simpl; rewrite Hcat; reflexivity]. }
    destruct s as [|b1 r1]; [inversion H; split; constructor|].
    simpl in Hl. cbn [utf8_decode] in H.
    destruct (wf_char [b1]) eqn:W1.
    { apply (Hstep [b1] r1); auto. lia. }
    destruct r1 as [|b2 r2]; [discriminate|]. simpl in Hl.
    destruct (wf_char [b1; b2]) eqn:W2.
    { apply (Hstep [b1; b2] r2); auto. lia. }
    destruct r2 as [|b3 r3]; [discriminate|]. simpl in Hl.
    destruct (wf_char [b1; b2; b3]) eqn:W3.
    { apply (Hstep [b1; b2; b3] r3); auto. lia. }
    destruct r3 as [|b4 r4]; [discriminate|]. simpl in Hl.
    destruct (wf_char [b1; b2; b3; b4]) eqn:W4; [|discriminate].
    apply (Hstep [b1; b2; b3; b4] r4); auto. lia.
Qed.

Lemma utf8_decode_sound (s : list byte) (cs : list (list byte)) :
  utf8_decode s = Some cs -> wellFormed cs /\ concat cs = s.
Proof. apply (utf8_decode_sound_aux (length s)). lia. Qed.

Lemma valid_utf8_decode (s : list byte) :
  valid_utf8 s = true <-> exists cs, utf8_decode s = Some cs.
Proof.
  unfold valid_utf8. destruct (utf8_decode s) as [cs|].
  - split; eauto.
  - split; [discriminate | intros [cs H]; discriminate].
Qed.

(** *** The validator *)

(** The state after the bytes of [s]. *)
Definition runValidator (v : Validator) (s : list byte) : Validator :=
  fold_left validatorStep s v.

(** Proves that a boolean range test holds, from inequalities. *)
Ltac by_ranges :=
  unfold wf_char, lead3, lead4, isCont, inRange in *;
  rewrite ?andb_true_iff, ?orb_true_iff, ?Z.leb_le in *; lia.

Lemma runValidator_reject (s : list byte) : runValidator vReject s = vReject.
Proof. induction s; simpl; auto. Qed.

Lemma runValidator_app (v : Validator) (s1 s2 : list byte) :
  runValidator v (s1 ++ s2) = runValidator (runValidator v s1) s2.
Proof. apply fold_left_app. Qed.

Lemma ValidateBytes_spec (buf : list byte) :
  forall v,
    ValidateBytes v buf =
    if isReject (runValidator v buf) && negb (isReject v && Nat.eqb (length buf) 0)
    then (false, vReject) else (true, runValidator v buf).
Proof.
  induction buf as [|b buf IH]; intros v.
  - simpl. destruct (isReject v); reflexivity.
  - cbn [ValidateBytes]. unfold runValidator. cbn [fold_left]. fold (runValidator (validatorStep v b) buf).
    destruct (isReject (validatorStep v b)) eqn:R.
    + destruct (validatorStep v b); try discriminate.
      rewrite runValidator_reject. simpl. rewrite andb_false_r. reflexivity.
    + rewrite IH. rewrite R. simpl. rewrite andb_false_r. reflexivity.
Qed.

Lemma validatorStep_cont (k : nat) (b : byte) :
  validatorStep (vCont k) b =
  if isCont b then match k with O => vAccept | S k' => vCont k' end else vReject.
Proof. destruct k; reflexivity. Qed.

(** After the first byte of a character, the bytes that complete it. *)
Lemma runValidator_cont (k : nat) (s : list byte) :
  runValidator (vCont k) s = vAccept ->
  exists b r,
    s = b :: r /\ isCont b = true /\
    runValidator (match k with O => vAccept | S k' => vCont k' end) r = vAccept.
Proof.
  destruct s as [|b r]; [discriminate|].
  unfold runValidator. cbn [fold_left]. rewrite validatorStep_cont.
  destruct (isCont b) eqn:C.
  - intros H. exists b, r. auto.
  - fold (runValidator vReject r). rewrite runValidator_reject. discriminate.
Qed.

Lemma runValidator_second (v : Validator) (lo hi : Z) (k : nat) (s : list byte) :
  (forall b, validatorStep v b = if inRange lo hi b then vCont k else vReject) ->
  runValidator v s = vAccept ->
  exists b r, s = b :: r /\ inRange lo hi b = true /\ runValidator (vCont k) r = vAccept.
Proof.
  intros Hv. destruct s as [|b r].
  - unfold runValidator. simpl. intros ->.
    specialize (Hv x00). destruct (inRange lo hi x00); discriminate.
  - unfold runValidator. cbn [fold_left]. rewrite Hv.
    destruct (inRange lo hi b) eqn:C.
    + intros H. exists b, r. auto.
    + fold (runValidator vReject r). rewrite runValidator_reject. discriminate.
Qed.

Lemma runValidator_char (c : list byte) :
  wf_char c = true -> runValidator vAccept c = vAccept.
Proof.
  intros H.
  destruct c as [|b1 [|b2 [|b3 [|b4 [|b5 c]]]]]; simpl in H; try discriminate;
    ranges; unfold runValidator; cbn [fold_left validatorStep];
    repeat (unfold isCont, inRange;
            match goal with
            | |- context [?a <=? ?b] => destruct (Z.leb_spec a b); try lia
            end; cbn [andb validatorStep]);
    try reflexivity.
Qed.

Lemma runValidator_wellFormed (cs : list (list byte)) :
  wellFormed cs -> runValidator vAccept (concat cs) = vAccept.
Proof.
  induction 1 as [|c cs Hc _ IH]; [reflexivity|].
  simpl. rewrite runValidator_app, runValidator_char by exact Hc. exact IH.
Qed.

Lemma runValidator_decodes_aux (n : nat) :
  forall s : list byte,
    (length s <= n)%nat ->
    runValidator vAccept s = vAccept ->
    exists cs, utf8_decode s = Some cs.
Proof.
  induction n as [|n IH]; intros s Hl H.
  - destruct s; [exists []; reflexivity | simpl in Hl; lia].
  - destruct s as [|b1 r]; [exists []; reflexivity|].
    assert (Hfin : forall c r',
               b1 :: r = c ++ r' -> wf_char c = true ->
               (length c >= 1)%nat ->
               runValidator vAccept r' = vAccept ->
               exists cs, utf8_decode (b1 :: r) = Some cs).
    { intros c r' E W L R.
      assert (Hr : (length r' <= n)%nat).
      { apply (f_equal (@length byte)) in E. rewrite length_app in E.
        simpl in E, Hl. lia. }
      destruct (IH r' Hr R) as [cs D]. exists (c :: cs).
      rewrite E, utf8_decode_char, D by exact W. reflexivity. }
    unfold runValidator in H. cbn [fold_left validatorStep] in H.
    destruct (inRange 0 127 b1) eqn:R1.
    { apply (Hfin [b1] r); [reflexivity | exact R1 | simpl; lia | assumption]. }
    destruct (inRange 194 223 b1) eqn:R2.
    { apply runValidator_cont in H. destruct H as (b2 & r2 & -> & C2 & H).
      apply (Hfin [b1; b2] r2); [reflexivity | | simpl; lia | assumption]. simpl. rewrite R2, C2. reflexivity. }
    destruct (inRange 224 224 b1) eqn:R3.
    { apply (runValidator_second vE0 160 191 0) in H; [|reflexivity].
      destruct H as (b2 & r2 & -> & C2 & H).
      apply runValidator_cont in H. destruct H as (b3 & r3 & -> & C3 & H).
      apply (Hfin [b1; b2; b3] r3); [reflexivity | | simpl; lia | assumption]. simpl. unfold lead3.
      rewrite R3, C2, C3. reflexivity. }
    destruct (inRange 237 237 b1) eqn:R4.
    { apply (runValidator_second vED 128 159 0) in H; [|reflexivity].
      destruct H as (b2 & r2 & -> & C2 & H).
      apply runValidator_cont in H. destruct H as (b3 & r3 & -> & C3 & H).
      apply (Hfin [b1; b2; b3] r3); [reflexivity | | simpl; lia | assumption]. simpl. unfold lead3.
      rewrite R4, C2, C3. rewrite !orb_true_r. reflexivity. }
    destruct (inRange 225 239 b1) eqn:R5.
    { apply runValidator_cont in H. destruct H as (b2 & r2 & -> & C2 & H).
      apply runValidator_cont in H. destruct H as (b3 & r3 & -> & C3 & H).
      apply (Hfin [b1; b2; b3] r3); [reflexivity | | simpl; lia | assumption]. simpl. rewrite C3, andb_true_r.
      clear - R4 R5 C2. ranges; by_ranges. }
    destruct (inRange 240 240 b1) eqn:R6.
    { apply (runValidator_second vF0 144 191 1) in H; [|reflexivity].
      destruct H as (b2 & r2 & -> & C2 & H).
      apply runValidator_cont in H. destruct H as (b3 & r3 & -> & C3 & H).
      apply runValidator_cont in H. destruct H as (b4 & r4 & -> & C4 & H).
      apply (Hfin [b1; b2; b3; b4] r4); [reflexivity | | simpl; lia | assumption]. simpl. unfold lead4.
      rewrite R6, C2, C3, C4. reflexivity. }
    destruct (inRange 241 243 b1) eqn:R7.
    { apply runValidator_cont in H. destruct H as (b2 & r2 & -> & C2 & H).
      apply runValidator_cont in H. destruct H as (b3 & r3 & -> & C3 & H).
      apply runValidator_cont in H. destruct H as (b4 & r4 & -> & C4 & H).
      apply (Hfin [b1; b2; b3; b4] r4); [reflexivity | | simpl; lia | assumption]. simpl. unfold lead4.
      rewrite R7, C2, C3, C4. rewrite !orb_true_r. reflexivity. }
    destruct (inRange 244 244 b1) eqn:R8.
    { apply (runValidator_second vF4 128 143 1) in H; [|reflexivity].
      destruct H as (b2 & r2 & -> & C2 & H).
      apply runValidator_cont in H. destruct H as (b3 & r3 & -> & C3 & H).
      apply runValidator_cont in H. destruct H as (b4 & r4 & -> & C4 & H).
      apply (Hfin [b1; b2; b3; b4] r4); [reflexivity | | simpl; lia | assumption]. simpl. unfold lead4.
      rewrite R8, C2, C3, C4. rewrite !orb_true_r. reflexivity. }
    fold (runValidator vReject r) in H. rewrite runValidator_reject in H.
    discriminate.
Qed.

(** The validator accepts exactly the well-formed strings. *)
Lemma runValidator_valid (s : list byte) :
  runValidator vAccept s = vAccept <-> valid_utf8 s = true.
Proof.
  split.
  - intros H. apply valid_utf8_decode.
    apply (runValidator_decodes_aux (length s)); auto.
  - intros H. apply valid_utf8_decode in H. destruct H as [cs D].
    apply utf8_decode_sound in D. destruct D as [W <-].
    apply runValidator_wellFormed. exact W.
Qed.

End Utf8Facts.

(** ** The text tree *)
Module TextFacts.
Import Utf8 Utf8Facts Text.

Local Open Scope Z_scope.

(** *** Arithmetic and arrays *)

Lemma u64_small (z : Z) : 0 <= z < 18446744073709551616 -> u64 z = z.
Proof. intros H. unfold u64. apply Z.mod_small. exact H. Qed.

Lemma u8_small (z : Z) : 0 <= z < 256 -> u8 z = z.
Proof. intros H. unfold u8. apply Z.mod_small. exact H. Qed.

Section ArrayFacts.
Context {A : Type}.
Implicit Types (a : list A) (v d : A).

Lemma length_set_nth n v a : length (set_nth n v a) = length a.
Proof.
  revert n. induction a as [|x a IH]; intros [|n]; simpl; auto.
Qed.

Lemma set_nth_split n v a :
  (n < length a)%nat -> set_nth n v a = firstn n a ++ v :: skipn (S n) a.
Proof.
  revert n. induction a as [|x a IH]; intros [|n] H; simpl in *; try lia.
  - reflexivity.
  - rewrite IH by lia. reflexivity.
Qed.

Lemma nth_set_nth_eq n v d a :
  (n < length a)%nat -> nth n (set_nth n v a) d = v.
Proof.
  revert n. induction a as [|x a IH]; intros [|n] H; simpl in *; try lia.
  - reflexivity.
  - apply IH. lia.
Qed.

Lemma nth_set_nth_neq n k v d a :
  k <> n -> nth k (set_nth n v a) d = nth k a d.
Proof.
  revert n k. induction a as [|x a IH]; intros [|n] [|k] H; simpl; auto;
    try congruence.
Qed.

Lemma firstn_set_nth n k v a :
  (k <= n)%nat -> firstn k (set_nth n v a) = firstn k a.
Proof.
  revert n k. induction a as [|x a IH]; intros [|n] [|k] H; simpl; auto; try lia.
  rewrite IH by lia. reflexivity.
Qed.

Lemma skipn_set_nth n k v a :
  (n < k)%nat -> skipn k (set_nth n v a) = skipn k a.
Proof.
  revert n k. induction a as [|x a IH]; intros [|n] [|k] H; simpl; auto; try lia.
  apply IH. lia.
Qed.

Lemma slice_0 a (hi : Z) : slice a 0 hi = firstn (Z.to_nat hi) a.
Proof. unfold slice. rewrite Z.sub_0_r. reflexivity. Qed.

Lemma slice_empty a (n : Z) : slice a n n = [].
Proof. unfold slice. rewrite Z.sub_diag. reflexivity. Qed.

Lemma slice_skipn a (lo hi : Z) :
  0 <= lo <= hi ->
  slice a lo hi = skipn (Z.to_nat lo) (firstn (Z.to_nat hi) a).
Proof.
  intros H. unfold slice. rewrite skipn_firstn_comm.
  f_equal. lia.
Qed.

Lemma slice_cons d a (k n : Z) :
  0 <= k < n -> n <= Z.of_nat (length a) ->
  slice a k n = arr_get d a k :: slice a (k + 1) n.
Proof.
  intros Hk Hn. unfold slice, arr_get.
  replace (Z.to_nat (k + 1)) with (S (Z.to_nat k)) by lia.
  replace (Z.to_nat (n - k)) with (S (Z.to_nat (n - (k + 1)))) by lia.
  assert (Hlt : (Z.to_nat k < length a)%nat) by lia.
  revert Hlt. generalize (Z.to_nat k) as i. generalize (Z.to_nat (n - (k + 1))) as m.
  clear. intros m i. revert a. induction i as [|i IH]; intros [|x a] H; simpl in *; try lia.
  - reflexivity.
  - apply IH. lia.
Qed.

Lemma firstn_S_nth d a (n : nat) :
  (n < length a)%nat -> firstn (S n) a = firstn n a ++ [nth n a d].
Proof.
  revert n. induction a as [|x a IH]; intros [|n] H; simpl in *; try lia.
  - reflexivity.
  - rewrite <- IH by lia. reflexivity.
Qed.

Lemma arr_get_set_eq d a (i : Z) v :
  0 <= i < Z.of_nat (length a) -> arr_get d (arr_set a i v) i = v.
Proof. intros H. unfold arr_get, arr_set. apply nth_set_nth_eq. lia. Qed.

Lemma arr_get_set_neq d a (i k : Z) v :
  0 <= i -> 0 <= k -> k <> i -> arr_get d (arr_set a i v) k = arr_get d a k.
Proof. intros Hi Hk H. unfold arr_get, arr_set. apply nth_set_nth_neq. lia. Qed.

Lemma length_arr_set a (i : Z) v : length (arr_set a i v) = length a.
Proof. apply length_set_nth. Qed.

End ArrayFacts.

(** *** Well-formed heaps *)

Definition groupOk (g : leafNodeGroup) : Prop :=
  1 <= lg_numNodes g <= 64 /\
  length (lg_nodes g) = 64%nat /\
  Forall leafOk (lg_nodes g).

(** The groups are linked in the order of their addresses. *)
Definition heapOk (h : leafHeap) : Prop :=
  h <> [] /\
  forall p, (p < length h)%nat ->
    groupOk (getGroup h p) /\
    lg_next (getGroup h p)
    = (if (S p <? length h)%nat then Some (S p) else None).

Definition cursorOk (h : leafHeap) (c : Cursor) : Prop :=
  match group c with
  | None => True
  | Some p =>
    (p < length h)%nat /\
    0 <= nodeIdx c < lg_numNodes (getGroup h p) /\
    0 <= textByteOffset c
      <= numBytes (arr_get zeroLeaf (lg_nodes (getGroup h p)) (nodeIdx c))
  end.

Lemma leafOk_get (g : leafNodeGroup) (i : Z) :
  groupOk g -> leafOk (arr_get zeroLeaf (lg_nodes g) i).
Proof.
  intros (_ & Hl & Hf). unfold arr_get.
  destruct (Nat.lt_ge_cases (Z.to_nat i) (length (lg_nodes g))) as [L|G].
  - rewrite Forall_forall in Hf. apply Hf. apply nth_In. exact L.
  - rewrite nth_overflow by exact G. split; simpl; [lia | reflexivity].
Qed.

Lemma length_leafBytes (l : leafNode) :
  leafOk l -> Z.of_nat (length (leafBytes l)) = numBytes l.
Proof.
  intros [Hn Hl]. unfold leafBytes. rewrite slice_0, length_firstn. lia.
Qed.

(** *** Reading *)

Lemma heapBytes_skipn (h : leafHeap) (p : nat) :
  (p < length h)%nat ->
  heapBytes (skipn p h) = groupBytes (getGroup h p) ++ heapBytes (skipn (S p) h).
Proof.
  revert p. induction h as [|g h IH]; intros [|p] H; simpl in *; try lia.
  - reflexivity.
  - apply IH. lia.
Qed.

Lemma heapBytes_skipn_all (h : leafHeap) (p : nat) :
  (length h <= p)%nat -> heapBytes (skipn p h) = [].
Proof. intros H. rewrite skipn_all2 by exact H. reflexivity. Qed.

(** The nodes from the cursor to the end of the list of groups. *)
Definition nodesLeft (h : leafHeap) (c : Cursor) : nat :=
  match group c with
  | None => 0
  | Some p =>
    Z.to_nat (lg_numNodes (getGroup h p) - nodeIdx c) + 64 * (length h - S p)
  end.

(** What the loop of [Read] returns when it has written [i] bytes, [out],
    and stands at [c]. *)
Definition readSpec (h : leafHeap) (c : Cursor) (lenb i : Z) (out : list byte)
    (res : option readResult) : Prop :=
  exists r,
    res = Some r /\
    r_bytes r = out ++ firstn (Z.to_nat (lenb - i)) (remaining h c) /\
    r_n r = i + Z.min (lenb - i) (Z.of_nat (length (remaining h c))) /\
    r_err r = (if lenb - i <=? Z.of_nat (length (remaining h c))
               then None else Some EOF) /\
    cursorOk h (r_cursor r) /\
    remaining h (r_cursor r) = skipn (Z.to_nat (lenb - i)) (remaining h c).

Lemma Read_loop_spec (h : leafHeap) (lenb : Z) :
  heapOk h ->
  forall (fuel : nat) (c : Cursor) (i : Z) (out : list byte),
    cursorOk h c ->
    0 <= i <= lenb ->
    (2 * nodesLeft h c + (if (i <? lenb)%Z then 1 else 0) < fuel)%nat ->
    readSpec h c lenb i out (Read_loop fuel h c lenb i out).
Proof.
  intros [Hne Hh].
  induction fuel as [|fuel IH]; intros c i out Hc Hi Hfuel; [lia|].
  cbn [Read_loop].
  destruct (Z.eqb_spec i lenb) as [E|E].
  { (* the buffer is full *)
    subst i. exists (mkRead c out lenb None). simpl.
    rewrite Z.sub_diag. simpl. rewrite app_nil_r.
    split; [reflexivity|]. split; [reflexivity|]. split; [lia|].
    split; [|split; [exact Hc | reflexivity]].
    destruct (Z.leb_spec 0 (Z.of_nat (length (remaining h c))));
      [reflexivity | lia]. }
  destruct c as [[p|] n off]; cbn [group nodeIdx textByteOffset] in *.
  2:{ (* nil group: end of the text *)
    exists (mkRead (mkCursor None n off) out i (Some EOF)). simpl.
    rewrite firstn_nil, skipn_nil, app_nil_r.
    destruct (Z.leb_spec (lenb - i) 0); [lia|].
    split; [reflexivity|]. split; [reflexivity|]. split; [lia|].
    split; [reflexivity|]. split; [exact I | reflexivity]. }
  unfold cursorOk in Hc. cbn [group nodeIdx textByteOffset] in Hc.
  destruct Hc as (Hp & Hn & Hoff).
  destruct (Hh p Hp) as [Hg Hnext].
  set (g := getGroup h p) in *.
  set (node := arr_get zeroLeaf (lg_nodes g) n) in *.
  pose proof (leafOk_get g n Hg) as Hleaf. fold node in Hleaf.
  pose proof (length_leafBytes node Hleaf) as Hlen.
  destruct Hleaf as [Hnb Htb].
  set (src := slice (textBytes node) off (numBytes node)).
  assert (Hsrc : src = skipn (Z.to_nat off) (leafBytes node)).
  { unfold src, leafBytes. rewrite slice_0. apply slice_skipn. lia. }
  assert (Hsl : Z.of_nat (length src) = numBytes node - off).
  { rewrite Hsrc, length_skipn. lia. }
  set (R := concat (map leafBytes (slice (lg_nodes g) (n + 1) (lg_numNodes g)))
            ++ heapBytes (skipn (S p) h)).
  assert (Hrem : remaining h (mkCursor (Some p) n off) = src ++ R).
  { unfold remaining. cbn [group nodeIdx textByteOffset]. fold g. fold node.
    rewrite <- Hsrc. reflexivity. }
  unfold readSpec. rewrite Hrem. clear Hrem.
  set (bw := Z.min (lenb - i) (Z.of_nat (length src))).
  assert (Hbw0 : 0 <= bw <= lenb - i /\ bw <= Z.of_nat (length src) /\
                 (bw = lenb - i \/ bw = Z.of_nat (length src)))
    by (unfold bw; lia).
  rewrite (u64_small (off + bw)) by lia.
  destruct Hg as (Hnn & Hnl & Hnodes).
  destruct (Z.eqb_spec (off + bw) (numBytes node)) as [Efull|Epart].
  - (* the node is read to its end *)
    assert (Hbw : bw = Z.of_nat (length src)) by lia.
    rewrite (u64_small (n + 1)) by lia.
    assert (Hfirst : firstn (Z.to_nat bw) src = src).
    { apply firstn_all2. lia. }
    rewrite Hfirst.
    set (c3 := if n + 1 =? lg_numNodes g
               then mkCursor (lg_next g) 0 0 else mkCursor (Some p) (n + 1) 0).
    assert (H3 : cursorOk h c3 /\ remaining h c3 = R /\
                 (nodesLeft h c3 < nodesLeft h (mkCursor (Some p) n off))%nat).
    { unfold c3. destruct (Z.eqb_spec (n + 1) (lg_numNodes g)) as [Elast|Emore].
      - (* last node of the group *)
        assert (HR : R = heapBytes (skipn (S p) h)).
        { unfold R. rewrite Elast, slice_empty. reflexivity. }
        rewrite Hnext. destruct (Nat.ltb_spec (S p) (length h)) as [L|G].
        + destruct (Hh (S p) L) as [(Hnn' & Hnl' & Hnodes') _].
          split; [|split].
          * unfold cursorOk. cbn [group nodeIdx textByteOffset].
            pose proof (leafOk_get (getGroup h (S p)) 0 (conj Hnn' (conj Hnl' Hnodes'))) as [? _].
            repeat split; auto; lia.
          * unfold remaining. cbn [group nodeIdx textByteOffset].
            rewrite HR, (heapBytes_skipn h (S p)) by exact L.
            rewrite app_assoc. f_equal. unfold groupBytes, liveNodes.
            rewrite (slice_cons zeroLeaf _ 0) by lia. simpl. reflexivity.
          * unfold nodesLeft. cbn [group nodeIdx]. fold g. lia.
        + split; [exact I|]. split.
          * rewrite HR. rewrite heapBytes_skipn_all by lia. reflexivity.
          * unfold nodesLeft. cbn [group nodeIdx]. fold g. lia.
      - split; [|split].
        + unfold cursorOk. cbn [group nodeIdx textByteOffset]. fold g.
          pose proof (leafOk_get g (n + 1) (conj Hnn (conj Hnl Hnodes))) as [? _].
          repeat split; auto; lia.
        + unfold remaining. cbn [group nodeIdx textByteOffset]. fold g.
          unfold R. rewrite (slice_cons zeroLeaf _ (n + 1)) by lia.
          simpl. rewrite <- app_assoc. reflexivity.
        + unfold nodesLeft. cbn [group nodeIdx]. fold g. lia. }
    destruct H3 as (Hc3 & Hr3 & Hm3).
    assert (Hstep : readSpec h c3 lenb (i + bw) (out ++ src)
                      (Read_loop fuel h c3 lenb (i + bw) (out ++ src))).
    { apply IH; [exact Hc3 | lia |].
      destruct (i + bw <? lenb); destruct (i <? lenb); lia. }
    cbn [group nodeIdx textByteOffset].
    replace (if off + bw =? numBytes node
             then mkCursor (Some p) (n + 1) 0
             else mkCursor (Some p) n (off + bw))
      with (mkCursor (Some p) (n + 1) 0) in *
      by (destruct (Z.eqb_spec (off + bw) (numBytes node)); [reflexivity | lia]).
    fold g. fold node. fold src. fold bw.
    destruct (Z.eqb_spec (off + bw) (numBytes node)) as [_|]; [|lia].
    cbn [group nodeIdx textByteOffset]. fold c3.
    destruct Hstep as (r & Hr & Hb & Hrn & He & Hco & Hre).
    exists r. rewrite Hr3 in *.
    split; [exact Hr|]. split; [|split; [|split; [|split]]].
    + rewrite Hb, <- app_assoc. f_equal.
      rewrite firstn_app. rewrite (firstn_all2 (n := Z.to_nat (lenb - i))) by lia. f_equal. f_equal. lia.
    + rewrite Hrn, length_app. lia.
    + rewrite He, length_app.
      destruct (Z.leb_spec (lenb - (i + bw)) (Z.of_nat (length R)));
        destruct (Z.leb_spec (lenb - i) (Z.of_nat (length src + length R)));
        try reflexivity; lia.
    + exact Hco.
    + rewrite Hre. rewrite skipn_app.
      rewrite (skipn_all2 (n := Z.to_nat (lenb - i))) by lia. simpl.
      f_equal. lia.
  - (* the buffer is full before the end of the node *)
    assert (Hbw : bw = lenb - i /\ bw < Z.of_nat (length src)) by lia.
    destruct Hbw as [Hbw Hlt].
    cbn [group nodeIdx textByteOffset]. fold g. fold node. fold src. fold bw.
    destruct (Z.eqb_spec (off + bw) (numBytes node)) as [|_]; [lia|].
    cbn [group nodeIdx textByteOffset].
    destruct (Z.eqb_spec n (lg_numNodes g)) as [|_]; [lia|].
    destruct fuel as [|fuel];
      [unfold nodesLeft in Hfuel; cbn [group nodeIdx] in Hfuel; fold g in Hfuel; lia|].
    cbn [Read_loop]. replace (i + bw) with lenb by lia. rewrite Z.eqb_refl.
    eexists. split; [reflexivity|]. cbn [r_bytes r_n r_err r_cursor].
    split; [|split; [|split; [|split]]].
    + rewrite firstn_app. rewrite <- Hbw.
      replace (Z.to_nat bw - length src)%nat with 0%nat by lia.
      simpl. rewrite app_nil_r. reflexivity.
    + rewrite length_app. lia.
    + rewrite length_app.
      destruct (Z.leb_spec (lenb - i) (Z.of_nat (length src + length R)));
        [reflexivity | lia].
    + unfold cursorOk. cbn [group nodeIdx textByteOffset]. fold g. fold node.
      repeat split; auto; lia.
    + unfold remaining. cbn [group nodeIdx textByteOffset]. fold g. fold node.
      fold R. rewrite <- Hbw. rewrite skipn_app.
      replace (Z.to_nat bw - length src)%nat with 0%nat by lia. simpl.
      f_equal. rewrite Hsrc, skipn_skipn. f_equal. lia.
Qed.

Lemma Read_spec (h : leafHeap) (c : Cursor) (lenb : Z) (fuel : nat) :
  heapOk h -> cursorOk h c -> 0 <= lenb ->
  (2 * nodesLeft h c + 2 <= fuel)%nat ->
  readSpec h c lenb 0 [] (Read fuel h c lenb).
Proof.
  intros Hh Hc Hl Hf. unfold Read. apply Read_loop_spec; auto; try lia.
  destruct (0 <? lenb); lia.
Qed.

Lemma cursorReads_remaining (h : leafHeap) (c : Cursor) :
  heapOk h -> cursorOk h c -> cursorReads h c (remaining h c).
Proof.
  intros Hh Hc lenb Hl. exists (2 * nodesLeft h c + 2)%nat. intros fuel Hf.
  destruct (Read_spec h c lenb fuel Hh Hc Hl Hf) as (r & Hr & Hb & Hn & He & _ & _).
  exists r. rewrite Z.sub_0_r in *. simpl in Hb.
  split; [exact Hr|]. split; [exact Hb|]. split; [|exact He].
  rewrite Hn, Hb, length_firstn. lia.
Qed.

Lemma heapBytes_leaves (h : leafHeap) : heapBytes h = concat (leaves h).
Proof.
  unfold heapBytes, leaves. induction h as [|g h IH]; [reflexivity|].
  simpl. rewrite concat_app, IH. reflexivity.
Qed.

Lemma leaves_app (h1 h2 : leafHeap) : leaves (h1 ++ h2) = leaves h1 ++ leaves h2.
Proof. unfold leaves. rewrite map_app, concat_app. reflexivity. Qed.

Lemma length_setGroup (h : leafHeap) (p : nat) (g : leafNodeGroup) :
  length (setGroup h p g) = length h.
Proof. apply length_set_nth. Qed.

Lemma getGroup_setGroup_eq (h : leafHeap) (p : nat) (g : leafNodeGroup) :
  (p < length h)%nat -> getGroup (setGroup h p g) p = g.
Proof. apply nth_set_nth_eq. Qed.

Lemma getGroup_setGroup_neq (h : leafHeap) (p q : nat) (g : leafNodeGroup) :
  q <> p -> getGroup (setGroup h p g) q = getGroup h q.
Proof. apply nth_set_nth_neq. Qed.

Lemma heap_split (h : leafHeap) (p : nat) :
  (p < length h)%nat ->
  h = firstn p h ++ getGroup h p :: skipn (S p) h.
Proof.
  revert p. induction h as [|g h IH]; intros [|p] H; simpl in *; try lia.
  - reflexivity.
  - f_equal. apply IH. lia.
Qed.

Lemma setGroup_split (h : leafHeap) (p : nat) (g : leafNodeGroup) :
  (p < length h)%nat ->
  setGroup h p g = firstn p h ++ g :: skipn (S p) h.
Proof. apply set_nth_split. Qed.

Lemma leaves_split (h : leafHeap) (p : nat) :
  (p < length h)%nat ->
  leaves h = leaves (firstn p h) ++ groupLeaves (getGroup h p)
             ++ leaves (skipn (S p) h).
Proof.
  intros H. rewrite (heap_split h p H) at 1.
  rewrite leaves_app. unfold leaves at 2. simpl. reflexivity.
Qed.

Lemma leaves_setGroup (h : leafHeap) (p : nat) (g : leafNodeGroup) :
  (p < length h)%nat ->
  leaves (setGroup h p g)
  = leaves (firstn p h) ++ groupLeaves g ++ leaves (skipn (S p) h).
Proof.
  intros H. rewrite setGroup_split by exact H.
  rewrite leaves_app. unfold leaves at 2. simpl. reflexivity.
Qed.

(** The text of a leaf after [textBytes[numBytes] = b; numBytes++]. *)
Lemma leafBytes_append (l : leafNode) (b : byte) :
  leafOk l -> numBytes l < 63 ->
  leafBytes (mkLeaf (u8 (numBytes l + 1)) (arr_set (textBytes l) (numBytes l) b))
  = leafBytes l ++ [b] /\
  leafOk (mkLeaf (u8 (numBytes l + 1)) (arr_set (textBytes l) (numBytes l) b)).
Proof.
  intros [Hn Hl] Hlt. rewrite u8_small by lia. split.
  - unfold leafBytes. cbn [numBytes textBytes]. rewrite !slice_0.
    unfold arr_set. rewrite set_nth_split by lia.
    replace (Z.to_nat (numBytes l + 1)) with (S (Z.to_nat (numBytes l))) by lia.
    rewrite firstn_app, firstn_firstn, length_firstn.
    replace (Nat.min (S (Z.to_nat (numBytes l))) (Z.to_nat (numBytes l)))
      with (Z.to_nat (numBytes l)) by lia.
    replace (S (Z.to_nat (numBytes l))
             - Nat.min (Z.to_nat (numBytes l)) (length (textBytes l)))%nat
      with 1%nat by lia.
    reflexivity.
  - split; cbn [numBytes textBytes]; [lia|]. rewrite length_arr_set. exact Hl.
Qed.

(** The leaves of a group after its node [k] is replaced. *)
Lemma groupLeaves_set (g : leafNodeGroup) (k n : Z) (l : leafNode)
    (pv nx : option nat) :
  length (lg_nodes g) = 64%nat -> 0 <= k < n -> n <= 64 ->
  groupLeaves (mkLeafGroup pv nx n (arr_set (lg_nodes g) k l))
  = map leafBytes (firstn (Z.to_nat k) (lg_nodes g))
    ++ leafBytes l
    :: map leafBytes (slice (lg_nodes g) (k + 1) n).
Proof.
  intros Hl Hk Hn. unfold groupLeaves, liveNodes. cbn [lg_nodes lg_numNodes].
  rewrite slice_0. unfold arr_set. rewrite set_nth_split by lia.
  rewrite firstn_app, firstn_firstn, length_firstn.
  replace (Nat.min (Z.to_nat n) (Z.to_nat k)) with (Z.to_nat k) by lia.
  replace (Z.to_nat n - Nat.min (Z.to_nat k) (length (lg_nodes g)))%nat
    with (S (Z.to_nat (n - (k + 1)))) by lia.
  rewrite map_app. cbn [firstn map]. unfold slice.
  replace (Z.to_nat (k + 1)) with (S (Z.to_nat k)) by lia.
  reflexivity.
Qed.

Lemma groupLeaves_split (g : leafNodeGroup) (k : Z) :
  length (lg_nodes g) = 64%nat -> 0 <= k < lg_numNodes g -> lg_numNodes g <= 64 ->
  groupLeaves g
  = map leafBytes (firstn (Z.to_nat k) (lg_nodes g))
    ++ leafBytes (arr_get zeroLeaf (lg_nodes g) k)
    :: map leafBytes (slice (lg_nodes g) (k + 1) (lg_numNodes g)).
Proof.
  intros Hl Hk Hn. unfold groupLeaves, liveNodes.
  rewrite slice_0.
  rewrite <- (firstn_skipn (Z.to_nat k) (firstn (Z.to_nat (lg_numNodes g)) (lg_nodes g))).
  rewrite firstn_firstn.
  replace (Nat.min (Z.to_nat k) (Z.to_nat (lg_numNodes g))) with (Z.to_nat k) by lia.
  rewrite map_app. f_equal.
  rewrite <- slice_skipn by lia.
  rewrite (slice_cons zeroLeaf) by lia. reflexivity.
Qed.

(** *** Bulk loading *)

Definition curLeaf (st : loadState) : leafNode :=
  arr_get zeroLeaf
    (lg_nodes (getGroup (leafGroups st) (currentGroup st))) (currentNode st).

(** The shape of the loading state: the current group is the last one, the
    current node its last node, and the nodes after it are still zero. *)
Definition loadShape (st : loadState) : Prop :=
  let h := leafGroups st in
  let g := getGroup h (currentGroup st) in
  heapOk h /\
  S (currentGroup st) = length h /\
  currentNode st = lg_numNodes g - 1 /\
  (forall k, lg_numNodes g <= k < 64 ->
             arr_get zeroLeaf (lg_nodes g) k = zeroLeaf).

Lemma heap_last (h : leafHeap) (p : nat) :
  S p = length h -> h = firstn p h ++ [getGroup h p].
Proof.
  intros H. rewrite (heap_split h p) at 1 by lia.
  rewrite skipn_all2 by lia. reflexivity.
Qed.

Lemma setGroup_last (h : leafHeap) (p : nat) (g : leafNodeGroup) :
  S p = length h -> setGroup h p g = firstn p h ++ [g].
Proof.
  intros H. rewrite setGroup_split by lia.
  rewrite skipn_all2 by lia. reflexivity.
Qed.

Lemma leaves_last_group (h0 : leafHeap) (g : leafNodeGroup) :
  leaves (h0 ++ [g]) = leaves h0 ++ groupLeaves g.
Proof. rewrite leaves_app. unfold leaves at 2. simpl. rewrite app_nil_r. reflexivity. Qed.

Lemma heapOk_last (h0 : leafHeap) (g g' : leafNodeGroup) :
  heapOk (h0 ++ [g]) -> groupOk g' -> lg_next g' = lg_next g ->
  heapOk (h0 ++ [g']).
Proof.
  intros [_ H] Hg Hn. split; [destruct h0; discriminate|].
  intros p Hp. rewrite length_app in *. simpl in *.
  specialize (H p Hp). unfold getGroup in *.
  destruct (Nat.lt_ge_cases p (length h0)) as [L|G].
  - rewrite app_nth1 in * by exact L. exact H.
  - replace p with (length h0) in * by lia.
    rewrite nth_middle in *. rewrite Hn. split; [exact Hg | apply H].
Qed.

Lemma getGroup_last (h0 : leafHeap) (g : leafNodeGroup) :
  getGroup (h0 ++ [g]) (length h0) = g.
Proof. unfold getGroup. apply nth_middle. Qed.

Lemma firstn_last (h0 : leafHeap) (g : leafNodeGroup) :
  firstn (length h0) (h0 ++ [g]) = h0.
Proof. rewrite firstn_app, firstn_all, Nat.sub_diag. simpl. apply app_nil_r. Qed.

Lemma leafBytes_zero_append (b : byte) :
  leafBytes (mkLeaf (u8 (numBytes zeroLeaf + 1))
                    (arr_set (textBytes zeroLeaf) (numBytes zeroLeaf) b)) = [b] /\
  leafOk (mkLeaf (u8 (numBytes zeroLeaf + 1))
                 (arr_set (textBytes zeroLeaf) (numBytes zeroLeaf) b)).
Proof.
  split; [reflexivity | split; [|reflexivity]].
  change (0 <= 1 <= 63). lia.
Qed.

Lemma Forall_leafOk_set (nodes : list leafNode) (k : Z) (l : leafNode) :
  Forall leafOk nodes -> leafOk l -> Forall leafOk (arr_set nodes k l).
Proof.
  intros Hf Hl. unfold arr_set. generalize (Z.to_nat k) as n. intros n.
  revert n. induction Hf as [|x xs Hx Hxs IH]; intros [|n]; simpl;
    constructor; auto.
Qed.

Lemma zeroLeaves_ok : Forall leafOk (repeat zeroLeaf 64).
Proof.
  apply Forall_forall. intros l Hin. apply repeat_spec in Hin. subst l.
  split; simpl; [lia | reflexivity].
Qed.

Lemma setGroup_snoc (h0 : leafHeap) (g1 g2 : leafNodeGroup) :
  setGroup (h0 ++ [g1]) (length h0) g2 = h0 ++ [g2].
Proof.
  rewrite setGroup_last by (rewrite length_app; simpl; lia).
  rewrite firstn_last. reflexivity.
Qed.

Lemma curLeaf_last (h0 : leafHeap) (g : leafNodeGroup) (k : Z) :
  curLeaf (mkLoad (h0 ++ [g]) (length h0) k) = arr_get zeroLeaf (lg_nodes g) k.
Proof.
  unfold curLeaf. cbn [leafGroups currentGroup currentNode].
  rewrite getGroup_last. reflexivity.
Qed.

(** The state after a byte is written into node [k] of the last group. *)
Lemma load_finish (h0 : leafHeap) (g g' : leafNodeGroup) (k : Z)
    (node2 : leafNode) :
  heapOk (h0 ++ [g]) ->
  (forall j, k < j < 64 -> arr_get zeroLeaf (lg_nodes g) j = zeroLeaf) ->
  lg_next g' = lg_next g ->
  lg_nodes g' = arr_set (lg_nodes g) k node2 ->
  lg_numNodes g' = k + 1 ->
  0 <= k < 64 ->
  leafOk node2 ->
  loadShape (mkLoad (h0 ++ [g']) (length h0) k) /\
  groupLeaves g'
  = map leafBytes (firstn (Z.to_nat k) (lg_nodes g)) ++ [leafBytes node2] /\
  leafBytes (curLeaf (mkLoad (h0 ++ [g']) (length h0) k)) = leafBytes node2.
Proof.
  intros Hh Hz Hnx Hnd Hnum Hk Hok.
  destruct (proj2 Hh (length h0)) as [Hg _]; [rewrite length_app; simpl; lia|].
  rewrite getGroup_last in Hg. destruct Hg as (Hnn & Hnl & Hnodes).
  assert (Hg' : groupOk g').
  { split; [lia|]. rewrite Hnd. split.
    - rewrite length_arr_set. exact Hnl.
    - apply Forall_leafOk_set; assumption. }
  rewrite curLeaf_last. unfold loadShape.
  cbn [leafGroups currentGroup currentNode].
  rewrite !getGroup_last. split; [|split].
  - split; [|split; [|split]].
    + apply (heapOk_last h0 g g' Hh Hg' Hnx).
    + rewrite !length_app. simpl. lia.
    + lia.
    + intros j Hj. rewrite Hnd, arr_get_set_neq by lia. apply Hz. lia.
  - destruct g' as [pv nx n' nodes']. cbn [lg_next lg_nodes lg_numNodes] in *.
    subst nodes' n'. rewrite groupLeaves_set by lia.
    rewrite slice_empty. reflexivity.
  - rewrite Hnd, arr_get_set_eq by lia. reflexivity.
Qed.

Lemma getGroup_app_l (h1 h2 : leafHeap) (p : nat) :
  (p < length h1)%nat -> getGroup (h1 ++ h2) p = getGroup h1 p.
Proof. intros H. unfold getGroup. apply app_nth1. exact H. Qed.

(** The heap after a new group is linked behind the last one. *)
Lemma heapOk_grow (h0 : leafHeap) (g : leafNodeGroup) (pv : option nat) :
  heapOk (h0 ++ [g]) ->
  heapOk ((h0 ++ [mkLeafGroup (lg_prev g) (Some (length (h0 ++ [g])))
                              (lg_numNodes g) (lg_nodes g)])
          ++ [mkLeafGroup pv None 1 (repeat zeroLeaf 64)]).
Proof.
  intros [_ H]. split; [destruct h0; discriminate|].
  set (g1 := mkLeafGroup (lg_prev g) (Some (length (h0 ++ [g])))
                         (lg_numNodes g) (lg_nodes g)).
  set (g2 := mkLeafGroup pv None 1 (repeat zeroLeaf 64)).
  assert (Hl : length (h0 ++ [g]) = S (length h0))
    by (rewrite length_app; simpl; lia).
  assert (Hl1 : length (h0 ++ [g1]) = S (length h0))
    by (rewrite length_app; simpl; lia).
  assert (Hl2 : length ((h0 ++ [g1]) ++ [g2]) = S (S (length h0)))
    by (rewrite length_app, Hl1; simpl; lia).
  intros p Hp. rewrite Hl2 in *. rewrite Hl in H.
  destruct (Nat.lt_ge_cases p (length h0)) as [L|G].
  - specialize (H p ltac:(lia)).
    rewrite getGroup_app_l in H by exact L.
    rewrite !getGroup_app_l by (rewrite ?Hl1; lia).
    destruct H as [Hg Hn]. split; [exact Hg|]. rewrite Hn.
    destruct (Nat.ltb_spec (S p) (S (length h0)));
      destruct (Nat.ltb_spec (S p) (S (S (length h0)))); try reflexivity; lia.
  - destruct (Nat.eq_dec p (length h0)) as [->|Hne].
    + specialize (H (length h0) ltac:(lia)). rewrite getGroup_last in H.
      rewrite getGroup_app_l by (rewrite Hl1; lia). rewrite getGroup_last.
      destruct H as [Hg _]. split; [exact Hg|]. cbn [lg_next g1]. rewrite Hl.
      destruct (Nat.ltb_spec (S (length h0)) (S (S (length h0)))); [|lia].
      reflexivity.
    + replace p with (length (h0 ++ [g1])) by lia.
      rewrite getGroup_last. split.
      * split; [cbn [lg_numNodes g2]; lia|].
        split; [reflexivity | apply zeroLeaves_ok].
      * cbn [lg_next g2]. rewrite Hl1.
        destruct (Nat.ltb_spec (S (S (length h0))) (S (S (length h0))));
          [lia | reflexivity].
Qed.

Lemma loadByte_spec (st : loadState) (b : byte) :
  loadShape st ->
  exists fr,
    leaves (leafGroups st) = fr ++ [leafBytes (curLeaf st)] /\
    loadShape (loadByte st b) /\
    (if maxBytesPerLeaf <=? numBytes (curLeaf st) + utf8CharWidth b
     then leaves (leafGroups (loadByte st b))
          = fr ++ [leafBytes (curLeaf st); [b]] /\
          leafBytes (curLeaf (loadByte st b)) = [b]
     else leaves (leafGroups (loadByte st b))
          = fr ++ [leafBytes (curLeaf st) ++ [b]] /\
          leafBytes (curLeaf (loadByte st b)) = leafBytes (curLeaf st) ++ [b]).
Proof.
  destruct st as [h cg cn]. intros Hs.
  assert (Hex : exists h0 g, h = h0 ++ [g] /\ cg = length h0).
  { destruct Hs as (_ & Hcg & _). cbn [leafGroups currentGroup] in Hcg.
    exists (firstn cg h), (getGroup h cg).
    split; [apply heap_last; exact Hcg | rewrite length_firstn; lia]. }
  destruct Hex as (h0 & g & -> & ->).
  unfold loadShape in Hs. cbn [leafGroups currentGroup currentNode] in Hs.
  rewrite !getGroup_last in Hs. destruct Hs as (Hh & _ & Hcn & Hz).
  rewrite !curLeaf_last. cbn [leafGroups].
  destruct (proj2 Hh (length h0)) as [Hg Hnext];
    [rewrite length_app; simpl; lia|].
  rewrite getGroup_last in Hg, Hnext.
  pose proof Hg as (Hnn & Hnl & Hnodes).
  pose proof (leafOk_get g cn Hg) as Hnode.
  set (node := arr_get zeroLeaf (lg_nodes g) cn) in *.
  pose proof (utf8CharWidth_bound b) as Hw.
  assert (Hlast : groupLeaves g
                  = map leafBytes (firstn (Z.to_nat cn) (lg_nodes g))
                    ++ [leafBytes node]).
  { rewrite (groupLeaves_split g cn) by lia. fold node.
    replace (cn + 1) with (lg_numNodes g) by lia. rewrite slice_empty.
    reflexivity. }
  exists (leaves h0 ++ map leafBytes (firstn (Z.to_nat cn) (lg_nodes g))).
  split.
  { rewrite leaves_last_group, Hlast, <- app_assoc. reflexivity. }
  unfold loadByte. cbn [leafGroups currentGroup currentNode].
  rewrite !getGroup_last. fold node.
  unfold maxBytesPerLeaf, maxNodesPerGroup, maxKeysPerNode.
  rewrite (u8_small (numBytes node + utf8CharWidth b))
    by (destruct Hnode; lia).
  destruct (Z.leb_spec 63 (numBytes node + utf8CharWidth b)) as [Hadv|Hsame].
  2:{ (* the byte goes into the current node *)
    cbn [leafGroups currentGroup currentNode]. rewrite !getGroup_last. fold node.
    destruct (leafBytes_append node b Hnode ltac:(lia)) as [Hbytes Hok].
    rewrite setGroup_snoc.
    match goal with
    | |- context [mkLoad (h0 ++ [?g']) (length h0) ?k] =>
      edestruct (load_finish h0 g g' k) as (H1 & H2 & H3);
        [exact Hh | intros j Hj; apply Hz; lia | reflexivity | reflexivity
         | cbn [lg_numNodes]; lia | lia | exact Hok |]
    end.
    split; [exact H1|]. split.
    - rewrite leaves_last_group, H2, Hbytes, <- app_assoc. reflexivity.
    - rewrite H3. exact Hbytes. }
  destruct (leafBytes_zero_append b) as [Hbytes Hok].
  destruct (Z.ltb_spec (lg_numNodes g) 64) as [Hroom|Hfullg].
  - (* a new node in the current group *)
    cbn [leafGroups currentGroup currentNode].
    rewrite !setGroup_snoc, !getGroup_last.
    cbn [lg_prev lg_next lg_numNodes lg_nodes].
    rewrite (u64_small (lg_numNodes g + 1)) by lia.
    rewrite (Hz (lg_numNodes g)) by lia.
    match goal with
    | |- context [mkLoad (h0 ++ [?g']) (length h0) ?k] =>
      edestruct (load_finish h0 g g' k) as (H1 & H2 & H3);
        [exact Hh | intros j Hj; apply Hz; lia | reflexivity | reflexivity
         | cbn [lg_numNodes]; lia | lia | exact Hok |]
    end.
    split; [exact H1|]. split.
    + rewrite leaves_last_group, H2, Hbytes.
      replace (lg_numNodes g) with (cn + 1) by lia.
      replace (Z.to_nat (cn + 1)) with (S (Z.to_nat cn)) by lia.
      rewrite (firstn_S_nth zeroLeaf) by lia.
      rewrite map_app, <- !app_assoc. reflexivity.
    + rewrite H3. exact Hbytes.
  - (* a new group *)
    cbn [leafGroups currentGroup currentNode].
    rewrite setGroup_snoc.
    pose proof (heapOk_grow h0 g (Some (length h0)) Hh) as Hh'.
    set (g1 := mkLeafGroup (lg_prev g) (Some (length (h0 ++ [g])))
                           (lg_numNodes g) (lg_nodes g)) in *.
    set (g2 := mkLeafGroup (Some (length h0)) None 1 (repeat zeroLeaf 64)) in *.
    assert (Hl1 : length (h0 ++ [g]) = length (h0 ++ [g1]))
      by (rewrite !length_app; reflexivity).
    rewrite Hl1. rewrite !getGroup_last.
    cbn [lg_prev lg_next lg_numNodes lg_nodes g2].
    change (arr_get zeroLeaf (repeat zeroLeaf 64) 0) with zeroLeaf.
    rewrite setGroup_snoc.
    match goal with
    | |- context [mkLoad ((h0 ++ [g1]) ++ [?g']) _ ?k] =>
      edestruct (load_finish (h0 ++ [g1]) g2 g' k) as (H1 & H2 & H3);
        [exact Hh'
        | intros j Hj; unfold arr_get; cbn [lg_nodes g2]; apply nth_repeat
        | reflexivity | reflexivity
        | cbn [lg_numNodes]; lia | lia | exact Hok |]
    end.
    split; [exact H1|]. split.
    + rewrite leaves_last_group, H2, Hbytes. simpl.
      rewrite leaves_last_group.
      replace (groupLeaves g1) with (groupLeaves g) by reflexivity.
      rewrite Hlast, <- !app_assoc. reflexivity.
    + rewrite H3. exact Hbytes.
Qed.

(** *** Loading a well-formed string *)

(** Bytes that are whole characters. *)
Definition validBytes (bs : list byte) : Prop :=
  exists cs, wellFormed cs /\ concat cs = bs.

Lemma validBytes_nil : validBytes [].
Proof. exists []. split; [constructor | reflexivity]. Qed.

Lemma validBytes_snoc (bs c : list byte) :
  validBytes bs -> wf_char c = true -> validBytes (bs ++ c).
Proof.
  intros (cs & Hw & <-) Hc. exists (cs ++ [c]). split.
  - apply Forall_app. split; [exact Hw | repeat constructor; exact Hc].
  - rewrite concat_app. simpl. rewrite app_nil_r. reflexivity.
Qed.

Lemma validBytes_decode (bs : list byte) :
  validBytes bs <-> valid_utf8 bs = true.
Proof.
  rewrite valid_utf8_decode. split.
  - intros (cs & Hw & <-). exists cs. apply utf8_decode_concat. exact Hw.
  - intros (cs & Hd). exists cs. apply utf8_decode_sound. exact Hd.
Qed.

Lemma loadShape_curLeaf (st : loadState) :
  loadShape st -> leafOk (curLeaf st).
Proof.
  intros (Hh & Hcg & _). unfold curLeaf. apply leafOk_get.
  apply (proj2 Hh). lia.
Qed.

(** The bytes of a character after its first one stay in the node. *)
Lemma load_continuation (tail : list byte) :
  forall (st : loadState) (fr : list (list byte)) (x : list byte),
    loadShape st ->
    leaves (leafGroups st) = fr ++ [x] ->
    Forall contByte tail ->
    (length x + length tail <= 62)%nat ->
    loadShape (fold_left loadByte tail st) /\
    leaves (leafGroups (fold_left loadByte tail st)) = fr ++ [x ++ tail].
Proof.
  induction tail as [|b tail IH]; intros st fr x Hs Hl Hc Hlen.
  - simpl. rewrite app_nil_r. auto.
  - inversion Hc as [|? ? (_ & Hw & _) Hc']; subst.
    destruct (loadByte_spec st b Hs) as (fr' & Hl' & Hs' & Hstep).
    rewrite Hl in Hl'. apply app_inj_tail in Hl'. destruct Hl' as [<- Hx].
    pose proof (length_leafBytes _ (loadShape_curLeaf st Hs)) as Hnb.
    rewrite <- Hx in *. rewrite Hw in Hstep. unfold maxBytesPerLeaf in Hstep.
    destruct (Z.leb_spec 63 (numBytes (curLeaf st) + 0)) as [Hbad|_].
    { simpl in Hlen. lia. }
    destruct Hstep as [Hl1 _]. cbn [fold_left].
    destruct (IH (loadByte st b) fr (x ++ [b]) Hs' Hl1 Hc') as [Hs2 Hl2].
    { rewrite length_app. simpl in *. lia. }
    split; [exact Hs2|]. rewrite Hl2, <- app_assoc. reflexivity.
Qed.

(** Loading the bytes of one character: the leaves stay whole characters,
    and the character is added at the end of the text. *)
Lemma load_char (st : loadState) (c : list byte) :
  loadShape st ->
  Forall validBytes (leaves (leafGroups st)) ->
  wf_char c = true ->
  loadShape (fold_left loadByte c st) /\
  Forall validBytes (leaves (leafGroups (fold_left loadByte c st))) /\
  concat (leaves (leafGroups (fold_left loadByte c st)))
  = concat (leaves (leafGroups st)) ++ c.
Proof.
  intros Hs Hv Hc.
  destruct (wf_char_shape c Hc) as (b1 & tail & -> & _ & Hw & Htail & _).
  destruct (loadByte_spec st b1 Hs) as (fr & Hl & Hs1 & Hstep).
  pose proof (length_leafBytes _ (loadShape_curLeaf st Hs)) as Hnb.
  rewrite Hl in Hv. apply Forall_app in Hv. destruct Hv as [Hfr Hcur].
  inversion Hcur as [|? ? Hcur' _]; subst.
  rewrite Hw in Hstep. unfold maxBytesPerLeaf in Hstep.
  cbn [fold_left]. cbn [length] in *.
  destruct (Z.leb_spec 63 (numBytes (curLeaf st) + Z.of_nat (S (length tail))))
    as [Hadv|Hsame]; destruct Hstep as [Hl1 _].
  - (* a new node *)
    change (fr ++ [leafBytes (curLeaf st); [b1]])
      with (fr ++ [leafBytes (curLeaf st)] ++ [[b1]]) in Hl1.
    rewrite app_assoc in Hl1.
    assert (Hlen4 : (length tail <= 3)%nat).
    { pose proof (utf8CharWidth_bound b1). lia. }
    destruct (load_continuation tail (loadByte st b1) _ [b1] Hs1 Hl1 Htail)
      as [Hs2 Hl2]; [simpl; lia|].
    split; [exact Hs2|]. rewrite Hl2. split.
    + apply Forall_app. split.
      * apply Forall_app. split; [exact Hfr | constructor; auto].
      * constructor; [|constructor].
        apply (validBytes_snoc [] (b1 :: tail) validBytes_nil Hc).
    + rewrite Hl, !concat_app. simpl. rewrite !app_nil_r, <- app_assoc.
      reflexivity.
  - (* the current node *)
    destruct (load_continuation tail (loadByte st b1) _ _ Hs1 Hl1 Htail)
      as [Hs2 Hl2]; [rewrite length_app; simpl; lia|].
    split; [exact Hs2|]. rewrite Hl2. split.
    + apply Forall_app. split; [exact Hfr|].
      constructor; [|constructor]. rewrite <- app_assoc.
      apply validBytes_snoc; assumption.
    + rewrite Hl, !concat_app. simpl. rewrite !app_nil_r, <- !app_assoc.
      reflexivity.
Qed.

Lemma load_chars (cs : list (list byte)) :
  forall st : loadState,
    loadShape st ->
    Forall validBytes (leaves (leafGroups st)) ->
    wellFormed cs ->
    loadShape (fold_left loadByte (concat cs) st) /\
    Forall validBytes (leaves (leafGroups (fold_left loadByte (concat cs) st))) /\
    concat (leaves (leafGroups (fold_left loadByte (concat cs) st)))
    = concat (leaves (leafGroups st)) ++ concat cs.
Proof.
  induction cs as [|c cs IH]; intros st Hs Hv Hw.
  - simpl. rewrite app_nil_r. auto.
  - inversion Hw as [|? ? Hc Hw']; subst.
    simpl. rewrite fold_left_app.
    destruct (load_char st c Hs Hv Hc) as (Hs1 & Hv1 & Hcat1).
    destruct (IH _ Hs1 Hv1 Hw') as (Hs2 & Hv2 & Hcat2).
    split; [exact Hs2|]. split; [exact Hv2|].
    rewrite Hcat2, Hcat1, <- app_assoc. reflexivity.
Qed.

Lemma initialLoad_shape :
  loadShape initialLoad /\ leaves (leafGroups initialLoad) = [[]].
Proof.
  split; [|reflexivity].
  unfold loadShape, initialLoad. cbn [leafGroups currentGroup currentNode].
  change (getGroup [mkLeafGroup None None 1 (repeat zeroLeaf 64)] 0)
    with (mkLeafGroup None None 1 (repeat zeroLeaf 64)).
  cbn [lg_numNodes lg_nodes].
  split; [|split; [reflexivity | split; [reflexivity|]]].
  - split; [discriminate|]. intros p Hp. simpl in Hp.
    replace p with 0%nat by lia.
    change (getGroup [mkLeafGroup None None 1 (repeat zeroLeaf 64)] 0)
      with (mkLeafGroup None None 1 (repeat zeroLeaf 64)).
    split; [|reflexivity].
    split; [cbn [lg_numNodes]; lia|].
    split; [reflexivity | apply zeroLeaves_ok].
  - intros k Hk. unfold arr_get. apply nth_repeat.
Qed.

(** *** The loop over the reads *)

Lemma ValidateEnd_accept (v : Validator) :
  ValidateEnd v = true <-> v = vAccept.
Proof. destruct v; simpl; split; congruence. Qed.

Lemma isReject_run (v : Validator) (s : list byte) :
  isReject (runValidator v s) = false -> isReject v = false.
Proof.
  destruct v; try reflexivity. rewrite runValidator_reject. discriminate.
Qed.

Lemma ValidateEnd_reject (s : list byte) :
  ValidateEnd (runValidator vReject s) = false.
Proof. rewrite runValidator_reject. reflexivity. Qed.

Lemma bulkLoad_loop_spec (r : Reader) :
  forall (v : Validator) (st : loadState),
    isReject v = false ->
    (readerFails r = false ->
     bulkLoad_loop r v st
     = if ValidateEnd (runValidator v (delivered r))
       then (Some (fold_left loadByte (delivered r) st), None)
       else (None, Some ErrInvalidUTF8)) /\
    (readerFails r = true ->
     fst (bulkLoad_loop r v st) = None /\
     exists e, snd (bulkLoad_loop r v st) = Some e).
Proof.
  induction r as [|[chunk err] r IH]; intros v st Hv.
  - split; [|discriminate]. intros _. reflexivity.
  - cbn [bulkLoad_loop delivered readerFails]. fold (readFailed err).
    destruct (readFailed err) eqn:Hf.
    { split; [discriminate|]. intros _. split; [reflexivity|].
      destruct err as [e|]; [exists e; reflexivity | discriminate]. }
    destruct chunk as [|b chunk]; [split; [reflexivity | discriminate]|].
    rewrite ValidateBytes_spec. rewrite Hv. cbn [andb negb].
    rewrite andb_true_r.
    rewrite runValidator_app.
    destruct (isReject (runValidator v (b :: chunk))) eqn:Hr.
    + assert (Hrej : runValidator v (b :: chunk) = vReject).
      { destruct (runValidator v (b :: chunk)); try discriminate. reflexivity. }
      rewrite Hrej, ValidateEnd_reject.
      split; [reflexivity|]. intros _. split; [reflexivity|].
      exists ErrInvalidUTF8. reflexivity.
    + rewrite fold_left_app. apply IH. exact Hr.
Qed.

Lemma chunksOf_spec (size : nat) :
  (0 < size)%nat ->
  forall (fuel : nat) (s : list byte),
    (length s <= fuel)%nat ->
    concat (chunksOf fuel size s) = s /\
    Forall (fun chunk => chunk <> []) (chunksOf fuel size s).
Proof.
  intros Hsize. induction fuel as [|fuel IH]; intros s Hl.
  - destruct s; [split; [reflexivity | constructor] | simpl in Hl; lia].
  - destruct s as [|b s]; [split; [reflexivity | constructor]|].
    cbn [chunksOf].
    destruct (IH (skipn size (b :: s))) as [Hcat Hne].
    { rewrite length_skipn. cbn [length] in *. lia. }
    split.
    + cbn [concat]. rewrite Hcat. apply firstn_skipn.
    + constructor; [|exact Hne].
      destruct size; [lia | discriminate].
Qed.

Lemma stringsNewReader_clean (s : list byte) :
  delivered (stringsNewReader s) = s /\ readerFails (stringsNewReader s) = false.
Proof.
  unfold stringsNewReader.
  destruct (chunksOf_spec 1024 ltac:(lia) (length s) s (le_n _)) as [Hcat Hne].
  revert Hcat Hne. generalize (chunksOf (length s) 1024 s) as chunks.
  intros chunks. revert s.
  induction chunks as [|c chunks IH]; intros s Hcat Hne.
  - simpl in *. auto.
  - inversion Hne as [|? ? Hc Hne']; subst. cbn [map delivered readerFails readFailed].
    destruct c as [|b c]; [congruence|].
    destruct (IH (concat chunks) eq_refl Hne') as [Hd Hf].
    rewrite Hd, Hf. auto.
Qed.

(** What [bulkLoadIntoLeaves] returns for the bytes of a string. *)
Lemma bulkLoadIntoLeaves_string (s : list byte) :
  bulkLoadIntoLeaves (stringsNewReader s)
  = if valid_utf8 s
    then (Some (map leafGroupAt
                  (seq 0 (length (leafGroups (fold_left loadByte s initialLoad)))),
                leafGroups (fold_left loadByte s initialLoad)), None)
    else (None, Some ErrInvalidUTF8).
Proof.
  unfold bulkLoadIntoLeaves.
  destruct (stringsNewReader_clean s) as [Hd Hf].
  destruct (bulkLoad_loop_spec (stringsNewReader s) NewValidator initialLoad
              eq_refl) as [Hclean _].
  rewrite (Hclean Hf), Hd.
  destruct (valid_utf8 s) eqn:Hv.
  - apply runValidator_valid in Hv. unfold NewValidator. rewrite Hv. reflexivity.
  - destruct (ValidateEnd (runValidator NewValidator s)) eqn:He; [|reflexivity].
    apply ValidateEnd_accept in He. apply runValidator_valid in He. congruence.
Qed.

Lemma load_string (s : list byte) :
  valid_utf8 s = true ->
  let h := leafGroups (fold_left loadByte s initialLoad) in
  heapOk h /\ Forall validBytes (leaves h) /\ heapBytes h = s.
Proof.
  intros Hv. apply validBytes_decode in Hv. destruct Hv as (cs & Hw & <-).
  destruct initialLoad_shape as [Hs Hl].
  destruct (load_chars cs initialLoad Hs) as (Hs' & Hv' & Hcat); [|exact Hw|].
  { rewrite Hl. repeat constructor. apply validBytes_nil. }
  cbv zeta. split; [apply Hs'|]. split; [exact Hv'|].
  rewrite heapBytes_leaves, Hcat, Hl. reflexivity.
Qed.

(** *** Counting characters and newlines *)

Definition keyOf (bs : list byte) : indexKey :=
  mkKey (charCount bs) (countNewlines bs).

(** The bytes from the start byte number [q] on. *)
Fixpoint dropChars (q : nat) (bs : list byte) : list byte :=
  match bs with
  | [] => []
  | b :: bs' =>
    if 0 <? utf8StartByteIndicator b then
      match q with
      | O => bs
      | S q' => dropChars q' bs'
      end
    else dropChars q bs'
  end.

Lemma charCount_cons (x : byte) (a : list byte) :
  charCount (x :: a) = utf8StartByteIndicator x + charCount a.
Proof. reflexivity. Qed.

Lemma charCount_app (a b : list byte) :
  charCount (a ++ b) = charCount a + charCount b.
Proof.
  induction a as [|x a IH]; [reflexivity|].
  cbn [app]. rewrite !charCount_cons, IH. lia.
Qed.

Lemma charCount_bound (bs : list byte) :
  0 <= charCount bs <= Z.of_nat (length bs).
Proof.
  induction bs as [|b bs IH]; [simpl; lia|].
  rewrite charCount_cons. cbn [length].
  destruct (utf8StartByteIndicator_01 b) as [E|E]; rewrite E; lia.
Qed.

Lemma countNewlines_cons (b : byte) (bs : list byte) :
  countNewlines (b :: bs)
  = (if isNewline b then 1 else 0) + countNewlines bs.
Proof.
  unfold countNewlines. cbn [filter].
  destruct (isNewline b); cbn [length]; lia.
Qed.

Lemma countNewlines_app (a b : list byte) :
  countNewlines (a ++ b) = countNewlines a + countNewlines b.
Proof.
  unfold countNewlines. rewrite filter_app, length_app. lia.
Qed.

Lemma countNewlines_bound (bs : list byte) :
  0 <= countNewlines bs <= Z.of_nat (length bs).
Proof.
  unfold countNewlines. pose proof (filter_length_le isNewline bs). lia.
Qed.

Lemma charCount_concat (ps : list (list byte)) :
  charCount (concat ps) = fold_right (fun p n => charCount p + n) 0 ps.
Proof.
  induction ps as [|p ps IH]; simpl; [reflexivity|].
  rewrite charCount_app, IH. reflexivity.
Qed.

Lemma dropChars_cons (q : nat) (x : byte) (a : list byte) :
  dropChars q (x :: a)
  = if 0 <? utf8StartByteIndicator x
    then match q with O => x :: a | S q' => dropChars q' a end
    else dropChars q a.
Proof. reflexivity. Qed.

Lemma dropChars_app_lt (q : nat) (a b : list byte) :
  Z.of_nat q < charCount a -> dropChars q (a ++ b) = dropChars q a ++ b.
Proof.
  revert q. induction a as [|x a IH]; intros q H; [simpl in H; lia|].
  rewrite charCount_cons in H. cbn [app]. rewrite !dropChars_cons.
  destruct (utf8StartByteIndicator_01 x) as [E|E]; rewrite E in *.
  - change (0 <? 0) with false. cbv iota. apply IH. lia.
  - change (0 <? 1) with true. cbv iota.
    destruct q as [|q]; [reflexivity|]. apply IH. lia.
Qed.

Lemma dropChars_app_ge (q : nat) (a b : list byte) :
  charCount a <= Z.of_nat q ->
  dropChars q (a ++ b) = dropChars (q - Z.to_nat (charCount a)) b.
Proof.
  revert q. induction a as [|x a IH]; intros q H.
  - simpl. rewrite Nat.sub_0_r. reflexivity.
  - rewrite charCount_cons in *. cbn [app]. rewrite dropChars_cons.
    pose proof (charCount_bound a) as Hb.
    destruct (utf8StartByteIndicator_01 x) as [E|E]; rewrite E in *.
    + change (0 <? 0) with false. cbv iota. rewrite IH by lia. f_equal.
    + change (0 <? 1) with true. cbv iota.
      destruct q as [|q]; [lia|]. rewrite IH by lia. f_equal. lia.
Qed.

Lemma dropChars_all (q : nat) (a : list byte) :
  charCount a <= Z.of_nat q -> dropChars q a = [].
Proof.
  intros H. rewrite <- (app_nil_r a). rewrite dropChars_app_ge by exact H.
  reflexivity.
Qed.

Lemma afterNewline_app_lt (k : nat) (a b : list byte) :
  Z.of_nat k < countNewlines a ->
  afterNewline k (a ++ b) = afterNewline k a ++ b.
Proof.
  revert k. induction a as [|x a IH]; intros k H.
  - unfold countNewlines in H. simpl in H. lia.
  - rewrite countNewlines_cons in H. simpl.
    destruct (isNewline x).
    + destruct k as [|k]; [reflexivity|]. apply IH. lia.
    + apply IH. lia.
Qed.

Lemma afterNewline_app_ge (k : nat) (a b : list byte) :
  countNewlines a <= Z.of_nat k ->
  afterNewline k (a ++ b) = afterNewline (k - Z.to_nat (countNewlines a)) b.
Proof.
  revert k. induction a as [|x a IH]; intros k H.
  - simpl. rewrite Nat.sub_0_r. reflexivity.
  - rewrite countNewlines_cons in *. pose proof (countNewlines_bound a) as Hb.
    simpl. destruct (isNewline x).
    + destruct k as [|k]; [lia|]. rewrite IH by lia. f_equal. lia.
    + rewrite IH by lia. f_equal.
Qed.

Lemma afterNewline_all (k : nat) (a : list byte) :
  countNewlines a <= Z.of_nat k -> afterNewline k a = [].
Proof.
  intros H. rewrite <- (app_nil_r a). rewrite afterNewline_app_ge by exact H.
  destruct (k - Z.to_nat (countNewlines a))%nat; reflexivity.
Qed.

(** The text as characters. *)
Lemma charCount_char (c : list byte) : charShape c -> charCount c = 1.
Proof.
  intros (b1 & tail & -> & Hs & _ & Ht & _). simpl. rewrite Hs.
  assert (charCount tail = 0); [|lia].
  clear -Ht. induction Ht as [|b t (Hb & _) _ IH]; simpl; [reflexivity | lia].
Qed.

Lemma dropChars_char (c r : list byte) (q : nat) :
  charShape c -> dropChars (S q) (c ++ r) = dropChars q r.
Proof.
  intros Hc. rewrite dropChars_app_ge by (rewrite charCount_char by exact Hc; lia).
  rewrite charCount_char by exact Hc. f_equal. lia.
Qed.

Lemma dropChars_chars (cs : list (list byte)) (q : nat) :
  wellFormed cs -> dropChars q (concat cs) = concat (skipn q cs).
Proof.
  intros Hw. revert q. induction Hw as [|c cs Hc _ IH]; intros q.
  - destruct q; reflexivity.
  - apply wf_char_shape in Hc. destruct q as [|q].
    + simpl. destruct Hc as (b1 & tail & -> & Hs & _). simpl. rewrite Hs.
      reflexivity.
    + simpl. rewrite dropChars_char by exact Hc. apply IH.
Qed.

Lemma charCount_chars (cs : list (list byte)) :
  wellFormed cs -> charCount (concat cs) = Z.of_nat (length cs).
Proof.
  induction 1 as [|c cs Hc _ IH]; [reflexivity|].
  simpl concat. rewrite charCount_app, IH.
  rewrite charCount_char by (apply wf_char_shape; exact Hc).
  simpl length. lia.
Qed.

(** *** Leaf nodes *)

Lemma leaf_key_fold (bs : list byte) :
  forall k : indexKey,
    0 <= numChars k -> 0 <= numNewlines k ->
    numChars k + Z.of_nat (length bs) < 18446744073709551616 ->
    numNewlines k + Z.of_nat (length bs) < 18446744073709551616 ->
    fold_left
      (fun key b =>
         mkKey (u64 (numChars key + utf8StartByteIndicator b))
               (if isNewline b then u64 (numNewlines key + 1)
                else numNewlines key)) bs k
    = mkKey (numChars k + charCount bs) (numNewlines k + countNewlines bs).
Proof.
  induction bs as [|b bs IH]; intros [nc nn] Hc Hn Hbc Hbn;
    cbn [numChars numNewlines length fold_left] in *.
  - unfold countNewlines. simpl. f_equal; lia.
  - pose proof (charCount_bound bs) as Hcb.
    pose proof (countNewlines_bound bs) as Hnb.
    assert (Hi : 0 <= utf8StartByteIndicator b <= 1)
      by (destruct (utf8StartByteIndicator_01 b) as [E|E]; rewrite E; lia).
    rewrite IH; cbn [numChars numNewlines].
    + rewrite charCount_cons, countNewlines_cons.
      rewrite u64_small by lia.
      destruct (isNewline b); [rewrite u64_small by lia|]; f_equal; lia.
    + rewrite u64_small by lia. lia.
    + destruct (isNewline b); [rewrite u64_small by lia|]; lia.
    + rewrite u64_small by lia. lia.
    + destruct (isNewline b); [rewrite u64_small by lia|]; lia.
Qed.

Lemma leaf_key_spec (l : leafNode) :
  leafOk l -> leaf_key l = keyOf (leafBytes l).
Proof.
  intros Hl. pose proof (length_leafBytes l Hl) as Hlen. destruct Hl as [Hn _].
  unfold leaf_key. rewrite leaf_key_fold; cbn [zeroKey numChars numNewlines]; try lia.
  reflexivity.
Qed.

Lemma byteOffsetForPosition_loop_spec (bs : list byte) :
  forall i n q : Z,
    0 <= n <= q -> q < 18446744073709551616 ->
    let r := byteOffsetForPosition_loop bs i n q (i + Z.of_nat (length bs)) in
    i <= r <= i + Z.of_nat (length bs) /\
    skipn (Z.to_nat (r - i)) bs = dropChars (Z.to_nat (q - n)) bs /\
    (r < i + Z.of_nat (length bs) <-> q - n < charCount bs).
Proof.
  induction bs as [|b bs IH]; intros i n q Hn Hq; cbn zeta.
  - cbn [byteOffsetForPosition_loop length dropChars]. rewrite skipn_nil.
    change (charCount []) with 0. split; [lia|]. split; [reflexivity|lia].
  - cbn [byteOffsetForPosition_loop].
    rewrite charCount_cons, dropChars_cons.
    pose proof (charCount_bound bs) as Hcb.
    replace (i + Z.of_nat (length (b :: bs)))
      with ((i + 1) + Z.of_nat (length bs)) by (cbn [length]; lia).
    destruct (utf8StartByteIndicator_01 b) as [E|E]; rewrite E.
    + change (0 <? 0) with false. cbn [andb]. cbv iota.
      rewrite Z.add_0_r, u64_small by lia.
      specialize (IH (i + 1) n q Hn Hq). cbn zeta in IH.
      destruct IH as (Hr & Hs & Hlt).
      split; [lia|]. split; [|rewrite Hlt; lia].
      replace (Z.to_nat (_ - i))
        with (S (Z.to_nat (byteOffsetForPosition_loop bs (i + 1) n q
                (i + 1 + Z.of_nat (length bs)) - (i + 1)))) by lia.
      exact Hs.
    + change (0 <? 1) with true. cbn [andb]. cbv iota.
      destruct (Z.eqb_spec n q) as [Enq|Enq].
      * subst q. rewrite !Z.sub_diag. cbn [Z.to_nat skipn].
        split; [lia|]. split; [reflexivity|lia].
      * rewrite u64_small by lia.
        assert (Hn' : 0 <= n + 1 <= q) by lia.
        specialize (IH (i + 1) (n + 1) q Hn' Hq). cbn zeta in IH.
        destruct IH as (Hr & Hs & Hlt).
        split; [lia|]. split; [|rewrite Hlt; lia].
        replace (Z.to_nat (_ - i))
          with (S (Z.to_nat (byteOffsetForPosition_loop bs (i + 1) (n + 1) q
                  (i + 1 + Z.of_nat (length bs)) - (i + 1)))) by lia.
        replace (Z.to_nat (q - n)) with (S (Z.to_nat (q - (n + 1)))) by lia.
        exact Hs.
Qed.

Lemma byteOffsetForPosition_spec (l : leafNode) (q : Z) :
  leafOk l -> 0 <= q < 18446744073709551616 ->
  0 <= byteOffsetForPosition l q <= numBytes l /\
  skipn (Z.to_nat (byteOffsetForPosition l q)) (leafBytes l)
  = dropChars (Z.to_nat q) (leafBytes l) /\
  (byteOffsetForPosition l q < numBytes l <-> q < charCount (leafBytes l)).
Proof.
  intros Hl Hq. pose proof (length_leafBytes l Hl) as Hlen.
  pose proof (byteOffsetForPosition_loop_spec (leafBytes l) 0 0 q) as H.
  cbn zeta in H. rewrite Hlen, Z.add_0_l, !Z.sub_0_r in H.
  apply H; lia.
Qed.

Lemma byteOffsetAfterNewline_loop_spec (bs : list byte) :
  forall i n q : Z,
    0 <= i -> i + Z.of_nat (length bs) < 18446744073709551616 ->
    0 <= n <= q -> q < 18446744073709551616 ->
    let r := byteOffsetAfterNewline_loop bs i n q (i + Z.of_nat (length bs)) in
    i <= r <= i + Z.of_nat (length bs) /\
    skipn (Z.to_nat (r - i)) bs = afterNewline (Z.to_nat (q - n)) bs.
Proof.
  induction bs as [|b bs IH]; intros i n q Hi Hlen Hn Hq; cbn zeta.
  - cbn [byteOffsetAfterNewline_loop length afterNewline]. rewrite skipn_nil.
    split; [lia|reflexivity].
  - cbn [byteOffsetAfterNewline_loop afterNewline].
    cbn [length] in Hlen.
    replace (i + Z.of_nat (length (b :: bs)))
      with ((i + 1) + Z.of_nat (length bs)) by (cbn [length]; lia).
    destruct (isNewline b).
    + destruct (Z.eqb_spec n q) as [Enq|Enq].
      * subst q. rewrite !Z.sub_diag. cbn [Z.to_nat].
        rewrite u64_small by lia. split; [lia|].
        replace (Z.to_nat (i + 1 - i)) with 1%nat by lia. reflexivity.
      * rewrite u64_small by lia.
        assert (Hn' : 0 <= n + 1 <= q) by lia.
        specialize (IH (i + 1) (n + 1) q ltac:(lia) ltac:(lia) Hn' Hq).
        cbn zeta in IH. destruct IH as (Hr & Hs).
        split; [lia|].
        replace (Z.to_nat (_ - i))
          with (S (Z.to_nat (byteOffsetAfterNewline_loop bs (i + 1) (n + 1) q
                  (i + 1 + Z.of_nat (length bs)) - (i + 1)))) by lia.
        replace (Z.to_nat (q - n)) with (S (Z.to_nat (q - (n + 1)))) by lia.
        exact Hs.
    + specialize (IH (i + 1) n q ltac:(lia) ltac:(lia) Hn Hq).
      cbn zeta in IH. destruct IH as (Hr & Hs).
      split; [lia|].
      replace (Z.to_nat (_ - i))
        with (S (Z.to_nat (byteOffsetAfterNewline_loop bs (i + 1) n q
                (i + 1 + Z.of_nat (length bs)) - (i + 1)))) by lia.
      exact Hs.
Qed.

Lemma byteOffsetAfterNewline_spec (l : leafNode) (q : Z) :
  leafOk l -> 0 <= q < 18446744073709551616 ->
  0 <= byteOffsetAfterNewline l q <= numBytes l /\
  skipn (Z.to_nat (byteOffsetAfterNewline l q)) (leafBytes l)
  = afterNewline (Z.to_nat q) (leafBytes l).
Proof.
  intros Hl Hq. pose proof (length_leafBytes l Hl) as Hlen.
  destruct Hl as [Hn _].
  pose proof (byteOffsetAfterNewline_loop_spec (leafBytes l) 0 0 q) as H.
  cbn zeta in H. rewrite Hlen, Z.add_0_l, !Z.sub_0_r in H.
  apply H; lia.
Qed.
Lemma skipn_nth_cons {A : Type} (d : A) (a : list A) (k : nat) :
  (k < length a)%nat -> skipn k a = nth k a d :: skipn (S k) a.
Proof.
  revert k. induction a as [|x a IH]; intros k H; [simpl in H; lia|].
  destruct k as [|k]; [reflexivity|].
  cbn [skipn nth]. apply IH. simpl in H. lia.
Qed.

Lemma skipn_hd_nth {A : Type} (d x : A) (a r : list A) (k : nat) :
  skipn k a = x :: r -> nth k a d = x.
Proof.
  revert k. induction a as [|y a IH]; intros k H.
  - rewrite skipn_nil in H. discriminate.
  - destruct k as [|k]; [inversion H; reflexivity|].
    cbn [skipn nth] in *. apply IH. exact H.
Qed.

Lemma shiftBytes_spec (cnt : nat) :
  forall (i w : Z) (tb : list byte),
    0 <= i -> 1 <= w ->
    i + Z.of_nat cnt + w <= Z.of_nat (length tb) ->
    Z.of_nat (length tb) < 18446744073709551616 ->
    shiftBytes cnt i w tb
    = firstn (Z.to_nat i) tb
      ++ firstn cnt (skipn (Z.to_nat (i + w)) tb)
      ++ skipn (Z.to_nat i + cnt) tb.
Proof.
  induction cnt as [|cnt IH]; intros i w tb Hi Hw Hlen Hmax.
  - cbn [shiftBytes firstn app]. rewrite Nat.add_0_r, firstn_skipn. reflexivity.
  - cbn [shiftBytes]. rewrite !u64_small by lia.
    set (v := arr_get x00 tb (i + w)).
    rewrite IH; rewrite ?length_arr_set; try lia.
    unfold arr_set.
    rewrite (skipn_set_nth (Z.to_nat i) (Z.to_nat (i + 1 + w))) by lia.
    rewrite (skipn_set_nth (Z.to_nat i) (Z.to_nat (i + 1) + cnt)) by lia.
    rewrite (set_nth_split (Z.to_nat i)) by lia.
    replace (Z.to_nat (i + 1)) with (S (Z.to_nat i)) by lia.
    rewrite firstn_app, firstn_firstn, length_firstn.
    replace (Nat.min (S (Z.to_nat i)) (Z.to_nat i)) with (Z.to_nat i) by lia.
    replace (S (Z.to_nat i) - Nat.min (Z.to_nat i) (length tb))%nat
      with 1%nat by lia.
    cbn [firstn]. rewrite <- app_assoc. f_equal.
    rewrite (skipn_nth_cons x00 tb (Z.to_nat (i + w))) by lia.
    cbn [firstn app]. unfold v, arr_get. f_equal.
    replace (Z.to_nat (i + 1 + w)) with (S (Z.to_nat (i + w))) by lia.
    replace (S (Z.to_nat i) + cnt)%nat with (Z.to_nat i + S cnt)%nat by lia.
    reflexivity.
Qed.

Lemma leaf_delete_bytes (l : leafNode) (q : Z) :
  leafOk l ->
  let off := byteOffsetForPosition l q in
  let w := utf8CharWidth (arr_get x00 (textBytes l) off) in
  0 <= off < numBytes l -> 1 <= w -> off + w <= numBytes l ->
  exists l',
    leaf_deleteAtPosition l q
    = (l', true, isNewline (arr_get x00 (textBytes l) off)) /\
    leafOk l' /\
    leafBytes l'
    = firstn (Z.to_nat off) (leafBytes l)
      ++ skipn (Z.to_nat (off + w)) (leafBytes l).
Proof.
  intros [Hnb Hlen] off w Hoff Hw Hfit.
  unfold leaf_deleteAtPosition. fold off. fold w.
  destruct (Z.ltb_spec off (numBytes l)) as [_|]; [|lia].
  rewrite !u8_small by lia.
  eexists. split; [reflexivity|].
  rewrite shiftBytes_spec by lia.
  split.
  - split; cbn [numBytes textBytes]; [lia|].
    rewrite !length_app, !length_firstn, !length_skipn. lia.
  - unfold leafBytes. cbn [numBytes textBytes]. rewrite !slice_0.
    rewrite firstn_firstn, skipn_firstn_comm.
    replace (Nat.min (Z.to_nat off) (Z.to_nat (numBytes l)))
      with (Z.to_nat off) by lia.
    rewrite app_assoc, firstn_app.
    rewrite length_app, !length_firstn, length_skipn.
    rewrite (firstn_all2 (n := Z.to_nat (numBytes l - w))) by
      (rewrite length_app, !length_firstn, length_skipn; lia).
    replace (Z.to_nat (numBytes l - w)
             - (Nat.min (Z.to_nat off) (length (textBytes l))
                + Nat.min (Z.to_nat (numBytes l - w - off))
                    (length (textBytes l) - Z.to_nat (off + w))))%nat
      with 0%nat by lia.
    cbn [firstn]. rewrite app_nil_r. f_equal. f_equal. lia.
Qed.

(** The key of a text without one of its characters. *)
Definition keyLess (k : indexKey) (wasNewline : bool) : indexKey :=
  mkKey (numChars k - 1) (numNewlines k - (if wasNewline then 1 else 0)).

Lemma countNewlines_tail (tail : list byte) :
  Forall contByte tail -> countNewlines tail = 0.
Proof.
  induction 1 as [|b t (_ & _ & Hb) _ IH]; [reflexivity|].
  rewrite countNewlines_cons, Hb, IH. reflexivity.
Qed.

Lemma wellFormed_app (a b : list (list byte)) :
  wellFormed (a ++ b) <-> wellFormed a /\ wellFormed b.
Proof. apply Forall_app. Qed.

Lemma deleteChar_in (q : Z) (cs : list (list byte)) :
  0 <= q < Z.of_nat (length cs) ->
  deleteChar q cs = firstn (Z.to_nat q) cs ++ skipn (S (Z.to_nat q)) cs.
Proof.
  intros H. unfold deleteChar.
  destruct (Z.leb_spec 0 q); [|lia].
  destruct (Z.ltb_spec q (Z.of_nat (length cs))); [reflexivity|lia].
Qed.

Lemma deleteChar_out (q : Z) (cs : list (list byte)) :
  Z.of_nat (length cs) <= q -> deleteChar q cs = cs.
Proof.
  intros H. unfold deleteChar.
  destruct (Z.ltb_spec q (Z.of_nat (length cs))); [lia|].
  rewrite andb_false_r. reflexivity.
Qed.

Lemma deleteChar_wellFormed (q : Z) (cs : list (list byte)) :
  wellFormed cs -> wellFormed (deleteChar q cs).
Proof.
  intros H. unfold deleteChar.
  destruct ((0 <=? q) && (q <? Z.of_nat (length cs))); [|exact H].
  apply wellFormed_app. split.
  - rewrite <- (firstn_skipn (Z.to_nat q) cs) in H.
    apply wellFormed_app in H. apply H.
  - rewrite <- (firstn_skipn (S (Z.to_nat q)) cs) in H.
    apply wellFormed_app in H. apply H.
Qed.

Lemma deleteChar_length (q : Z) (cs : list (list byte)) :
  0 <= q < Z.of_nat (length cs) ->
  Z.of_nat (length (deleteChar q cs)) = Z.of_nat (length cs) - 1.
Proof.
  intros H. rewrite deleteChar_in by exact H.
  rewrite length_app, length_firstn, length_skipn. lia.
Qed.
Lemma nth_firstn_lt {A : Type} (d : A) (a : list A) (k n : nat) :
  (k < n)%nat -> nth k (firstn n a) d = nth k a d.
Proof.
  revert k n. induction a as [|x a IH]; intros k n H.
  - rewrite firstn_nil. reflexivity.
  - destruct n as [|n]; [lia|]. destruct k as [|k]; [reflexivity|].
    cbn [firstn nth]. apply IH. lia.
Qed.

Lemma keyOf_app (a b : list byte) :
  keyOf (a ++ b)
  = mkKey (numChars (keyOf a) + numChars (keyOf b))
          (numNewlines (keyOf a) + numNewlines (keyOf b)).
Proof.
  unfold keyOf. cbn [numChars numNewlines].
  rewrite charCount_app, countNewlines_app. reflexivity.
Qed.

Lemma keyOf_char (c : list byte) :
  charShape c ->
  keyOf c = mkKey 1 (if isNewline (hd x00 c) then 1 else 0).
Proof.
  intros Hc. unfold keyOf. rewrite charCount_char by exact Hc.
  destruct Hc as (b1 & tail & -> & _ & _ & Ht & _).
  rewrite countNewlines_cons, countNewlines_tail by exact Ht.
  cbn [hd]. rewrite Z.add_0_r. reflexivity.
Qed.

(** A character of a text: where it starts, and the text without it. *)
Lemma char_at (cs : list (list byte)) (q : nat) :
  wellFormed cs -> (q < length cs)%nat ->
  exists c,
    wf_char c = true /\
    cs = firstn q cs ++ c :: skipn (S q) cs /\
    concat cs = concat (firstn q cs) ++ c ++ concat (skipn (S q) cs) /\
    dropChars q (concat cs) = c ++ concat (skipn (S q) cs).
Proof.
  intros Hw Hq. exists (nth q cs []).
  assert (Hsplit : cs = firstn q cs ++ nth q cs [] :: skipn (S q) cs).
  { rewrite <- (skipn_nth_cons [] cs q Hq). symmetry. apply firstn_skipn. }
  split; [|split; [exact Hsplit|split]].
  - unfold wellFormed in Hw. rewrite Forall_forall in Hw.
    apply Hw. apply nth_In. exact Hq.
  - rewrite Hsplit at 1. rewrite concat_app. reflexivity.
  - rewrite dropChars_chars by exact Hw.
    rewrite (skipn_nth_cons [] cs q Hq). reflexivity.
Qed.

Lemma leaf_delete_spec (l : leafNode) (q : Z) (cs : list (list byte)) :
  leafOk l -> wellFormed cs -> leafBytes l = concat cs ->
  0 <= q < 18446744073709551616 ->
  if q <? Z.of_nat (length cs) then
    exists l' nl,
      leaf_deleteAtPosition l q = (l', true, nl) /\
      leafOk l' /\
      leafBytes l' = concat (deleteChar q cs) /\
      keyOf (leafBytes l') = keyLess (keyOf (leafBytes l)) nl
  else leaf_deleteAtPosition l q = (l, false, false).
Proof.
  intros Hl Hw Hbs Hq.
  pose proof (length_leafBytes l Hl) as Hlen.
  destruct (byteOffsetForPosition_spec l q Hl Hq) as (Hoff & Hskip & Hlt).
  rewrite Hbs, charCount_chars in Hlt by exact Hw.
  destruct (Z.ltb_spec q (Z.of_nat (length cs))) as [Hin|Hout].
  - destruct (char_at cs (Z.to_nat q) Hw ltac:(lia)) as (c & Hc & Hcs & Hcat & Hdrop).
    rewrite Hbs, Hdrop in Hskip.
    pose proof (wf_char_shape c Hc) as Hsh.
    destruct Hsh as (b1 & tail & Ec & Hs1 & Hw1 & Htail & Hnl).
    set (off := byteOffsetForPosition l q) in *.
    assert (Hc1 : (1 <= length c)%nat) by (rewrite Ec; cbn [length]; lia).
    rewrite Hbs in Hlen.
    assert (Eoff : Z.to_nat off = length (concat (firstn (Z.to_nat q) cs))).
    { pose proof (f_equal (@length byte) Hskip) as E1.
      pose proof (f_equal (@length byte) Hcat) as E2.
      rewrite length_skipn in E1. rewrite !length_app in *. lia. }
    assert (Eb : arr_get x00 (textBytes l) off = b1).
    { unfold arr_get.
      rewrite <- (nth_firstn_lt x00 (textBytes l) (Z.to_nat off)
                    (Z.to_nat (numBytes l))) by lia.
      rewrite <- slice_0. fold (leafBytes l). rewrite Hbs.
      apply (skipn_hd_nth x00 b1 _ (tail ++ concat (skipn (S (Z.to_nat q)) cs))).
      rewrite Hskip, Ec. reflexivity. }
    assert (Ew : utf8CharWidth (arr_get x00 (textBytes l) off)
                 = Z.of_nat (length c)) by (rewrite Eb; exact Hw1).
    assert (Hfit : off + Z.of_nat (length c) <= numBytes l).
    { pose proof (f_equal (@length byte) Hcat) as E2.
      rewrite !length_app in E2. lia. }
    destruct (leaf_delete_bytes l q Hl) as (l' & Hdel & Hl' & Hb').
    + fold off. lia.
    + fold off. rewrite Ew, Ec. cbn [length]. lia.
    + fold off. rewrite Ew. exact Hfit.
    + fold off in Hdel, Hb'. rewrite Ew in Hb'.
      exists l', (isNewline b1). rewrite Eb in Hdel.
      split; [exact Hdel|]. split; [exact Hl'|].
      assert (Hnew : leafBytes l' = concat (deleteChar q cs)).
      { rewrite Hb', !Hbs.
        rewrite deleteChar_in, concat_app by lia.
        rewrite Hcat.
        rewrite firstn_app, Eoff, Nat.sub_diag, firstn_all. cbn [firstn].
        rewrite app_nil_r. f_equal.
        replace (Z.to_nat (off + Z.of_nat (length c)))
          with (length c + length (concat (firstn (Z.to_nat q) cs)))%nat by lia.
        rewrite <- skipn_skipn, skipn_app, skipn_all, Nat.sub_diag.
        cbn [skipn app].
        rewrite skipn_app, skipn_all, Nat.sub_diag. reflexivity. }
      split; [exact Hnew|].
      rewrite Hnew, Hbs, Hcat, deleteChar_in, concat_app by lia.
      rewrite !keyOf_app, (keyOf_char c) by (apply wf_char_shape; exact Hc).
      rewrite Ec. cbn [hd]. unfold keyLess. cbn [numChars numNewlines].
      f_equal; lia.
  - unfold leaf_deleteAtPosition.
    destruct (Z.ltb_spec (byteOffsetForPosition l q) (numBytes l)); [lia|].
    reflexivity.
Qed.
(** *** Searching the keys of an inner node

    [pieces] are the texts of the children of a node, and the keys of the
    node are the keys of these texts. *)
Lemma keyOf_nil : keyOf [] = zeroKey.
Proof. reflexivity. Qed.

Lemma pieces_split (pieces : list (list byte)) (i : nat) :
  (i < length pieces)%nat ->
  concat pieces
  = concat (firstn i pieces) ++ nth i pieces [] ++ concat (skipn (S i) pieces).
Proof.
  intros H. rewrite <- (firstn_skipn i pieces) at 1.
  rewrite (skipn_nth_cons [] pieces i H), concat_app. reflexivity.
Qed.

Lemma pieces_prefix_S (pieces : list (list byte)) (i : nat) :
  (i < length pieces)%nat ->
  concat (firstn (S i) pieces) = concat (firstn i pieces) ++ nth i pieces [].
Proof.
  intros H. rewrite (firstn_S_nth [] pieces i H), concat_app.
  cbn [concat]. rewrite app_nil_r. reflexivity.
Qed.

Lemma length_prefix_le (pieces : list (list byte)) (i : nat) :
  (length (concat (firstn i pieces)) <= length (concat pieces))%nat.
Proof.
  rewrite <- (firstn_skipn i pieces) at 2. rewrite concat_app, length_app. lia.
Qed.

Section Locate.
Variables (ks : list indexKey) (nk : Z) (pieces : list (list byte)).
Hypothesis Hkeys : slice ks 0 nk = map keyOf pieces.
Hypothesis Hnk : nk = Z.of_nat (length pieces).
Hypothesis Hpos : 1 <= nk <= 64.
Hypothesis Hsmall : Z.of_nat (length (concat pieces)) < 18446744073709551616.

Lemma key_at (i : nat) :
  (i < length pieces)%nat ->
  arr_get zeroKey ks (Z.of_nat i) = keyOf (nth i pieces []).
Proof.
  intros H. unfold arr_get. rewrite Nat2Z.id.
  rewrite <- (nth_firstn_lt zeroKey ks i (Z.to_nat nk)) by lia.
  rewrite <- slice_0, Hkeys, <- keyOf_nil. apply map_nth.
Qed.

Lemma locatePosition_loop_spec (q : Z) :
  0 <= q < 18446744073709551616 ->
  forall (cnt i : nat),
    Z.of_nat i + Z.of_nat cnt = nk ->
    charCount (concat (firstn i pieces)) <= q ->
    exists (idx : nat) (q' : Z),
      locatePosition_loop cnt (Z.of_nat i) (charCount (concat (firstn i pieces)))
                          ks nk q = (Z.of_nat idx, q') /\
      (idx < length pieces)%nat /\
      ((charCount (concat (firstn idx pieces)) <= q /\
        q' = q - charCount (concat (firstn idx pieces)) /\
        q' < charCount (nth idx pieces [])) \/
       (charCount (concat pieces) <= q /\
        S idx = length pieces /\ q' = charCount (concat pieces))).
Proof.
  intros Hq. induction cnt as [|cnt IH]; intros i Hi Hc.
  - cbn [locatePosition_loop]. rewrite u64_small by lia.
    assert (Ei : i = length pieces) by lia.
    rewrite Ei, firstn_all in *.
    exists (length pieces - 1)%nat, (charCount (concat pieces)).
    split; [f_equal; lia|]. split; [lia|]. right. split; [exact Hc|].
    split; [lia|reflexivity].
  - cbn [locatePosition_loop]. rewrite key_at by lia.
    cbn [keyOf numChars].
    pose proof (pieces_prefix_S pieces i ltac:(lia)) as HS.
    pose proof (f_equal charCount HS) as HSc. rewrite charCount_app in HSc.
    pose proof (charCount_bound (concat (firstn (S i) pieces))) as Hb.
    pose proof (length_prefix_le pieces (S i)) as Hle.
    pose proof (charCount_bound (concat (firstn i pieces))) as Hb0.
    rewrite <- HSc. rewrite (u64_small (charCount _)) by lia.
    destruct (Z.ltb_spec q (charCount (concat (firstn (S i) pieces)))) as [Hlt|Hge].
    + exists i, (q - charCount (concat (firstn i pieces))).
      rewrite u64_small by lia.
      split; [reflexivity|]. split; [lia|]. left.
      split; [exact Hc|]. split; [reflexivity|lia].
    + rewrite u64_small by lia.
      replace (Z.of_nat i + 1) with (Z.of_nat (S i)) by lia.
      apply IH; [lia|exact Hge].
Qed.

Lemma locatePosition_spec (c : nodeGroup) (q : Z) :
  0 <= q < 18446744073709551616 ->
  exists (idx : nat) (q' : Z),
    locatePosition (mkInnerNode c nk ks) q = (Z.of_nat idx, q') /\
    (idx < length pieces)%nat /\
    0 <= q' < 18446744073709551616 /\
    ((charCount (concat (firstn idx pieces)) <= q /\
      q' = q - charCount (concat (firstn idx pieces)) /\
      q' < charCount (nth idx pieces [])) \/
     (charCount (concat pieces) <= q /\
      S idx = length pieces /\ q' = charCount (concat pieces))).
Proof.
  intros Hq. unfold locatePosition. cbn [numKeys keys].
  destruct (locatePosition_loop_spec q Hq (Z.to_nat nk) 0)
    as (idx & q' & E & Hidx & Hcase); [lia|cbn; lia|].
  exists idx, q'. split; [exact E|]. split; [exact Hidx|].
  pose proof (charCount_bound (concat (firstn idx pieces))) as Hb.
  pose proof (charCount_bound (concat pieces)) as Hb'.
  split; [|exact Hcase].
  destruct Hcase as [(H1 & H2 & H3)|(H1 & H2 & H3)]; lia.
Qed.

Lemma locateNewline_loop_spec (q : Z) :
  0 <= q < 18446744073709551616 ->
  forall (cnt i : nat),
    Z.of_nat i + Z.of_nat cnt = nk - 1 ->
    countNewlines (concat (firstn i pieces)) <= q ->
    exists (idx : nat) (q' : Z),
      locateNewline_loop cnt (Z.of_nat i)
        (countNewlines (concat (firstn i pieces))) ks nk q
      = (Z.of_nat idx, q') /\
      (idx < length pieces)%nat /\
      countNewlines (concat (firstn idx pieces)) <= q /\
      q' = q - countNewlines (concat (firstn idx pieces)) /\
      (q' < countNewlines (nth idx pieces []) \/ S idx = length pieces).
Proof.
  intros Hq. induction cnt as [|cnt IH]; intros i Hi Hc.
  - cbn [locateNewline_loop].
    pose proof (countNewlines_bound (concat (firstn i pieces))) as Hb0.
    rewrite !u64_small by lia.
    exists i, (q - countNewlines (concat (firstn i pieces))).
    split; [f_equal; lia|]. split; [lia|]. split; [exact Hc|].
    split; [reflexivity|]. right. lia.
  - cbn [locateNewline_loop]. rewrite key_at by lia.
    cbn [keyOf numNewlines].
    pose proof (pieces_prefix_S pieces i ltac:(lia)) as HS.
    pose proof (f_equal countNewlines HS) as HSc.
    rewrite countNewlines_app in HSc.
    pose proof (countNewlines_bound (concat (firstn (S i) pieces))) as Hb.
    pose proof (length_prefix_le pieces (S i)) as Hle.
    pose proof (countNewlines_bound (concat (firstn i pieces))) as Hb0.
    rewrite <- HSc. rewrite (u64_small (countNewlines _)) by lia.
    destruct (Z.ltb_spec q (countNewlines (concat (firstn (S i) pieces))))
      as [Hlt|Hge].
    + exists i, (q - countNewlines (concat (firstn i pieces))).
      rewrite u64_small by lia.
      split; [reflexivity|]. split; [lia|]. split; [exact Hc|].
      split; [reflexivity|]. left. lia.
    + rewrite u64_small by lia.
      replace (Z.of_nat i + 1) with (Z.of_nat (S i)) by lia.
      apply IH; [lia|exact Hge].
Qed.

Lemma locateNewline_spec (c : nodeGroup) (q : Z) :
  0 <= q < 18446744073709551616 ->
  exists (idx : nat) (q' : Z),
    locateNewline (mkInnerNode c nk ks) q = (Z.of_nat idx, q') /\
    (idx < length pieces)%nat /\
    0 <= q' < 18446744073709551616 /\
    countNewlines (concat (firstn idx pieces)) <= q /\
    q' = q - countNewlines (concat (firstn idx pieces)) /\
    (q' < countNewlines (nth idx pieces []) \/ S idx = length pieces).
Proof.
  intros Hq. unfold locateNewline. cbn [numKeys keys].
  rewrite u64_small by lia.
  destruct (locateNewline_loop_spec q Hq (Z.to_nat (nk - 1)) 0)
    as (idx & q' & E & Hidx & H1 & H2 & H3); [lia|cbn; lia|].
  exists idx, q'. split; [exact E|]. split; [exact Hidx|].
  pose proof (countNewlines_bound (concat (firstn idx pieces))) as Hb.
  split; [lia|]. split; [exact H1|]. split; [exact H2|exact H3].
Qed.

(** What the search means for the text. *)
Lemma located_dropChars (q : Z) (idx : nat) (q' : Z) :
  0 <= q ->
  (idx < length pieces)%nat ->
  ((charCount (concat (firstn idx pieces)) <= q /\
    q' = q - charCount (concat (firstn idx pieces)) /\
    q' < charCount (nth idx pieces [])) \/
   (charCount (concat pieces) <= q /\
    S idx = length pieces /\ q' = charCount (concat pieces))) ->
  dropChars (Z.to_nat q) (concat pieces)
  = dropChars (Z.to_nat q') (nth idx pieces [])
    ++ concat (skipn (S idx) pieces).
Proof.
  intros Hq Hidx [(H1 & H2 & H3)|(H1 & H2 & H3)].
  - pose proof (charCount_bound (concat (firstn idx pieces))) as Hb.
    rewrite (pieces_split pieces idx Hidx).
    rewrite dropChars_app_ge by lia.
    rewrite dropChars_app_lt by lia.
    f_equal. f_equal. lia.
  - rewrite dropChars_all by lia.
    rewrite H2, skipn_all. cbn [concat]. rewrite app_nil_r.
    rewrite dropChars_all; [reflexivity|].
    rewrite (pieces_split pieces idx Hidx), !charCount_app in H3.
    pose proof (charCount_bound (concat (firstn idx pieces))) as Hb.
    pose proof (charCount_bound (concat (skipn (S idx) pieces))) as Hb'.
    pose proof (charCount_bound (nth idx pieces [])) as Hb2.
    lia.
Qed.

Lemma located_afterNewline (q : Z) (idx : nat) (q' : Z) :
  0 <= q ->
  (idx < length pieces)%nat ->
  countNewlines (concat (firstn idx pieces)) <= q ->
  q' = q - countNewlines (concat (firstn idx pieces)) ->
  (q' < countNewlines (nth idx pieces []) \/ S idx = length pieces) ->
  afterNewline (Z.to_nat q) (concat pieces)
  = afterNewline (Z.to_nat q') (nth idx pieces [])
    ++ concat (skipn (S idx) pieces).
Proof.
  intros Hq Hidx H1 H2 H3.
  pose proof (countNewlines_bound (concat (firstn idx pieces))) as Hb.
  rewrite (pieces_split pieces idx Hidx).
  rewrite afterNewline_app_ge by lia.
  replace (Z.to_nat q - Z.to_nat (countNewlines (concat (firstn idx pieces))))%nat
    with (Z.to_nat q') by lia.
  destruct H3 as [H3|H3].
  - apply afterNewline_app_lt. lia.
  - rewrite H3, skipn_all. cbn [concat]. rewrite !app_nil_r. reflexivity.
Qed.

End Locate.

(** *** The text of a range of leaf groups *)

Definition rangeBytes (h : leafHeap) (lo hi : nat) : list byte :=
  concat (map (fun p => groupBytes (getGroup h p)) (seq lo (hi - lo))).

Lemma rangeBytes_nil (h : leafHeap) (lo : nat) : rangeBytes h lo lo = [].
Proof. unfold rangeBytes. rewrite Nat.sub_diag. reflexivity. Qed.

Lemma rangeBytes_single (h : leafHeap) (p : nat) :
  rangeBytes h p (S p) = groupBytes (getGroup h p).
Proof.
  unfold rangeBytes. replace (S p - p)%nat with 1%nat by lia.
  cbn [seq map concat]. apply app_nil_r.
Qed.

Lemma rangeBytes_split (h : leafHeap) (lo mid hi : nat) :
  (lo <= mid <= hi)%nat ->
  rangeBytes h lo hi = rangeBytes h lo mid ++ rangeBytes h mid hi.
Proof.
  intros H. unfold rangeBytes.
  replace (hi - lo)%nat with ((mid - lo) + (hi - mid))%nat by lia.
  rewrite seq_app, map_app, concat_app.
  replace (lo + (mid - lo))%nat with mid by lia. reflexivity.
Qed.

Lemma rangeBytes_frame (h h' : leafHeap) (lo hi : nat) :
  (forall p, (lo <= p < hi)%nat -> getGroup h' p = getGroup h p) ->
  rangeBytes h' lo hi = rangeBytes h lo hi.
Proof.
  intros H. unfold rangeBytes. f_equal. apply map_ext_in.
  intros p Hp. apply in_seq in Hp. rewrite H by lia. reflexivity.
Qed.

Lemma heapBytes_range (h : leafHeap) (lo : nat) :
  heapBytes (skipn lo h) = rangeBytes h lo (length h).
Proof.
  remember (length h - lo)%nat as k eqn:Hk. revert lo Hk.
  induction k as [|k IH]; intros lo Hk.
  - rewrite heapBytes_skipn_all by lia. unfold rangeBytes.
    replace (length h - lo)%nat with 0%nat by lia. reflexivity.
  - rewrite heapBytes_skipn by lia.
    rewrite (rangeBytes_split h lo (S lo)) by lia.
    rewrite rangeBytes_single, IH by lia. reflexivity.
Qed.

Lemma rangeBytes_all (h : leafHeap) : rangeBytes h 0 (length h) = heapBytes h.
Proof. rewrite <- heapBytes_range. reflexivity. Qed.

Lemma rangeBytes_length (h : leafHeap) (lo hi : nat) :
  (lo <= hi <= length h)%nat ->
  (length (rangeBytes h lo hi) <= length (heapBytes h))%nat.
Proof.
  intros H. rewrite <- rangeBytes_all.
  rewrite (rangeBytes_split h 0 lo (length h)) by lia.
  rewrite (rangeBytes_split h lo hi (length h)) by lia.
  rewrite !length_app. lia.
Qed.

(** *** Children that cover adjacent ranges *)
Section Chain.
Context {A : Type}.
Variable R : A -> nat -> nat -> Prop.

Fixpoint chain (l : list A) (lo hi : nat) : Prop :=
  match l with
  | [] => lo = hi
  | x :: l' => exists mid, R x lo mid /\ chain l' mid hi
  end.

Lemma chain_app (l1 l2 : list A) :
  forall lo hi,
    chain (l1 ++ l2) lo hi <-> exists mid, chain l1 lo mid /\ chain l2 mid hi.
Proof.
  induction l1 as [|x l1 IH]; intros lo hi; cbn [app chain].
  - split.
    + intros H. exists lo. split; [reflexivity|exact H].
    + intros (mid & -> & H). exact H.
  - split.
    + intros (m1 & Hx & H). apply IH in H. destruct H as (m2 & H1 & H2).
      exists m2. split; [|exact H2]. exists m1. split; assumption.
    + intros (m2 & (m1 & Hx & H1) & H2). exists m1. split; [exact Hx|].
      apply IH. exists m2. split; assumption.
Qed.

Hypothesis R_le : forall x a b, R x a b -> (a <= b)%nat.

Lemma chain_le (l : list A) :
  forall lo hi, chain l lo hi -> (lo <= hi)%nat.
Proof.
  induction l as [|x l IH]; intros lo hi; cbn [chain].
  - intros ->. lia.
  - intros (mid & Hx & H). apply R_le in Hx. apply IH in H. lia.
Qed.

End Chain.

Lemma chain_impl {A : Type} (R R' : A -> nat -> nat -> Prop) (l : list A) :
  (forall x a b, R x a b -> (a <= b)%nat) ->
  forall lo hi lo0 hi0,
    (forall x a b, (lo0 <= a)%nat -> (b <= hi0)%nat -> R x a b -> R' x a b) ->
    (lo0 <= lo)%nat -> (hi <= hi0)%nat ->
    chain R l lo hi -> chain R' l lo hi.
Proof.
  intros R_le.
  induction l as [|x l IH]; intros lo hi lo0 hi0 Himp Hlo Hhi; cbn [chain].
  - intros ->. reflexivity.
  - intros (mid & Hx & H). exists mid.
    pose proof (R_le _ _ _ Hx). pose proof (chain_le R R_le _ _ _ H).
    split; [apply Himp; [lia|lia|exact Hx]|].
    apply (IH mid hi lo0 hi0); [exact Himp|lia|lia|exact H].
Qed.

Section ChainPieces.
Context {A : Type}.
Variable R : A -> nat -> nat -> Prop.
Hypothesis R_le : forall x a b, R x a b -> (a <= b)%nat.
Variable h : leafHeap.
Variable key : A -> indexKey.
Variable d : A.
Hypothesis R_key : forall x a b, R x a b -> key x = keyOf (rangeBytes h a b).

Lemma chain_pieces (l : list A) :
  forall lo hi,
    chain R l lo hi ->
    exists pieces,
      map key l = map keyOf pieces /\
      length pieces = length l /\
      concat pieces = rangeBytes h lo hi /\
      forall i, (i < length l)%nat ->
        exists a b,
          (lo <= a <= b)%nat /\ (b <= hi)%nat /\
          R (nth i l d) a b /\
          chain R (firstn i l) lo a /\
          chain R (skipn (S i) l) b hi /\
          nth i pieces [] = rangeBytes h a b /\
          concat (firstn i pieces) = rangeBytes h lo a /\
          concat (skipn (S i) pieces) = rangeBytes h b hi.
Proof.
  induction l as [|x l IH]; intros lo hi; cbn [chain].
  - intros ->. exists []. split; [reflexivity|]. split; [reflexivity|].
    split; [rewrite rangeBytes_nil; reflexivity|].
    intros i Hi. simpl in Hi. lia.
  - intros (mid & Hx & H).
    pose proof (R_le _ _ _ Hx) as Hle.
    pose proof (chain_le R R_le _ _ _ H) as Hle'.
    destruct (IH mid hi H) as (ps & Hk & Hlen & Hcat & Hnth).
    exists (rangeBytes h lo mid :: ps).
    split; [cbn [map]; rewrite Hk, (R_key _ _ _ Hx); reflexivity|].
    split; [cbn [length]; lia|].
    split; [cbn [concat]; rewrite Hcat; symmetry; apply rangeBytes_split; lia|].
    intros [|i] Hi.
    + exists lo, mid. cbn [nth firstn skipn concat chain].
      split; [lia|]. split; [lia|]. split; [exact Hx|].
      split; [reflexivity|]. split; [exact H|]. split; [reflexivity|].
      split; [rewrite rangeBytes_nil; reflexivity|exact Hcat].
    + cbn [length] in Hi.
      destruct (Hnth i ltac:(lia)) as (a & b & Hab & Hb & HR & Hpre & Hsuf & E1 & E2 & E3).
      exists a, b. cbn [nth firstn skipn concat chain].
      split; [lia|]. split; [lia|]. split; [exact HR|].
      split; [exists mid; split; assumption|]. split; [exact Hsuf|].
      split; [exact E1|]. split; [|exact E3].
      rewrite E2. symmetry. apply rangeBytes_split. lia.
Qed.

End ChainPieces.

(** *** The inner nodes of a tree

    [nodeRep ht h n lo hi]: [n] is the root of a subtree of height [ht] whose
    leaf groups are those at the addresses from [lo] to [hi - 1], in this
    order, and the keys of every node are those of its child group. *)
Fixpoint nodeRep (ht : nat) (h : leafHeap) (n : innerNode) (lo hi : nat) : Prop :=
  match n with
  | mkInnerNode c nk ks =>
    length ks = 64%nat /\
    (lo < hi <= length h)%nat /\
    nk = Z.of_nat (length (group_keys h c)) /\
    slice ks 0 nk = group_keys h c /\
    match c with
    | nilGroup => False
    | leafGroupAt p => ht = O /\ lo = p /\ hi = S p
    | innerGroupOf m nodes =>
      1 <= m <= 64 /\ length nodes = 64%nat /\
      match ht with
      | O => False
      | S ht' => chain (nodeRep ht' h) (slice nodes 0 m) lo hi
      end
    end
  end.

Lemma nodeRep_eq (ht : nat) (h : leafHeap) (c : nodeGroup) (nk : Z)
    (ks : list indexKey) (lo hi : nat) :
  nodeRep ht h (mkInnerNode c nk ks) lo hi
  = (length ks = 64%nat /\
     (lo < hi <= length h)%nat /\
     nk = Z.of_nat (length (group_keys h c)) /\
     slice ks 0 nk = group_keys h c /\
     match c with
     | nilGroup => False
     | leafGroupAt p => ht = O /\ lo = p /\ hi = S p
     | innerGroupOf m nodes =>
       1 <= m <= 64 /\ length nodes = 64%nat /\
       match ht with
       | O => False
       | S ht' => chain (nodeRep ht' h) (slice nodes 0 m) lo hi
       end
     end).
Proof. destruct ht; reflexivity. Qed.

Lemma nodeRep_le (ht : nat) (h : leafHeap) (n : innerNode) (lo hi : nat) :
  nodeRep ht h n lo hi -> (lo <= hi)%nat.
Proof. destruct n, ht; simpl; lia. Qed.

Lemma nodeRep_bounds (ht : nat) (h : leafHeap) (n : innerNode) (lo hi : nat) :
  nodeRep ht h n lo hi -> (lo < hi <= length h)%nat.
Proof. destruct n, ht; simpl; lia. Qed.

Lemma length_slice_0 {A : Type} (a : list A) (n : Z) :
  0 <= n <= Z.of_nat (length a) -> Z.of_nat (length (slice a 0 n)) = n.
Proof. intros H. rewrite slice_0, length_firstn. lia. Qed.

Lemma nth_slice_0 {A : Type} (d : A) (a : list A) (n : Z) (i : nat) :
  Z.of_nat i < n -> nth i (slice a 0 n) d = nth i a d.
Proof. intros H. rewrite slice_0. apply nth_firstn_lt. lia. Qed.

Lemma nodeRep_frame (h h' : leafHeap) (ht : nat) :
  length h' = length h ->
  forall (n : innerNode) (lo hi : nat),
    (forall p, (lo <= p < hi)%nat -> getGroup h' p = getGroup h p) ->
    nodeRep ht h n lo hi -> nodeRep ht h' n lo hi.
Proof.
  intros Hlen. induction ht as [|ht IH]; intros [c nk ks] lo hi Hsame;
    cbn [nodeRep]; intros (Hks & Hb & Hnk & Hkeys & Hc).
  - destruct c as [|p|m nodes]; [contradiction| |].
    + destruct Hc as (_ & -> & ->). cbn [group_keys] in *.
      rewrite Hsame by lia. rewrite Hlen.
      repeat (split; [assumption || reflexivity|]). auto.
    + destruct Hc as (_ & _ & []).
  - destruct c as [|p|m nodes]; [contradiction| |].
    + destruct Hc as (Hc & _). discriminate.
    + destruct Hc as (Hm & Hn & Hch). cbn [group_keys] in *. rewrite Hlen.
      repeat (split; [assumption|]).
      apply (chain_impl (nodeRep ht h) (nodeRep ht h')
               _ (nodeRep_le ht h) lo hi lo hi); [|lia|lia|exact Hch].
      intros x a b Ha Hb' Hx. apply IH; [|exact Hx].
      intros p Hp. apply Hsame. lia.
Qed.
Lemma inner_key_fold (pieces : list (list byte)) :
  forall k : indexKey,
    0 <= numChars k -> 0 <= numNewlines k ->
    numChars k + Z.of_nat (length (concat pieces)) < 18446744073709551616 ->
    numNewlines k + Z.of_nat (length (concat pieces)) < 18446744073709551616 ->
    fold_left
      (fun nodeKey key =>
         mkKey (u64 (numChars nodeKey + numChars key))
               (u64 (numNewlines nodeKey + numNewlines key)))
      (map keyOf pieces) k
    = mkKey (numChars k + charCount (concat pieces))
            (numNewlines k + countNewlines (concat pieces)).
Proof.
  induction pieces as [|p ps IH]; intros [nc nn] Hc Hn Hbc Hbn;
    cbn [numChars numNewlines map concat fold_left] in *.
  - unfold countNewlines. simpl. f_equal; lia.
  - rewrite length_app in *.
    pose proof (charCount_bound p) as Hcb.
    pose proof (countNewlines_bound p) as Hnb.
    cbn [keyOf numChars numNewlines].
    rewrite !u64_small by lia.
    rewrite IH; cbn [numChars numNewlines]; try lia.
    rewrite charCount_app, countNewlines_app. f_equal; lia.
Qed.

Lemma inner_key_pieces (c : nodeGroup) (nk : Z) (ks : list indexKey)
    (pieces : list (list byte)) :
  slice ks 0 nk = map keyOf pieces ->
  Z.of_nat (length (concat pieces)) < 18446744073709551616 ->
  inner_key (mkInnerNode c nk ks) = keyOf (concat pieces).
Proof.
  intros Hk Hlen. unfold inner_key. cbn [keys numKeys]. rewrite Hk.
  rewrite inner_key_fold; cbn [zeroKey numChars numNewlines]; try lia.
  reflexivity.
Qed.

Lemma leafGroup_keys_spec (g : leafNodeGroup) :
  groupOk g -> leafGroup_keys g = map keyOf (groupLeaves g).
Proof.
  intros (Hn & Hlen & Hall). unfold leafGroup_keys, groupLeaves.
  rewrite map_map. apply map_ext_in. intros l Hl. apply leaf_key_spec.
  rewrite Forall_forall in Hall. apply Hall.
  unfold liveNodes in Hl. rewrite slice_0 in Hl.
  rewrite <- (firstn_skipn (Z.to_nat (lg_numNodes g)) (lg_nodes g)).
  apply in_or_app. left. exact Hl.
Qed.

Lemma length_groupLeaves (g : leafNodeGroup) :
  groupOk g -> Z.of_nat (length (groupLeaves g)) = lg_numNodes g.
Proof.
  intros (Hn & Hlen & _). unfold groupLeaves, liveNodes.
  rewrite length_map. apply length_slice_0. lia.
Qed.

Section Pieces.
Variable h : leafHeap.
Hypothesis Hh : heapOk h.
Hypothesis Hsize : Z.of_nat (length (heapBytes h)) < 18446744073709551616.

(** The texts of the children of a node, whose keys the node holds. *)
Definition childrenAt (ht : nat) (c : nodeGroup) (lo hi : nat)
    (pieces : list (list byte)) : Prop :=
  match c with
  | nilGroup => False
  | leafGroupAt p =>
    ht = O /\ lo = p /\ hi = S p /\ pieces = groupLeaves (getGroup h p)
  | innerGroupOf m nodes =>
    1 <= m <= 64 /\ length nodes = 64%nat /\
    exists ht',
      ht = S ht' /\
      forall i, (i < length pieces)%nat ->
        exists a b,
          (lo <= a <= b)%nat /\ (b <= hi)%nat /\
          nodeRep ht' h (nth i nodes zeroInner) a b /\
          chain (nodeRep ht' h) (firstn i (slice nodes 0 m)) lo a /\
          chain (nodeRep ht' h) (skipn (S i) (slice nodes 0 m)) b hi /\
          nth i pieces [] = rangeBytes h a b /\
          concat (firstn i pieces) = rangeBytes h lo a /\
          concat (skipn (S i) pieces) = rangeBytes h b hi
  end.

Lemma node_pieces_aux (ht : nat) :
  (forall ht' n lo hi,
     ht = S ht' -> nodeRep ht' h n lo hi ->
     inner_key n = keyOf (rangeBytes h lo hi)) ->
  forall c nk ks lo hi,
    nodeRep ht h (mkInnerNode c nk ks) lo hi ->
    exists pieces,
      slice ks 0 nk = map keyOf pieces /\
      nk = Z.of_nat (length pieces) /\
      1 <= nk <= 64 /\
      concat pieces = rangeBytes h lo hi /\
      Z.of_nat (length (concat pieces)) < 18446744073709551616 /\
      childrenAt ht c lo hi pieces.
Proof.
  intros IH c nk ks lo hi. rewrite nodeRep_eq.
  intros (Hks & Hb & Hnk & Hkeys & Hc).
  assert (Hrange : Z.of_nat (length (rangeBytes h lo hi)) < 18446744073709551616).
  { pose proof (rangeBytes_length h lo hi ltac:(lia)). lia. }
  destruct c as [|p|m nodes]; [contradiction| |].
  - destruct Hc as (Hht & <- & ->).
    destruct Hh as [_ Hall]. destruct (Hall lo ltac:(lia)) as [Hg _].
    cbn [group_keys] in *. rewrite leafGroup_keys_spec in * by exact Hg.
    rewrite length_map in Hnk.
    pose proof (length_groupLeaves _ Hg) as Hl. destruct Hg as (Hn & _).
    exists (groupLeaves (getGroup h lo)).
    split; [exact Hkeys|]. split; [exact Hnk|]. split; [lia|].
    assert (E : concat (groupLeaves (getGroup h lo)) = rangeBytes h lo (S lo))
      by (rewrite rangeBytes_single; reflexivity).
    split; [exact E|]. split; [rewrite E; exact Hrange|].
    cbn [childrenAt]. auto.
  - destruct Hc as (Hm & Hn & Hch). destruct ht as [|ht']; [contradiction|].
    cbn [group_keys] in *. rewrite length_map in Hnk.
    pose proof (length_slice_0 nodes m ltac:(lia)) as Hl.
    destruct (chain_pieces (nodeRep ht' h) (nodeRep_le ht' h) h inner_key zeroInner
                (fun x a b Hx => IH ht' x a b eq_refl Hx) _ lo hi Hch)
      as (ps & Hk & Hlen & Hcat & Hnth).
    exists ps. rewrite Hk in Hkeys.
    split; [exact Hkeys|]. split; [lia|]. split; [lia|].
    split; [exact Hcat|]. split; [rewrite Hcat; exact Hrange|].
    cbn [childrenAt]. split; [exact Hm|]. split; [exact Hn|].
    exists ht'. split; [reflexivity|].
    intros i Hi. destruct (Hnth i ltac:(lia)) as (a & b & H1 & H2 & H3 & H4).
    exists a, b. split; [exact H1|]. split; [exact H2|].
    rewrite nth_slice_0 in H3 by lia. split; [exact H3|exact H4].
Qed.

Lemma nodeRep_key (ht : nat) :
  forall n lo hi,
    nodeRep ht h n lo hi -> inner_key n = keyOf (rangeBytes h lo hi).
Proof.
  induction ht as [|ht IH]; intros [c nk ks] lo hi Hn.
  - destruct (node_pieces_aux 0 ltac:(discriminate) c nk ks lo hi Hn)
      as (ps & Hk & _ & _ & Hcat & Hlen & _).
    rewrite <- Hcat. apply inner_key_pieces; assumption.
  - destruct (node_pieces_aux (S ht) ltac:(intros ? ? ? ? [= <-]; apply IH)
                c nk ks lo hi Hn)
      as (ps & Hk & _ & _ & Hcat & Hlen & _).
    rewrite <- Hcat. apply inner_key_pieces; assumption.
Qed.

Lemma node_pieces (ht : nat) (c : nodeGroup) (nk : Z) (ks : list indexKey)
    (lo hi : nat) :
  nodeRep ht h (mkInnerNode c nk ks) lo hi ->
  exists pieces,
    slice ks 0 nk = map keyOf pieces /\
    nk = Z.of_nat (length pieces) /\
    1 <= nk <= 64 /\
    concat pieces = rangeBytes h lo hi /\
    Z.of_nat (length (concat pieces)) < 18446744073709551616 /\
    childrenAt ht c lo hi pieces.
Proof.
  apply node_pieces_aux. intros ht' n lo' hi' _. apply nodeRep_key.
Qed.

End Pieces.

(** *** Cursors *)

Lemma nth_apply_nth {A B : Type} (f : A -> B) (d : B) (d0 : A) (l : list A)
    (i : nat) :
  (i < length l)%nat -> nth_apply f d l i = f (nth i l d0).
Proof.
  revert i. induction l as [|x l IH]; intros i H; [simpl in H; lia|].
  destruct i as [|i]; [reflexivity|]. cbn [nth_apply nth]. apply IH.
  simpl in H. lia.
Qed.

Lemma leafBytes_zero : leafBytes zeroLeaf = [].
Proof. reflexivity. Qed.

Lemma groupLeaves_nth (g : leafNodeGroup) (i : nat) :
  Z.of_nat i < lg_numNodes g ->
  nth i (groupLeaves g) [] = leafBytes (arr_get zeroLeaf (lg_nodes g) (Z.of_nat i)).
Proof.
  intros H. unfold groupLeaves, liveNodes, arr_get.
  rewrite <- leafBytes_zero at 1. rewrite map_nth, nth_slice_0 by lia.
  rewrite Nat2Z.id. reflexivity.
Qed.

Lemma groupLeaves_skipn (g : leafNodeGroup) (i : nat) :
  Z.of_nat i < lg_numNodes g ->
  skipn (S i) (groupLeaves g)
  = map leafBytes (slice (lg_nodes g) (Z.of_nat i + 1) (lg_numNodes g)).
Proof.
  intros H. unfold groupLeaves, liveNodes.
  rewrite (slice_skipn _ (Z.of_nat i + 1)) by lia.
  rewrite slice_0, skipn_map. f_equal. f_equal. lia.
Qed.

Section Descent.
Variable h : leafHeap.
Hypothesis Hh : heapOk h.
Hypothesis Hsize : Z.of_nat (length (heapBytes h)) < 18446744073709551616.

Lemma rest_after (b hi : nat) :
  (b <= hi <= length h)%nat ->
  heapBytes (skipn b h) = rangeBytes h b hi ++ heapBytes (skipn hi h).
Proof.
  intros H. rewrite !heapBytes_range. apply rangeBytes_split. lia.
Qed.

Lemma inner_cursorAtPosition_spec (ht : nat) :
  forall (n : innerNode) (lo hi : nat) (q : Z),
    nodeRep ht h n lo hi ->
    0 <= q < 18446744073709551616 ->
    cursorOk h (inner_cursorAtPosition h n q) /\
    remaining h (inner_cursorAtPosition h n q)
    = dropChars (Z.to_nat q) (rangeBytes h lo hi) ++ heapBytes (skipn hi h).
Proof.
  induction ht as [|ht IH]; intros [c nk ks] lo hi q Hn Hq;
    pose proof (nodeRep_bounds _ _ _ _ _ Hn) as Hb;
    destruct (node_pieces h Hh Hsize _ c nk ks lo hi Hn)
      as (ps & Hk & Hnk & Hnk64 & Hcat & Hlen & Hc);
    destruct (locatePosition_spec ks nk ps Hk Hnk Hnk64 Hlen c q Hq)
      as (idx & q' & E & Hidx & Hq' & Hcase);
    pose proof (located_dropChars ps q idx q' ltac:(lia) Hidx Hcase) as Hdrop;
    rewrite <- Hcat, Hdrop;
    cbn [inner_cursorAtPosition]; rewrite E;
    (destruct c as [|p|m nodes]; [contradiction| |]); cbn [childrenAt] in Hc.
  - destruct Hc as (_ & <- & -> & ->).
    destruct Hh as [_ Hall]. destruct (Hall lo ltac:(lia)) as [Hg _].
    pose proof (length_groupLeaves _ Hg) as Hl.
    pose proof (leafOk_get _ (Z.of_nat idx) Hg) as Hleaf.
    destruct (byteOffsetForPosition_spec _ q' Hleaf Hq') as (Hoff & Hskip & _).
    unfold leafGroup_cursorAtPosition. split.
    + unfold cursorOk. cbn [group nodeIdx textByteOffset].
      split; [lia|]. split; [lia|exact Hoff].
    + unfold remaining. cbn [group nodeIdx textByteOffset].
      rewrite Hskip, groupLeaves_nth, groupLeaves_skipn by lia.
      rewrite <- app_assoc. reflexivity.
  - destruct Hc as (_ & _ & ht' & [=] & _).
  - destruct Hc as (Hc & _). discriminate.
  - destruct Hc as (Hm & Hnodes & ht' & [= <-] & Hnth).
    destruct (Hnth idx Hidx) as (a & b & Hab & Hbhi & Hx & _ & _ & E1 & _ & E3).
    rewrite Nat2Z.id, (nth_apply_nth _ _ zeroInner) by lia.
    destruct (IH _ a b q' Hx Hq') as (Hok & Hrem).
    split; [exact Hok|].
    rewrite Hrem, E1, E3, <- app_assoc. f_equal.
    apply rest_after. lia.
Qed.

Lemma inner_cursorAfterNewline_spec (ht : nat) :
  forall (n : innerNode) (lo hi : nat) (q : Z),
    nodeRep ht h n lo hi ->
    0 <= q < 18446744073709551616 ->
    cursorOk h (inner_cursorAfterNewline h n q) /\
    remaining h (inner_cursorAfterNewline h n q)
    = afterNewline (Z.to_nat q) (rangeBytes h lo hi) ++ heapBytes (skipn hi h).
Proof.
  induction ht as [|ht IH]; intros [c nk ks] lo hi q Hn Hq;
    pose proof (nodeRep_bounds _ _ _ _ _ Hn) as Hb;
    destruct (node_pieces h Hh Hsize _ c nk ks lo hi Hn)
      as (ps & Hk & Hnk & Hnk64 & Hcat & Hlen & Hc);
    destruct (locateNewline_spec ks nk ps Hk Hnk Hnk64 Hlen c q Hq)
      as (idx & q' & E & Hidx & Hq' & H1 & H2 & H3);
    pose proof (located_afterNewline ps q idx q' ltac:(lia) Hidx H1 H2 H3) as Hdrop;
    rewrite <- Hcat, Hdrop;
    cbn [inner_cursorAfterNewline]; rewrite E;
    (destruct c as [|p|m nodes]; [contradiction| |]); cbn [childrenAt] in Hc.
  - destruct Hc as (_ & <- & -> & ->).
    destruct Hh as [_ Hall]. destruct (Hall lo ltac:(lia)) as [Hg _].
    pose proof (length_groupLeaves _ Hg) as Hl.
    pose proof (leafOk_get _ (Z.of_nat idx) Hg) as Hleaf.
    destruct (byteOffsetAfterNewline_spec _ q' Hleaf Hq') as (Hoff & Hskip).
    unfold leafGroup_cursorAfterNewline. split.
    + unfold cursorOk. cbn [group nodeIdx textByteOffset].
      split; [lia|]. split; [lia|exact Hoff].
    + unfold remaining. cbn [group nodeIdx textByteOffset].
      rewrite Hskip, groupLeaves_nth, groupLeaves_skipn by lia.
      rewrite <- app_assoc. reflexivity.
  - destruct Hc as (_ & _ & ht' & [=] & _).
  - destruct Hc as (Hc & _). discriminate.
  - destruct Hc as (Hm & Hnodes & ht' & [= <-] & Hnth).
    destruct (Hnth idx Hidx) as (a & b & Hab & Hbhi & Hx & _ & _ & E1 & _ & E3).
    rewrite Nat2Z.id, (nth_apply_nth _ _ zeroInner) by lia.
    destruct (IH _ a b q' Hx Hq') as (Hok & Hrem).
    split; [exact Hok|].
    rewrite Hrem, E1, E3, <- app_assoc. f_equal.
    apply rest_after. lia.
Qed.

End Descent.

(** *** Deleting a character *)

Lemma validBytes_app (a b : list byte) :
  validBytes a -> validBytes b -> validBytes (a ++ b).
Proof.
  intros (ca & Ha & <-) (cb & Hb & <-). exists (ca ++ cb).
  split; [apply wellFormed_app; split; assumption|apply concat_app].
Qed.

Lemma validBytes_concat (ps : list (list byte)) :
  Forall validBytes ps -> validBytes (concat ps).
Proof.
  induction 1 as [|p ps Hp _ IH]; [apply validBytes_nil|].
  cbn [concat]. apply validBytes_app; assumption.
Qed.

Lemma wellFormed_inj (cs1 cs2 : list (list byte)) :
  wellFormed cs1 -> wellFormed cs2 -> concat cs1 = concat cs2 -> cs1 = cs2.
Proof.
  intros H1 H2 E. apply utf8_decode_concat in H1, H2.
  rewrite E in H1. congruence.
Qed.

Lemma validBytes_count (bs : list byte) :
  validBytes bs ->
  exists cs, wellFormed cs /\ concat cs = bs /\ charCount bs = Z.of_nat (length cs).
Proof.
  intros (cs & Hw & <-). exists cs. split; [exact Hw|]. split; [reflexivity|].
  apply charCount_chars. exact Hw.
Qed.

(** Every leaf holds whole characters. *)
Definition leavesValid (h : leafHeap) : Prop :=
  forall p, (p < length h)%nat -> Forall validBytes (groupLeaves (getGroup h p)).

Lemma leavesValid_leaves (h : leafHeap) :
  leavesValid h <-> Forall validBytes (leaves h).
Proof.
  unfold leavesValid, leaves. rewrite Forall_concat, Forall_map.
  rewrite Forall_forall. split.
  - intros H g Hg. destruct (In_nth _ _ zeroLeafGroup Hg) as (p & Hp & <-).
    apply H. exact Hp.
  - intros H p Hp. apply H. apply nth_In. exact Hp.
Qed.

Lemma range_valid (h : leafHeap) (lo hi : nat) :
  leavesValid h -> (hi <= length h)%nat -> validBytes (rangeBytes h lo hi).
Proof.
  intros Hv Hhi. unfold rangeBytes. apply validBytes_concat.
  apply Forall_map, Forall_forall. intros p Hp. apply in_seq in Hp.
  apply validBytes_concat. apply Hv. lia.
Qed.

Lemma deleteChar_app (csA csI csB : list (list byte)) (q : Z) :
  Z.of_nat (length csA) <= q < Z.of_nat (length csA) + Z.of_nat (length csI) ->
  deleteChar q (csA ++ csI ++ csB)
  = csA ++ deleteChar (q - Z.of_nat (length csA)) csI ++ csB.
Proof.
  intros H. rewrite !deleteChar_in by (rewrite ?length_app; lia).
  rewrite firstn_app, skipn_app.
  rewrite (firstn_all2 (n := Z.to_nat q)) by lia.
  rewrite (skipn_all2 (n := S (Z.to_nat q))) by lia.
  cbn [app]. rewrite <- !app_assoc. f_equal.
  replace (Z.to_nat q - length csA)%nat
    with (Z.to_nat (q - Z.of_nat (length csA))) by lia.
  replace (S (Z.to_nat q) - length csA)%nat
    with (S (Z.to_nat (q - Z.of_nat (length csA)))) by lia.
  rewrite firstn_app, skipn_app.
  replace (Z.to_nat (q - Z.of_nat (length csA)) - length csI)%nat
    with 0%nat by lia.
  replace (S (Z.to_nat (q - Z.of_nat (length csA))) - length csI)%nat
    with 0%nat by lia.
  cbn [firstn skipn]. rewrite app_nil_r. reflexivity.
Qed.

Lemma delete_in_pieces (ps : list (list byte)) (idx : nat)
    (cs csI : list (list byte)) (q q' : Z) :
  Forall validBytes ps -> (idx < length ps)%nat ->
  wellFormed cs -> concat cs = concat ps ->
  wellFormed csI -> concat csI = nth idx ps [] ->
  charCount (concat (firstn idx ps)) <= q ->
  q' = q - charCount (concat (firstn idx ps)) ->
  q' < charCount (nth idx ps []) ->
  q < Z.of_nat (length cs) /\
  0 <= q' < Z.of_nat (length csI) /\
  concat (firstn idx ps) ++ concat (deleteChar q' csI)
    ++ concat (skipn (S idx) ps)
  = concat (deleteChar q cs).
Proof.
  intros Hv Hidx Hw Hcat HwI HcatI Hle Eq' Hlt.
  assert (HvA : validBytes (concat (firstn idx ps))).
  { apply validBytes_concat. rewrite <- (firstn_skipn idx ps) in Hv.
    apply Forall_app in Hv. apply Hv. }
  assert (HvB : validBytes (concat (skipn (S idx) ps))).
  { apply validBytes_concat. rewrite <- (firstn_skipn (S idx) ps) in Hv.
    apply Forall_app in Hv. apply Hv. }
  destruct (validBytes_count _ HvA) as (csA & HwA & EA & HcA).
  destruct HvB as (csB & HwB & EB).
  assert (Ecs : cs = csA ++ csI ++ csB).
  { apply wellFormed_inj; [exact Hw| |].
    - apply wellFormed_app. split; [exact HwA|].
      apply wellFormed_app. split; assumption.
    - rewrite Hcat, (pieces_split ps idx Hidx), !concat_app.
      rewrite EA, EB, HcatI. reflexivity. }
  rewrite <- HcatI, charCount_chars in Hlt by exact HwI.
  pose proof (charCount_bound (concat (firstn idx ps))) as Hb.
  rewrite HcA in *.
  split; [rewrite Ecs, !length_app; lia|]. split; [lia|].
  rewrite Ecs, deleteChar_app by lia.
  rewrite !concat_app, EA, EB, Eq'. reflexivity.
Qed.

Lemma set_nth_same {A : Type} (d : A) (a : list A) (i : nat) :
  set_nth i (nth i a d) a = a.
Proof.
  revert i. induction a as [|x a IH]; intros i; [destruct i; reflexivity|].
  destruct i as [|i]; [reflexivity|]. cbn [set_nth nth]. rewrite IH.
  reflexivity.
Qed.

Lemma slice_set {A : Type} (a : list A) (i : nat) (n : Z) (v : A) :
  Z.of_nat i < n <= Z.of_nat (length a) ->
  slice (arr_set a (Z.of_nat i) v) 0 n
  = firstn i (slice a 0 n) ++ v :: skipn (S i) (slice a 0 n).
Proof.
  intros H. unfold arr_set. rewrite Nat2Z.id, !slice_0.
  rewrite set_nth_split by lia.
  rewrite firstn_app, length_firstn.
  rewrite (firstn_all2 (n := Z.to_nat n)) by (rewrite length_firstn; lia).
  replace (Z.to_nat n - Nat.min i (length a))%nat
    with (S (Z.to_nat n - S i)) by lia.
  cbn [firstn]. rewrite firstn_firstn, skipn_firstn_comm.
  replace (Nat.min i (Z.to_nat n)) with i by lia. reflexivity.
Qed.

Lemma nth_update_nth {A R : Type} (f : A -> A * R) (d : R) (d0 : A)
    (l : list A) (i : nat) :
  (i < length l)%nat ->
  nth_update f d l i
  = (set_nth i (fst (f (nth i l d0))) l, snd (f (nth i l d0))).
Proof.
  revert i. induction l as [|x l IH]; intros i H; [simpl in H; lia|].
  destruct i as [|i]; cbn [nth_update nth set_nth].
  - destruct (f x). reflexivity.
  - rewrite IH by (simpl in H; lia). reflexivity.
Qed.

Lemma setGroup_same (h : leafHeap) (p : nat) : setGroup h p (getGroup h p) = h.
Proof. apply set_nth_same. Qed.

Lemma heapOk_setGroup (h : leafHeap) (p : nat) (g : leafNodeGroup) :
  heapOk h -> (p < length h)%nat -> groupOk g ->
  lg_next g = lg_next (getGroup h p) ->
  heapOk (setGroup h p g).
Proof.
  intros [Hne Hall] Hp Hg Hnext. split.
  - intros E. apply (f_equal (@length _)) in E.
    rewrite length_setGroup in E. destruct h; [contradiction|discriminate].
  - intros k Hk. rewrite length_setGroup in *.
    destruct (Nat.eq_dec k p) as [->|Hkp].
    + rewrite getGroup_setGroup_eq by exact Hp.
      split; [exact Hg|]. rewrite Hnext. apply Hall. exact Hp.
    + rewrite getGroup_setGroup_neq by exact Hkp. apply Hall. exact Hk.
Qed.

Lemma decrementKey_spec (ks : list indexKey) (idx : Z) (nl : bool) :
  let k := arr_get zeroKey ks idx in
  1 <= numChars k < 18446744073709551616 ->
  0 <= numNewlines k - (if nl then 1 else 0) ->
  numNewlines k < 18446744073709551616 ->
  decrementKey ks idx nl = arr_set ks idx (keyLess k nl).
Proof.
  intros k Hc Hn Hn'. unfold decrementKey, keyLess. fold k.
  rewrite u64_small by lia. destruct nl; [rewrite u64_small by lia|];
    f_equal; f_equal; lia.
Qed.

Lemma keyLess_pieces (a old new b : list byte) (nl : bool) :
  keyOf new = keyLess (keyOf old) nl ->
  keyOf (a ++ new ++ b) = keyLess (keyOf (a ++ old ++ b)) nl.
Proof.
  intros H. rewrite !keyOf_app, H. unfold keyLess.
  cbn [numChars numNewlines]. f_equal; lia.
Qed.
Lemma keys_update (ks : list indexKey) (nk : Z) (ps : list (list byte))
    (idx : nat) (nl : bool) (new : list byte) :
  slice ks 0 nk = map keyOf ps ->
  nk = Z.of_nat (length ps) ->
  1 <= nk <= 64 ->
  (idx < length ps)%nat ->
  nk <= Z.of_nat (length ks) ->
  Z.of_nat (length (nth idx ps [])) < 18446744073709551616 ->
  1 <= charCount (nth idx ps []) ->
  keyOf new = keyLess (keyOf (nth idx ps [])) nl ->
  slice (decrementKey ks (Z.of_nat idx) nl) 0 nk
  = map keyOf (firstn idx ps ++ new :: skipn (S idx) ps).
Proof.
  intros Hk Hnk Hpos Hidx Hlen Hsmall Hone Hnew.
  pose proof (key_at ks nk ps Hk Hnk Hpos idx Hidx) as Hkey.
  pose proof (charCount_bound (nth idx ps [])) as Hb1.
  pose proof (countNewlines_bound (nth idx ps [])) as Hb2.
  pose proof (countNewlines_bound new) as Hb3.
  assert (Hn3 : numNewlines (keyOf new)
                = countNewlines (nth idx ps []) - (if nl then 1 else 0))
    by (rewrite Hnew; reflexivity).
  cbn [keyOf numNewlines] in Hn3.
  rewrite decrementKey_spec; rewrite Hkey; cbn [keyOf numChars numNewlines];
    try lia.
  rewrite slice_set by lia. rewrite Hk, map_app. cbn [map].
  rewrite firstn_map, skipn_map, Hnew. reflexivity.
Qed.

Lemma groupLeaves_update (g : leafNodeGroup) (idx : nat) (l : leafNode) :
  groupOk g -> Z.of_nat idx < lg_numNodes g ->
  groupLeaves (mkLeafGroup (lg_prev g) (lg_next g) (lg_numNodes g)
                 (arr_set (lg_nodes g) (Z.of_nat idx) l))
  = firstn idx (groupLeaves g) ++ leafBytes l :: skipn (S idx) (groupLeaves g).
Proof.
  intros (Hn & Hlen & _) Hidx. unfold groupLeaves, liveNodes.
  cbn [lg_nodes lg_numNodes]. rewrite slice_set by lia.
  rewrite map_app. cbn [map]. rewrite firstn_map, skipn_map. reflexivity.
Qed.

Lemma groupOk_update (g : leafNodeGroup) (idx : Z) (l : leafNode) :
  groupOk g -> leafOk l ->
  groupOk (mkLeafGroup (lg_prev g) (lg_next g) (lg_numNodes g)
             (arr_set (lg_nodes g) idx l)).
Proof.
  intros (Hn & Hlen & Hall) Hl. split; [exact Hn|].
  cbn [lg_nodes]. split; [rewrite length_arr_set; exact Hlen|].
  apply Forall_leafOk_set; assumption.
Qed.

Lemma deleteChar_shorter (q : Z) (cs : list (list byte)) :
  (length (concat (deleteChar q cs)) <= length (concat cs))%nat.
Proof.
  unfold deleteChar.
  destruct ((0 <=? q) && (q <? Z.of_nat (length cs))); [|lia].
  rewrite <- (firstn_skipn (Z.to_nat q) cs) at 3.
  rewrite !concat_app, !length_app.
  assert (H : (length (concat (skipn (S (Z.to_nat q)) cs))
               <= length (concat (skipn (Z.to_nat q) cs)))%nat); [|lia].
  destruct (Nat.lt_ge_cases (Z.to_nat q) (length cs)) as [Hlt|Hge].
  - rewrite (skipn_nth_cons [] cs _ Hlt). cbn [concat].
    rewrite length_app. lia.
  - rewrite !skipn_all2 by lia. lia.
Qed.

Lemma heapBytes_three (h : leafHeap) (a b : nat) :
  (a <= b <= length h)%nat ->
  heapBytes h
  = rangeBytes h 0 a ++ rangeBytes h a b ++ rangeBytes h b (length h).
Proof.
  intros H. rewrite <- rangeBytes_all.
  rewrite (rangeBytes_split h 0 a (length h)) by lia.
  rewrite (rangeBytes_split h a b (length h)) by lia. reflexivity.
Qed.

Lemma delete_size (h h' : leafHeap) (a b : nat) :
  length h' = length h -> (a <= b <= length h)%nat ->
  (forall p, ~ (a <= p < b)%nat -> getGroup h' p = getGroup h p) ->
  (length (rangeBytes h' a b) <= length (rangeBytes h a b))%nat ->
  (length (heapBytes h') <= length (heapBytes h))%nat.
Proof.
  intros Hlen Hab Hsame Hle.
  rewrite (heapBytes_three h a b), (heapBytes_three h' a b) by lia.
  rewrite (rangeBytes_frame h h' 0 a) by (intros p Hp; apply Hsame; lia).
  rewrite Hlen.
  rewrite (rangeBytes_frame h h' b (length h)) by (intros p Hp; apply Hsame; lia).
  rewrite !length_app. lia.
Qed.

Lemma leavesValid_setGroup (h : leafHeap) (p : nat) (g : leafNodeGroup) :
  leavesValid h -> Forall validBytes (groupLeaves g) ->
  leavesValid (setGroup h p g).
Proof.
  intros Hv Hg k Hk. rewrite length_setGroup in Hk.
  destruct (Nat.eq_dec k p) as [->|Hkp].
  - rewrite getGroup_setGroup_eq by exact Hk. exact Hg.
  - rewrite getGroup_setGroup_neq by exact Hkp. apply Hv. exact Hk.
Qed.

Lemma Forall_update {A : Type} (P : A -> Prop) (l : list A) (i : nat) (x : A) :
  Forall P l -> P x -> Forall P (firstn i l ++ x :: skipn (S i) l).
Proof.
  intros Hl Hx. apply Forall_app. split.
  - rewrite <- (firstn_skipn i l) in Hl. apply Forall_app in Hl. apply Hl.
  - constructor; [exact Hx|].
    rewrite <- (firstn_skipn (S i) l) in Hl. apply Forall_app in Hl. apply Hl.
Qed.

Section Delete.
Variable h : leafHeap.
Hypothesis Hh : heapOk h.
Hypothesis Hsize : Z.of_nat (length (heapBytes h)) < 18446744073709551616.
Hypothesis Hvalid : leavesValid h.

(** What [innerNode.deleteAtPosition] does to a subtree that holds the
    characters [cs]. *)
Definition deleted (ht : nat) (n : innerNode) (lo hi : nat) (q : Z)
    (cs : list (list byte)) (res : innerNode * (leafHeap * bool * bool)) : Prop :=
  let '(n', (h', didDelete, wasNewline)) := res in
  if q <? Z.of_nat (length cs) then
    didDelete = true /\
    heapOk h' /\ leavesValid h' /\ length h' = length h /\
    (forall p, ~ (lo <= p < hi)%nat -> getGroup h' p = getGroup h p) /\
    nodeRep ht h' n' lo hi /\
    rangeBytes h' lo hi = concat (deleteChar q cs) /\
    keyOf (rangeBytes h' lo hi) = keyLess (keyOf (rangeBytes h lo hi)) wasNewline
  else n' = n /\ h' = h /\ didDelete = false /\ wasNewline = false.

Lemma pieces_valid (ht : nat) (c : nodeGroup) (lo hi : nat)
    (ps : list (list byte)) :
  (hi <= length h)%nat -> childrenAt h ht c lo hi ps -> Forall validBytes ps.
Proof.
  intros Hhi. destruct c as [|p|m nodes]; cbn [childrenAt]; [contradiction| |].
  - intros (_ & <- & -> & ->). apply Hvalid. lia.
  - intros (_ & _ & ht' & _ & Hnth). apply Forall_nth. intros i d Hi.
    rewrite (nth_indep _ d [] Hi).
    destruct (Hnth i Hi) as (a & b & _ & Hb & _ & _ & _ & -> & _).
    apply range_valid; [exact Hvalid|lia].
Qed.

Lemma piece_small (ps : list (list byte)) (idx : nat) :
  (idx < length ps)%nat ->
  (length (nth idx ps []) <= length (concat ps))%nat /\
  charCount (nth idx ps []) <= charCount (concat ps).
Proof.
  intros H. rewrite (pieces_split ps idx H), !length_app, !charCount_app.
  pose proof (charCount_bound (concat (firstn idx ps))).
  pose proof (charCount_bound (concat (skipn (S idx) ps))).
  lia.
Qed.

Lemma inner_deleteAtPosition_spec (ht : nat) :
  forall (n : innerNode) (lo hi : nat) (q : Z) (cs : list (list byte)),
    nodeRep ht h n lo hi ->
    0 <= q < 18446744073709551616 ->
    wellFormed cs -> concat cs = rangeBytes h lo hi ->
    deleted ht n lo hi q cs (inner_deleteAtPosition h n q).
Proof.
  induction ht as [|ht IH]; intros [c nk ks] lo hi q cs Hn Hq Hw Hcs;
    pose proof (nodeRep_bounds _ _ _ _ _ Hn) as Hb;
    destruct (node_pieces h Hh Hsize _ c nk ks lo hi Hn)
      as (ps & Hk & Hnk & Hnk64 & Hcat & Hlen & Hc);
    destruct (locatePosition_spec ks nk ps Hk Hnk Hnk64 Hlen c q Hq)
      as (idx & q' & E & Hidx & Hq' & Hcase);
    pose proof (pieces_valid _ _ _ _ _ (proj2 Hb) Hc) as Hvps;
    assert (HvI : validBytes (nth idx ps []))
      by (apply (proj1 (Forall_forall _ _) Hvps), nth_In, Hidx);
    destruct (validBytes_count _ HvI) as (csI & HwI & EI & HcI);
    destruct (piece_small ps idx Hidx) as (Hsm1 & Hsm2);
    assert (Hcount : charCount (concat ps) = Z.of_nat (length cs))
      by (rewrite Hcat, <- Hcs; apply charCount_chars; exact Hw);
    rewrite nodeRep_eq in Hn; destruct Hn as (Hks & _ & Hnk0 & Hkeys0 & Hc0);
    cbn [inner_deleteAtPosition]; rewrite E;
    (destruct c as [|p|m nodes]; [contradiction| |]); cbn [childrenAt] in Hc.
  - destruct Hc as (_ & <- & -> & ->).
    destruct (proj2 Hh lo ltac:(lia)) as [Hg Hnext].
    pose proof (length_groupLeaves _ Hg) as Hl.
    pose proof (leafOk_get _ (Z.of_nat idx) Hg) as Hleaf.
    pose proof (groupLeaves_nth (getGroup h lo) idx) as Hpiece.
    specialize (Hpiece ltac:(lia)).
    unfold leafGroup_deleteAtPosition.
    set (g := getGroup h lo) in *.
    set (leaf := arr_get zeroLeaf (lg_nodes g) (Z.of_nat idx)) in *.
    assert (Hbs : leafBytes leaf = concat csI) by (rewrite <- Hpiece; symmetry; exact EI).
    pose proof (leaf_delete_spec leaf q' csI Hleaf HwI Hbs Hq') as Hdel.
    unfold deleted.
    destruct Hcase as [(H1 & H2 & H3)|(H1 & H2 & H3)].
    + destruct (delete_in_pieces (groupLeaves g) idx cs csI q q' Hvps Hidx Hw
                  (eq_trans Hcs (eq_sym Hcat)) HwI EI H1 H2 H3)
        as (Hqlt & Hq'lt & Hjoin).
      destruct (Z.ltb_spec q' (Z.of_nat (length csI))) as [_|]; [|lia].
      destruct Hdel as (l' & nl & Edel & Hl' & Hb' & Hkey').
      rewrite Edel.
      destruct (Z.ltb_spec q (Z.of_nat (length cs))) as [_|]; [|lia].
      set (g' := mkLeafGroup (lg_prev g) (lg_next g) (lg_numNodes g)
                   (arr_set (lg_nodes g) (Z.of_nat idx) l')).
      assert (Hg' : groupOk g') by (apply groupOk_update; assumption).
      assert (Hgl : groupLeaves g'
                    = firstn idx (groupLeaves g) ++ leafBytes l'
                      :: skipn (S idx) (groupLeaves g))
        by (apply groupLeaves_update; [exact Hg|lia]).
      assert (Hrange : rangeBytes (setGroup h lo g') lo (S lo)
                       = concat (firstn idx (groupLeaves g)) ++ leafBytes l'
                         ++ concat (skipn (S idx) (groupLeaves g))).
      { rewrite rangeBytes_single, getGroup_setGroup_eq by lia.
        unfold groupBytes. fold (groupLeaves g').
        rewrite Hgl, concat_app. reflexivity. }
      split; [reflexivity|].
      split; [apply heapOk_setGroup; [exact Hh|lia|exact Hg'|reflexivity]|].
      split.
      { apply leavesValid_setGroup; [exact Hvalid|]. rewrite Hgl.
        apply Forall_update; [exact Hvps|]. rewrite Hb'.
        exists (deleteChar q' csI).
        split; [apply deleteChar_wellFormed; exact HwI|reflexivity]. }
      split; [apply length_setGroup|].
      split; [intros k Hgk; apply getGroup_setGroup_neq; lia|].
      split; [|split].
      * rewrite nodeRep_eq. cbn [group_keys].
        rewrite getGroup_setGroup_eq, length_setGroup by lia.
        rewrite leafGroup_keys_spec by exact Hg'. rewrite Hgl.
        split; [unfold decrementKey; rewrite length_arr_set; exact Hks|].
        split; [lia|].
        split.
        { rewrite length_map, length_app. cbn [length].
          rewrite length_firstn, length_skipn. lia. }
        split; [|auto].
        apply keys_update; try assumption; try lia.
        rewrite Hkey', Hpiece. reflexivity.
      * rewrite Hrange, Hb'. exact Hjoin.
      * rewrite Hrange, <- Hcat, (pieces_split _ idx Hidx).
        apply keyLess_pieces. rewrite Hkey', Hpiece. reflexivity.
    + destruct (Z.ltb_spec q' (Z.of_nat (length csI))) as [|_]; [lia|].
      rewrite Hdel.
      destruct (Z.ltb_spec q (Z.of_nat (length cs))) as [|_]; [lia|].
      split; [reflexivity|]. split; [|split; reflexivity].
      unfold leaf, arr_set, arr_get. rewrite set_nth_same.
      replace (mkLeafGroup _ _ _ _) with g by (destruct g; reflexivity).
      apply setGroup_same.
  - destruct Hc as (_ & _ & ht' & [=] & _).
  - destruct Hc as (Hc & _). discriminate.
  - destruct Hc as (Hm & Hnodes & ht' & [= <-] & Hnth).
    destruct (Hnth idx Hidx) as (a & b & Hab & Hbhi & Hx & Hpre & Hsuf & E1 & E2 & E3).
    rewrite Nat2Z.id, (nth_update_nth _ _ zeroInner) by lia.
    set (x := nth idx nodes zeroInner) in *.
    pose proof (IH x a b q' csI Hx Hq' HwI (eq_trans EI E1)) as Hdel.
    destruct (inner_deleteAtPosition h x q') as [x' [[h' did] nl]].
    cbn [fst snd]. unfold deleted in Hdel |- *.
    destruct Hcase as [(H1 & H2 & H3)|(H1 & H2 & H3)].
    + destruct (delete_in_pieces ps idx cs csI q q' Hvps Hidx Hw
                  (eq_trans Hcs (eq_sym Hcat)) HwI EI H1 H2 H3)
        as (Hqlt & Hq'lt & Hjoin).
      destruct (Z.ltb_spec q' (Z.of_nat (length csI))) as [_|]; [|lia].
      destruct Hdel as (-> & Hh' & Hv' & Hlen' & Hsame & Hx' & Hr' & Hkey').
      destruct (Z.ltb_spec q (Z.of_nat (length cs))) as [_|]; [|lia].
      assert (HrA : rangeBytes h' lo a = rangeBytes h lo a)
        by (apply rangeBytes_frame; intros p Hp; apply Hsame; lia).
      assert (HrB : rangeBytes h' b hi = rangeBytes h b hi)
        by (apply rangeBytes_frame; intros p Hp; apply Hsame; lia).
      assert (Hrange : rangeBytes h' lo hi
                       = concat (firstn idx ps) ++ rangeBytes h' a b
                         ++ concat (skipn (S idx) ps)).
      { rewrite (rangeBytes_split h' lo a hi), (rangeBytes_split h' a b hi) by lia.
        rewrite HrA, HrB, E2, E3. reflexivity. }
      assert (Hsize' : Z.of_nat (length (heapBytes h')) < 18446744073709551616).
      { pose proof (delete_size h h' a b Hlen' ltac:(lia) Hsame) as Hd.
        rewrite Hr', <- E1, <- EI in Hd.
        pose proof (Hd (deleteChar_shorter q' csI)). lia. }
      split; [reflexivity|]. split; [exact Hh'|]. split; [exact Hv'|].
      split; [exact Hlen'|].
      split; [intros p Hp; apply Hsame; lia|].
      split; [|split].
      * pose proof (length_slice_0 nodes m ltac:(lia)) as Hls.
        cbn [group_keys] in Hnk0, Hkeys0. rewrite length_map in Hnk0.
        pose proof (slice_set nodes idx m x' ltac:(lia)) as Hset.
        unfold arr_set in Hset. rewrite Nat2Z.id in Hset.
        rewrite nodeRep_eq. cbn [group_keys]. rewrite !Hset.
        split; [unfold decrementKey; rewrite length_arr_set; exact Hks|].
        split; [lia|].
        split.
        { rewrite length_map, length_app. cbn [length].
          rewrite length_firstn, length_skipn. lia. }
        split.
        { rewrite (keys_update ks nk ps idx nl (rangeBytes h' a b));
            try assumption; try lia.
          - rewrite !map_app. cbn [map].
            rewrite <- !firstn_map, <- !skipn_map.
            rewrite <- Hk, Hkeys0. f_equal. f_equal.
            symmetry. apply (nodeRep_key h' Hh' Hsize' ht x' a b Hx').
          - rewrite Hkey', E1. reflexivity. }
        split; [exact Hm|].
        split; [rewrite length_set_nth; exact Hnodes|].
        apply chain_app. exists a. split.
        { apply (chain_impl (nodeRep ht h) (nodeRep ht h') _ (nodeRep_le ht h)
                   lo a lo a); [|lia|lia|exact Hpre].
          intros y a0 b0 Ha0 Hb0 Hy.
          apply (nodeRep_frame h h' ht Hlen'); [|exact Hy].
          intros p Hp. apply Hsame. lia. }
        cbn [chain]. exists b. split; [exact Hx'|].
        apply (chain_impl (nodeRep ht h) (nodeRep ht h') _ (nodeRep_le ht h)
                 b hi b hi); [|lia|lia|exact Hsuf].
        intros y a0 b0 Ha0 Hb0 Hy.
        apply (nodeRep_frame h h' ht Hlen'); [|exact Hy].
        intros p Hp. apply Hsame. lia.
      * rewrite Hrange, Hr'. exact Hjoin.
      * rewrite Hrange, <- Hcat, (pieces_split _ idx Hidx).
        apply keyLess_pieces. rewrite Hkey', E1. reflexivity.
    + destruct (Z.ltb_spec q' (Z.of_nat (length csI))) as [|_]; [lia|].
      destruct Hdel as (-> & -> & -> & ->).
      destruct (Z.ltb_spec q (Z.of_nat (length cs))) as [|_]; [lia|].
      unfold x. rewrite set_nth_same. repeat split; reflexivity.
Qed.

End Delete.

(** *** Building the inner nodes *)

Lemma setKeys_spec (cks : list indexKey) :
  forall (i : nat) (ks : list indexKey),
    (i + length cks <= length ks)%nat ->
    setKeys (Z.of_nat i) cks ks
    = firstn i ks ++ cks ++ skipn (i + length cks) ks.
Proof.
  induction cks as [|k cks IH]; intros i ks H; cbn [setKeys length app] in *.
  - rewrite Nat.add_0_r, firstn_skipn. reflexivity.
  - replace (Z.of_nat i + 1) with (Z.of_nat (S i)) by lia.
    rewrite IH by (rewrite length_arr_set; lia).
    unfold arr_set. rewrite Nat2Z.id.
    rewrite (skipn_set_nth i (S i + length cks)) by lia.
    rewrite (set_nth_split i) by lia.
    rewrite firstn_app, firstn_firstn, length_firstn.
    replace (Nat.min (S i) i) with i by lia.
    replace (S i - Nat.min i (length ks))%nat with 1%nat by lia.
    cbn [firstn]. rewrite <- app_assoc. cbn [app].
    replace (S i + length cks)%nat with (i + S (length cks))%nat by lia.
    reflexivity.
Qed.

Lemma setKeys_0 (cks ks : list indexKey) :
  (length cks <= length ks)%nat ->
  length (setKeys 0 cks ks) = length ks /\
  slice (setKeys 0 cks ks) 0 (Z.of_nat (length cks)) = cks.
Proof.
  intros H. change 0 with (Z.of_nat 0).
  rewrite (setKeys_spec cks 0 ks H). cbn [firstn app Nat.add].
  split.
  - rewrite length_app, length_skipn. lia.
  - rewrite slice_0, Nat2Z.id, firstn_app, Nat.sub_diag, firstn_all.
    cbn [firstn]. apply app_nil_r.
Qed.

(** A child group of a node of height [ht] that covers the leaf groups from
    [lo] to [hi - 1]. *)
Definition groupRep (ht : nat) (h : leafHeap) (g : nodeGroup) (lo hi : nat)
  : Prop :=
  (lo < hi <= length h)%nat /\
  match g with
  | nilGroup => False
  | leafGroupAt p => ht = O /\ lo = p /\ hi = S p
  | innerGroupOf m nodes =>
    1 <= m <= 64 /\ length nodes = 64%nat /\
    match ht with
    | O => False
    | S ht' => chain (nodeRep ht' h) (slice nodes 0 m) lo hi
    end
  end.

Lemma groupRep_le (ht : nat) (h : leafHeap) (g : nodeGroup) (lo hi : nat) :
  groupRep ht h g lo hi -> (lo <= hi)%nat.
Proof. intros [H _]. lia. Qed.

Lemma length_group_keys (ht : nat) (h : leafHeap) (g : nodeGroup) (lo hi : nat) :
  heapOk h -> groupRep ht h g lo hi ->
  (length (group_keys h g) <= 64)%nat.
Proof.
  intros Hh [Hb Hg]. destruct g as [|p|m nodes]; [contradiction| |].
  - destruct Hg as (_ & <- & ->). cbn [group_keys].
    destruct (proj2 Hh lo ltac:(lia)) as [Hg _].
    rewrite leafGroup_keys_spec, length_map by exact Hg.
    pose proof (length_groupLeaves _ Hg). destruct Hg as (Hn & _). lia.
  - destruct Hg as (Hm & Hn & _). cbn [group_keys]. rewrite length_map.
    pose proof (length_slice_0 nodes m ltac:(lia)). lia.
Qed.

Lemma recalculateChildKeys_rep (ht : nat) (h : leafHeap) (g : nodeGroup)
    (lo hi : nat) (nk0 : Z) (ks0 : list indexKey) :
  heapOk h -> groupRep ht h g lo hi -> length ks0 = 64%nat ->
  nodeRep ht h (recalculateChildKeys h (mkInnerNode g nk0 ks0)) lo hi /\
  length (keys (recalculateChildKeys h (mkInnerNode g nk0 ks0))) = 64%nat.
Proof.
  intros Hh Hg Hks. pose proof (length_group_keys ht h g lo hi Hh Hg) as Hl.
  unfold recalculateChildKeys. cbn [child keys].
  destruct (setKeys_0 (group_keys h g) ks0 ltac:(lia)) as [E1 E2].
  split; [|lia]. rewrite nodeRep_eq. destruct Hg as [Hb Hg].
  split; [lia|]. split; [exact Hb|]. split; [reflexivity|].
  split; [exact E2|exact Hg].
Qed.

Lemma slice_snoc {A : Type} (d : A) (a : list A) (n : Z) (v : A) :
  0 <= n < Z.of_nat (length a) ->
  slice (arr_set a n v) 0 (n + 1) = slice a 0 n ++ [v].
Proof.
  intros H. rewrite !slice_0. unfold arr_set.
  rewrite set_nth_split by lia.
  replace (Z.to_nat (n + 1)) with (S (Z.to_nat n)) by lia.
  rewrite firstn_app, firstn_firstn, length_firstn.
  replace (Nat.min (S (Z.to_nat n)) (Z.to_nat n)) with (Z.to_nat n) by lia.
  replace (S (Z.to_nat n) - Nat.min (Z.to_nat n) (length a))%nat
    with 1%nat by lia.
  reflexivity.
Qed.

Lemma chain_nonempty {A : Type} (R : A -> nat -> nat -> Prop) (l : list A)
    (lo hi : nat) :
  (forall x a b, R x a b -> (a < b)%nat) ->
  l <> [] -> chain R l lo hi -> (lo < hi)%nat.
Proof.
  intros HR Hne. destruct l as [|x l]; [contradiction|]. cbn [chain].
  intros (mid & Hx & H). apply HR in Hx.
  apply (chain_le R) in H; [lia|].
  intros y a b Hy. apply HR in Hy. lia.
Qed.

Lemma nodeRep_lt (ht : nat) (h : leafHeap) (n : innerNode) (lo hi : nat) :
  nodeRep ht h n lo hi -> (lo < hi)%nat.
Proof. intros H. apply nodeRep_bounds in H. lia. Qed.

Lemma chain_hi {A : Type} (R : A -> nat -> nat -> Prop) (l : list A) (k : nat) :
  (forall x a b, R x a b -> (a <= b <= k)%nat) ->
  forall lo hi, (lo <= k)%nat -> chain R l lo hi -> (hi <= k)%nat.
Proof.
  intros HR. induction l as [|x l IH]; intros lo hi Hlo; cbn [chain].
  - intros <-. exact Hlo.
  - intros (mid & Hx & H). apply HR in Hx. apply (IH mid hi); [lia|exact H].
Qed.

Section Build.
Variable h : leafHeap.
Hypothesis Hh : heapOk h.

(** The state of the loop over the child groups, after the children that
    cover the leaf groups below [mid]. *)
Definition layerInv (ht : nat) (st : layerState) (mid : nat) : Prop :=
  let '(finished, (n, nodes)) := st in
  exists a,
    chain (groupRep (S ht) h) finished 0 a /\
    0 <= n <= 64 /\ length nodes = 64%nat /\
    Forall (fun x => length (keys x) = 64%nat) nodes /\
    chain (nodeRep ht h) (slice nodes 0 n) a mid /\
    (mid <= length h)%nat.

Lemma zeroInnerNodes_keys :
  Forall (fun x => length (keys x) = 64%nat) zeroInnerNodes.
Proof. apply Forall_forall. intros x Hx. apply repeat_spec in Hx. subst. reflexivity. Qed.

Lemma addChild_inv (ht : nat) (st : layerState) (cg : nodeGroup)
    (mid mid' : nat) :
  layerInv ht st mid -> groupRep ht h cg mid mid' ->
  layerInv ht (addChild h st cg) mid' /\
  0 < fst (snd (addChild h st cg)).
Proof.
  destruct st as [fin [n nodes]]. cbn [layerInv].
  intros (a & Hfin & Hn & Hlen & Hkeys & Hch & Hmid) Hcg.
  pose proof (proj1 Hcg) as Hb.
  unfold addChild, maxNodesPerGroup, maxKeysPerNode.
  destruct (Z.eqb_spec n 64) as [En|En].
  - subst n.
    assert (Hslot : length (keys (arr_get zeroInner zeroInnerNodes 0)) = 64%nat)
      by reflexivity.
    destruct (recalculateChildKeys_rep ht h cg mid mid'
                (numKeys (arr_get zeroInner zeroInnerNodes 0))
                (keys (arr_get zeroInner zeroInnerNodes 0)) Hh Hcg Hslot)
      as [Hnode Hnk].
    set (node := recalculateChildKeys h _) in *.
    change (u64 (0 + 1)) with (0 + 1).
    cbn [fst snd]. split; [|lia]. cbn [layerInv]. exists mid.
    split.
    { apply chain_app. exists a. split; [exact Hfin|].
      cbn [chain]. exists mid. split; [|reflexivity].
      split.
      - assert (a < mid)%nat; [|lia].
        apply (chain_nonempty (nodeRep ht h) (slice nodes 0 64) a mid);
          [apply nodeRep_lt| |exact Hch].
        intros E. apply (f_equal (@length _)) in E.
        pose proof (length_slice_0 nodes 64 ltac:(lia)). simpl in E. lia.
      - split; [lia|]. split; [exact Hlen|exact Hch]. }
    split; [lia|].
    split; [rewrite length_arr_set; reflexivity|].
    split.
    { unfold arr_set. rewrite set_nth_split by (simpl; lia).
      apply Forall_update; [apply zeroInnerNodes_keys|exact Hnk]. }
    split; [|lia].
    rewrite (slice_snoc zeroInner) by (simpl; lia).
    apply chain_app. exists mid. split; [reflexivity|].
    cbn [chain]. exists mid'. split; [exact Hnode|reflexivity].
  - assert (Hslot : length (keys (arr_get zeroInner nodes n)) = 64%nat).
    { apply (proj1 (Forall_forall _ _) Hkeys). apply nth_In. lia. }
    destruct (recalculateChildKeys_rep ht h cg mid mid'
                (numKeys (arr_get zeroInner nodes n))
                (keys (arr_get zeroInner nodes n)) Hh Hcg Hslot)
      as [Hnode Hnk].
    set (node := recalculateChildKeys h _) in *.
    rewrite u64_small by lia.
    cbn [fst snd]. split; [|lia]. cbn [layerInv]. exists a.
    split; [exact Hfin|]. split; [lia|].
    split; [rewrite length_arr_set; exact Hlen|].
    split.
    { unfold arr_set. rewrite set_nth_split by lia.
      apply Forall_update; [exact Hkeys|exact Hnk]. }
    split; [|lia].
    rewrite (slice_snoc zeroInner) by lia.
    apply chain_app. exists mid. split; [exact Hch|].
    cbn [chain]. exists mid'. split; [exact Hnode|reflexivity].
Qed.

Lemma addChild_fold (ht : nat) (cgs : list nodeGroup) :
  forall (st : layerState) (mid hi : nat),
    layerInv ht st mid ->
    chain (groupRep ht h) cgs mid hi ->
    (cgs <> [] \/ 0 < fst (snd st)) ->
    layerInv ht (fold_left (addChild h) cgs st) hi /\
    0 < fst (snd (fold_left (addChild h) cgs st)).
Proof.
  induction cgs as [|cg cgs IH]; intros st mid hi Hst Hch Hne;
    cbn [fold_left chain] in *.
  - subst hi. split; [exact Hst|]. destruct Hne as [Hne|Hne]; [contradiction|exact Hne].
  - destruct Hch as (m1 & Hcg & Hch).
    destruct (addChild_inv ht st cg mid m1 Hst Hcg) as [Hst' Hpos].
    apply (IH _ m1 hi Hst' Hch). right. exact Hpos.
Qed.

Lemma buildLayer_rep (ht : nat) (cgs : list nodeGroup) (hi : nat) :
  cgs <> [] ->
  chain (groupRep ht h) cgs 0 hi ->
  chain (groupRep (S ht) h) (buildLayer h cgs) 0 hi.
Proof.
  intros Hne Hch. unfold buildLayer.
  assert (H0 : layerInv ht ([], (0, zeroInnerNodes)) 0).
  { cbn [layerInv]. exists 0%nat. split; [reflexivity|]. split; [lia|].
    split; [reflexivity|]. split; [apply zeroInnerNodes_keys|].
    split; [reflexivity|lia]. }
  destruct (addChild_fold ht cgs _ 0%nat hi H0 Hch (or_introl Hne)) as [Hinv Hpos].
  destruct (fold_left (addChild h) cgs ([], (0, zeroInnerNodes)))
    as [fin [n nodes]].
  cbn [layerInv fst snd] in *.
  destruct Hinv as (a & Hfin & Hn & Hlen & _ & Hlast & Hhi).
  apply chain_app. exists a. split; [exact Hfin|].
  cbn [chain]. exists hi. split; [|reflexivity].
  split.
  - assert (a < hi)%nat; [|lia].
    apply (chain_nonempty (nodeRep ht h) (slice nodes 0 n) a hi);
      [apply nodeRep_lt| |exact Hlast].
    intros E. apply (f_equal (@length _)) in E.
    pose proof (length_slice_0 nodes n ltac:(lia)). simpl in E. lia.
  - split; [lia|]. split; [exact Hlen|exact Hlast].
Qed.

End Build.

Lemma buildLayer_nonempty (h : leafHeap) (cgs : list nodeGroup) :
  buildLayer h cgs <> [].
Proof.
  unfold buildLayer.
  destruct (fold_left (addChild h) cgs ([], (0, zeroInnerNodes)))
    as [fin [n nodes]].
  intros E. apply (f_equal (@length _)) in E.
  rewrite length_app in E. simpl in E. lia.
Qed.

Lemma buildTreeFromLeaves_rep (h : leafHeap) (hi : nat) :
  heapOk h ->
  forall (k : nat) (cgs : list nodeGroup) (ht : nat),
    (length cgs <= k)%nat ->
    cgs <> [] ->
    chain (groupRep ht h) cgs 0 hi ->
    exists ht', nodeRep ht' h (buildTreeFromLeaves h cgs) 0 hi.
Proof.
  intros Hh. induction k as [|k IH]; intros cgs ht Hk Hne Hch.
  - destruct cgs; [contradiction|simpl in Hk; lia].
  - pose proof (buildLayer_rep h Hh ht cgs hi Hne Hch) as Hlayer.
    rewrite buildTreeFromLeaves_equation_1.
    destruct (Nat.eq_dec (length (buildLayer h cgs)) 1) as [E|E].
    + rewrite buildTreeFromLeaves_clause_1_equation_1.
      destruct (buildLayer h cgs) as [|g [|g' l]]; try discriminate.
      cbn [nth chain] in *. destruct Hlayer as (mid & Hg & <-).
      exists (S ht).
      apply (recalculateChildKeys_rep (S ht) h g 0 mid 0 zeroKeys Hh Hg).
      reflexivity.
    + rewrite buildTreeFromLeaves_clause_1_equation_2.
      pose proof (buildLayer_shrinks h cgs E) as Hlt.
      apply (IH _ (S ht)); [lia|apply buildLayer_nonempty|exact Hlayer].
Qed.

Lemma leafGroups_chain (h : leafHeap) (n lo : nat) :
  (lo + n <= length h)%nat ->
  chain (groupRep 0 h) (map leafGroupAt (seq lo n)) lo (lo + n).
Proof.
  revert lo. induction n as [|n IH]; intros lo H; cbn [seq map chain].
  - lia.
  - exists (S lo). split.
    + split; [lia|]. auto.
    + replace (lo + S n)%nat with (S lo + n)%nat by lia. apply IH. lia.
Qed.

(** *** The trees of the claims *)

(** The invariant of a tree that holds the characters [cs]. *)
Definition treeOk (t : Tree) (cs : list (list byte)) : Prop :=
  heapOk (heap t) /\
  leavesValid (heap t) /\
  Z.of_nat (length (heapBytes (heap t))) < 18446744073709551616 /\
  wellFormed cs /\
  heapBytes (heap t) = concat cs /\
  exists ht, nodeRep ht (heap t) (root t) 0 (length (heap t)).

Lemma DeleteAtPosition_ok (t : Tree) (cs : list (list byte)) (p : Z) :
  treeOk t cs -> 0 <= p < 18446744073709551616 ->
  treeOk (DeleteAtPosition t p) (deleteChar p cs) /\
  (Z.of_nat (length cs) <= p -> DeleteAtPosition t p = t).
Proof.
  intros (Hh & Hval & Hsize & Hw & Hbytes & ht & Hroot) Hp.
  pose proof (inner_deleteAtPosition_spec (heap t) Hh Hsize Hval ht (root t)
                0 (length (heap t)) p cs Hroot Hp Hw) as Hdel.
  rewrite rangeBytes_all in Hdel. specialize (Hdel (eq_sym Hbytes)).
  unfold DeleteAtPosition.
  destruct (inner_deleteAtPosition (heap t) (root t) p) as [n' [[h' did] nl]].
  unfold deleted in Hdel.
  destruct (Z.ltb_spec p (Z.of_nat (length cs))) as [Hlt|Hge].
  - destruct Hdel as (_ & Hh' & Hv' & Hlen' & Hsame & Hn' & Hr' & _).
    split; [|lia]. unfold treeOk. cbn [heap root].
    rewrite <- Hlen', rangeBytes_all in Hr'.
    split; [exact Hh'|]. split; [exact Hv'|].
    split.
    { rewrite Hr'. pose proof (deleteChar_shorter p cs). rewrite <- Hbytes in H. lia. }
    split; [apply deleteChar_wellFormed; exact Hw|].
    split; [exact Hr'|]. exists ht. rewrite Hlen'. exact Hn'.
  - destruct Hdel as (-> & -> & _).
    assert (E : mkTree (root t) (heap t) = t) by (destruct t; reflexivity).
    rewrite E, deleteChar_out by lia.
    split; [|reflexivity].
    unfold treeOk. repeat (split; [assumption|]). exists ht. exact Hroot.
Qed.

(** *** Trees from readers *)

Lemma bulkLoadIntoLeaves_reader (r : Reader) :
  (readerFails r = false ->
   bulkLoadIntoLeaves r
   = if valid_utf8 (delivered r)
     then (Some (map leafGroupAt
                   (seq 0 (length (leafGroups
                                     (fold_left loadByte (delivered r) initialLoad)))),
                 leafGroups (fold_left loadByte (delivered r) initialLoad)), None)
     else (None, Some ErrInvalidUTF8)) /\
  (readerFails r = true ->
   fst (bulkLoadIntoLeaves r) = None /\
   exists e, snd (bulkLoadIntoLeaves r) = Some e).
Proof.
  unfold bulkLoadIntoLeaves.
  destruct (bulkLoad_loop_spec r NewValidator initialLoad eq_refl)
    as [Hclean Hfail].
  split.
  - intros Hf. rewrite (Hclean Hf).
    destruct (valid_utf8 (delivered r)) eqn:Hv.
    + apply runValidator_valid in Hv. unfold NewValidator. rewrite Hv.
      reflexivity.
    + destruct (ValidateEnd (runValidator NewValidator (delivered r))) eqn:He;
        [|reflexivity].
      apply ValidateEnd_accept in He. apply runValidator_valid in He.
      congruence.
  - intros Hf. destruct (Hfail Hf) as [H1 (e & H2)].
    destruct (bulkLoad_loop r NewValidator initialLoad) as [[st|] e'];
      cbn [fst snd] in *; [discriminate|].
    split; [reflexivity|]. exists e. exact H2.
Qed.

Lemma NewTreeFromReader_spec (r : Reader) :
  (readerFails r = false -> valid_utf8 (delivered r) = true ->
   exists t, NewTreeFromReader r = (Some t, None)) /\
  (readerFails r = false -> valid_utf8 (delivered r) = false ->
   NewTreeFromReader r = (None, Some ErrInvalidUTF8)) /\
  (readerFails r = true ->
   fst (NewTreeFromReader r) = None /\
   exists e, snd (NewTreeFromReader r) = Some e).
Proof.
  destruct (bulkLoadIntoLeaves_reader r) as [Hclean Hfail].
  unfold NewTreeFromReader. split; [|split].
  - intros Hf Hv. rewrite (Hclean Hf), Hv. eexists. reflexivity.
  - intros Hf Hv. rewrite (Hclean Hf), Hv. reflexivity.
  - intros Hf. destruct (Hfail Hf) as [H1 (e & H2)].
    destruct (bulkLoadIntoLeaves r) as [[x|] e']; cbn [fst snd] in *;
      [discriminate|].
    subst e'. split; [reflexivity|]. exists e. reflexivity.
Qed.

Lemma NewTreeFromReader_ok (r : Reader) (cs : list (list byte)) (t : Tree) :
  utf8_decode (delivered r) = Some cs ->
  Z.of_nat (length (delivered r)) < 18446744073709551616 ->
  NewTreeFromReader r = (Some t, None) ->
  treeOk t cs.
Proof.
  intros Hdec Hlen Hnew.
  assert (Hv : valid_utf8 (delivered r) = true)
    by (unfold valid_utf8; rewrite Hdec; reflexivity).
  destruct (utf8_decode_sound _ cs Hdec) as [Hw Hcat].
  destruct (bulkLoadIntoLeaves_reader r) as [Hclean Hfail].
  destruct (readerFails r) eqn:Hf.
  { destruct (proj2 (proj2 (NewTreeFromReader_spec r)) Hf) as [H1 _].
    rewrite Hnew in H1. discriminate. }
  unfold NewTreeFromReader in Hnew. rewrite (Hclean eq_refl), Hv in Hnew.
  injection Hnew as <-.
  destruct (load_string (delivered r) Hv) as (Hh & Hval & Hbytes).
  set (h := leafGroups (fold_left loadByte (delivered r) initialLoad)) in *.
  unfold treeOk. cbn [heap root].
  split; [exact Hh|]. split; [apply leavesValid_leaves; exact Hval|].
  split; [rewrite Hbytes; exact Hlen|]. split; [exact Hw|].
  split; [rewrite Hbytes; symmetry; exact Hcat|].
  apply (buildTreeFromLeaves_rep h (length h) Hh (length h) _ 0%nat).
  - rewrite length_map, length_seq. lia.
  - destruct Hh as [Hne _]. destruct h; [contradiction|discriminate].
  - apply (leafGroups_chain h (length h) 0). lia.
Qed.

Lemma NewTreeFromString_ok (s : list byte) (cs : list (list byte)) (t : Tree) :
  utf8_decode s = Some cs ->
  Z.of_nat (length s) < 18446744073709551616 ->
  NewTreeFromString s = (Some t, None) ->
  treeOk t cs.
Proof.
  intros Hdec Hlen Hnew. destruct (stringsNewReader_clean s) as [Hd _].
  apply (NewTreeFromReader_ok (stringsNewReader s)); rewrite ?Hd; assumption.
Qed.

Lemma NewTree_ok : treeOk NewTree [].
Proof.
  unfold treeOk, NewTree. cbn [heap root].
  assert (Hg : groupOk (mkLeafGroup None None 1 (repeat zeroLeaf 64))).
  { split; [cbn [lg_numNodes]; lia|]. split; [reflexivity|apply zeroLeaves_ok]. }
  split.
  { split; [discriminate|]. intros p Hp. simpl in Hp.
    replace p with 0%nat by lia. split; [exact Hg|reflexivity]. }
  split.
  { intros p Hp. simpl in Hp. replace p with 0%nat by lia.
    repeat constructor. apply validBytes_nil. }
  split; [reflexivity|]. split; [constructor|]. split; [reflexivity|].
  exists 0%nat. rewrite nodeRep_eq. cbn [length].
  split; [reflexivity|]. split; [lia|]. split; [reflexivity|].
  split; [reflexivity|auto].
Qed.

Lemma built_ok (t : Tree) (cs : list (list byte)) : built t cs -> treeOk t cs.
Proof.
  induction 1 as [|s cs t Hdec Hlen Hnew|r cs t Hdec Hlen Hnew|t cs p _ IH Hp].
  - apply NewTree_ok.
  - apply (NewTreeFromString_ok s); assumption.
  - apply (NewTreeFromReader_ok r); assumption.
  - apply DeleteAtPosition_ok; assumption.
Qed.

(** *** Reading a tree *)

Lemma Read_loop_more_fuel (h : leafHeap) (lenb : Z) (fuel : nat) :
  forall (fuel' : nat) (c : Cursor) (i : Z) (out : list byte) (r : readResult),
    (fuel <= fuel')%nat ->
    Read_loop fuel h c lenb i out = Some r ->
    Read_loop fuel' h c lenb i out = Some r.
Proof.
  induction fuel as [|fuel IH]; intros fuel' c i out r Hle H; [discriminate|].
  destruct fuel' as [|fuel']; [lia|].
  cbn [Read_loop] in *.
  destruct (i =? lenb); [exact H|].
  destruct (group c); [|exact H].
  apply IH; [lia|exact H].
Qed.

Definition fuelFor (h : leafHeap) : nat := 128 * length h + 2.

Lemma nodesLeft_bound (h : leafHeap) (c : Cursor) :
  heapOk h -> cursorOk h c -> (2 * nodesLeft h c + 2 <= fuelFor h)%nat.
Proof.
  intros [_ Hall] Hc. unfold nodesLeft, fuelFor, cursorOk in *.
  destruct (group c) as [p|]; [|lia].
  destruct Hc as (Hp & Hn & _).
  destruct (Hall p Hp) as [(Hnum & _) _]. lia.
Qed.

Lemma Read_ok (h : leafHeap) (c : Cursor) (lenb : Z) (fuel : nat) :
  heapOk h -> cursorOk h c -> 0 <= lenb -> (fuelFor h <= fuel)%nat ->
  readSpec h c lenb 0 [] (Read fuel h c lenb).
Proof.
  intros Hh Hc Hl Hf. apply Read_spec; try assumption.
  pose proof (nodesLeft_bound h c Hh Hc). lia.
Qed.

Lemma Read_some (h : leafHeap) (c : Cursor) (lenb : Z) (fuel : nat)
    (r : readResult) :
  heapOk h -> cursorOk h c -> 0 <= lenb ->
  Read fuel h c lenb = Some r ->
  readSpec h c lenb 0 [] (Some r).
Proof.
  intros Hh Hc Hl H.
  pose proof (Read_ok h c lenb (Nat.max fuel (fuelFor h)) Hh Hc Hl ltac:(lia)) as Hs.
  unfold Read in *.
  rewrite (Read_loop_more_fuel h lenb fuel (Nat.max fuel (fuelFor h)) c 0 [] r
             ltac:(lia) H) in Hs.
  exact Hs.
Qed.

Lemma readToEnd_spec (h : leafHeap) (lenb : Z) (fuel : nat) :
  heapOk h -> 1 <= lenb -> (fuelFor h <= fuel)%nat ->
  forall (rounds : nat) (c : Cursor),
    cursorOk h c ->
    (length (remaining h c) < rounds)%nat ->
    readToEnd rounds fuel h c lenb = Some (remaining h c).
Proof.
  intros Hh Hl Hf. induction rounds as [|rounds IH]; intros c Hc Hr; [lia|].
  cbn [readToEnd].
  destruct (Read_ok h c lenb fuel Hh Hc ltac:(lia) Hf)
    as (r & -> & Hb & _ & He & Hc' & Hrem).
  rewrite Z.sub_0_r in *. cbn [app] in Hb. rewrite He.
  destruct (Z.leb_spec lenb (Z.of_nat (length (remaining h c)))) as [Hle|Hgt].
  - rewrite IH; [|exact Hc'|rewrite Hrem, length_skipn; lia].
    cbn [option_map]. rewrite Hb, Hrem, firstn_skipn. reflexivity.
  - rewrite Hb, firstn_all2 by lia. reflexivity.
Qed.

Lemma cursorOf_ok (t : Tree) (cs : list (list byte)) (c : Cursor) :
  treeOk t cs -> cursorOf t c -> cursorOk (heap t) c.
Proof.
  intros (Hh & Hval & Hsize & Hw & Hbytes & ht & Hroot).
  induction 1 as [p Hp|l Hl|c fuel lenb r _ IH Hlen Hread].
  - apply (inner_cursorAtPosition_spec (heap t) Hh Hsize ht _ _ _ p Hroot Hp).
  - unfold CursorAtLine. destruct (l =? 0).
    + apply (inner_cursorAtPosition_spec (heap t) Hh Hsize ht _ _ _ 0 Hroot).
      lia.
    + apply (inner_cursorAfterNewline_spec (heap t) Hh Hsize ht _ _ _ _ Hroot).
      unfold u64. apply Z.mod_pos_bound. lia.
  - destruct (Read_some (heap t) c lenb fuel r Hh IH Hlen Hread)
      as (r' & [= <-] & _ & _ & _ & Hok & _).
    exact Hok.
Qed.

(** *** What the cursors of a tree read *)

Lemma CursorAtPosition_remaining (t : Tree) (cs : list (list byte)) (p : Z) :
  treeOk t cs -> 0 <= p < 18446744073709551616 ->
  cursorOk (heap t) (CursorAtPosition t p) /\
  remaining (heap t) (CursorAtPosition t p) = concat (skipn (Z.to_nat p) cs).
Proof.
  intros (Hh & Hval & Hsize & Hw & Hbytes & ht & Hroot) Hp.
  destruct (inner_cursorAtPosition_spec (heap t) Hh Hsize ht _ _ _ p Hroot Hp)
    as [Hok Hrem].
  split; [exact Hok|]. unfold CursorAtPosition. rewrite Hrem.
  rewrite rangeBytes_all, skipn_all, Hbytes. cbn [heapBytes map concat].
  rewrite app_nil_r. apply dropChars_chars. exact Hw.
Qed.

Lemma CursorAtLine_remaining (t : Tree) (cs : list (list byte)) (l : Z) :
  treeOk t cs -> 0 <= l < 18446744073709551616 ->
  cursorOk (heap t) (CursorAtLine t l) /\
  remaining (heap t) (CursorAtLine t l)
  = if l =? 0 then concat cs
    else afterNewline (Z.to_nat (l - 1)) (concat cs).
Proof.
  intros Hok Hl. unfold CursorAtLine.
  destruct (Z.eqb_spec l 0) as [->|Hne].
  - destruct (CursorAtPosition_remaining t cs 0 Hok ltac:(lia)) as [H1 H2].
    split; [exact H1|exact H2].
  - destruct Hok as (Hh & Hval & Hsize & Hw & Hbytes & ht & Hroot).
    rewrite u64_small by lia.
    destruct (inner_cursorAfterNewline_spec (heap t) Hh Hsize ht _ _ _ (l - 1)
                Hroot ltac:(lia)) as [Hok Hrem].
    split; [exact Hok|]. rewrite Hrem.
    rewrite rangeBytes_all, skipn_all, Hbytes. cbn [heapBytes map concat].
    apply app_nil_r.
Qed.

Lemma afterNewline_at (before after : list byte) :
  afterNewline (Z.to_nat (countNewlines before)) (before ++ newline :: after)
  = after.
Proof.
  rewrite afterNewline_app_ge by (pose proof (countNewlines_bound before); lia).
  rewrite Nat.sub_diag. reflexivity.
Qed.

Lemma chars_count (t : Tree) (cs : list (list byte)) :
  treeOk t cs -> Z.of_nat (length cs) < 18446744073709551616.
Proof.
  intros (_ & _ & Hsize & Hw & Hbytes & _).
  pose proof (charCount_chars cs Hw) as Hc.
  pose proof (charCount_bound (concat cs)) as Hb.
  rewrite Hbytes in Hsize. lia.
Qed.

Lemma NewTreeFromReader_delivered (r1 r2 : Reader) :
  readerFails r1 = false -> readerFails r2 = false ->
  delivered r1 = delivered r2 ->
  NewTreeFromReader r1 = NewTreeFromReader r2.
Proof.
  intros H1 H2 E. unfold NewTreeFromReader.
  rewrite (proj1 (bulkLoadIntoLeaves_reader r1) H1).
  rewrite (proj1 (bulkLoadIntoLeaves_reader r2) H2).
  rewrite E. reflexivity.
Qed.

(** C1.  For every valid UTF-8 string [s] (of less than 2^64 bytes),
    [NewTreeFromString s] returns a tree and no error, and so does
    [NewTreeFromReader] for every reader that delivers the bytes of [s]; a
    [Read] at the cursor of character offset 0 returns the first bytes of
    [s], and reading this cursor until io.EOF, through a buffer of any
    positive length, gives exactly the bytes of [s]. *)
Theorem roundtrip (s : list byte) :
  valid_utf8 s = true ->
  Z.of_nat (length s) < 18446744073709551616 ->
  exists t,
    NewTreeFromString s = (Some t, None) /\
    (forall r, readerFails r = false -> delivered r = s ->
               NewTreeFromReader r = (Some t, None)) /\
    cursorReads (heap t) (CursorAtPosition t 0) s /\
    (forall lenb, 1 <= lenb ->
       exists n0, forall rounds fuel,
         (n0 <= rounds)%nat -> (n0 <= fuel)%nat ->
         readToEnd rounds fuel (heap t) (CursorAtPosition t 0) lenb = Some s).
Proof.
  intros Hv Hlen.
  destruct (stringsNewReader_clean s) as [Hd Hf].
  destruct (proj1 (NewTreeFromReader_spec (stringsNewReader s)) Hf) as (t & Ht).
  { rewrite Hd. exact Hv. }
  exists t. split; [exact Ht|].
  split.
  { intros r Hr Hdr. rewrite <- Ht.
    apply NewTreeFromReader_delivered; [exact Hr|exact Hf|].
    rewrite Hd. exact Hdr. }
  apply valid_utf8_decode in Hv. destruct Hv as (cs & Hdec).
  pose proof (NewTreeFromString_ok s cs t Hdec Hlen Ht) as Hok.
  destruct (utf8_decode_sound s cs Hdec) as [_ Hcat].
  destruct (CursorAtPosition_remaining t cs 0 Hok ltac:(lia)) as [Hc Hrem].
  cbn [Z.to_nat skipn] in Hrem. rewrite Hcat in Hrem.
  pose proof Hok as (Hh & _).
  split.
  - rewrite <- Hrem. apply cursorReads_remaining; assumption.
  - intros lenb Hl. exists (Nat.max (S (length s)) (fuelFor (heap t))).
    intros rounds fuel Hr Hfu. rewrite <- Hrem.
    apply readToEnd_spec; try assumption; try lia.
    rewrite Hrem. lia.
Qed.

(** C2.  After building a tree and any sequence of deletions, with [cs] the
    characters of the current content: the cursor at a character offset
    [p] below the length reads from the [p]-th character on; the cursor at
    line 0 reads the whole content; the cursor at line [l > 0] reads what
    follows the [l]-th newline, and nothing when the content has fewer than
    [l] newlines. *)
Theorem cursors_after_deletions (t : Tree) (cs : list (list byte)) :
  built t cs ->
  (forall p : Z,
     0 <= p < Z.of_nat (length cs) ->
     cursorReads (heap t) (CursorAtPosition t p)
                 (concat (skipn (Z.to_nat p) cs))) /\
  cursorReads (heap t) (CursorAtLine t 0) (concat cs) /\
  (forall (l : Z) (before after : list byte),
     0 < l < 18446744073709551616 ->
     concat cs = before ++ newline :: after ->
     countNewlines before = l - 1 ->
     cursorReads (heap t) (CursorAtLine t l) after) /\
  (forall l : Z,
     countNewlines (concat cs) < l < 18446744073709551616 ->
     cursorReads (heap t) (CursorAtLine t l) []).
Proof.
  intros Hb. apply built_ok in Hb. pose proof Hb as (Hh & _).
  pose proof (chars_count t cs Hb) as Hn.
  split; [|split; [|split]].
  - intros p Hp.
    destruct (CursorAtPosition_remaining t cs p Hb ltac:(lia)) as [Hc Hrem].
    rewrite <- Hrem. apply cursorReads_remaining; assumption.
  - destruct (CursorAtLine_remaining t cs 0 Hb ltac:(lia)) as [Hc Hrem].
    cbn [Z.eqb] in Hrem. rewrite <- Hrem.
    apply cursorReads_remaining; assumption.
  - intros l before after Hl Hcat Hcount.
    destruct (CursorAtLine_remaining t cs l Hb ltac:(lia)) as [Hc Hrem].
    destruct (Z.eqb_spec l 0) as [|_]; [lia|].
    rewrite Hcat, <- Hcount, afterNewline_at in Hrem.
    rewrite <- Hrem. apply cursorReads_remaining; assumption.
  - intros l Hl.
    pose proof (countNewlines_bound (concat cs)) as Hcb.
    destruct (CursorAtLine_remaining t cs l Hb ltac:(lia)) as [Hc Hrem].
    destruct (Z.eqb_spec l 0) as [|_]; [lia|].
    rewrite afterNewline_all in Hrem by lia.
    rewrite <- Hrem. apply cursorReads_remaining; assumption.
Qed.

(** C3.  For a tree whose content has [length cs] characters and a position
    [p] at or past this length: [DeleteAtPosition t p] is [t] itself, and
    every [Read] at [CursorAtPosition t p] returns no byte (with io.EOF as
    soon as the buffer is not empty). *)
Theorem past_the_end (t : Tree) (cs : list (list byte)) (p : Z) :
  built t cs ->
  Z.of_nat (length cs) <= p < 18446744073709551616 ->
  DeleteAtPosition t p = t /\
  cursorReads (heap t) (CursorAtPosition t p) [].
Proof.
  intros Hb Hp. apply built_ok in Hb. pose proof Hb as (Hh & _).
  split.
  - apply (DeleteAtPosition_ok t cs p Hb); lia.
  - destruct (CursorAtPosition_remaining t cs p Hb ltac:(lia)) as [Hc Hrem].
    rewrite skipn_all2 in Hrem by lia. cbn [concat] in Hrem.
    rewrite <- Hrem. apply cursorReads_remaining; assumption.
Qed.

(** A text that ends inside a character is not well-formed. *)
Lemma truncated_is_invalid (cs : list (list byte)) (c pre suf : list byte) :
  wellFormed cs -> wf_char c = true -> c = pre ++ suf ->
  pre <> [] -> suf <> [] ->
  valid_utf8 (concat cs ++ pre) = false.
Proof.
  intros Hw Hc -> Hpre Hsuf. unfold valid_utf8.
  induction Hw as [|x cs Hx _ IH].
  - cbn [concat app].
    destruct pre as [|b1 [|b2 [|b3 [|b4 pre]]]]; [contradiction| | | |].
    + destruct suf as [|s1 suf]; [contradiction|].
      cbn [app] in Hc. cbn [utf8_decode].
      rewrite (wf_char_prefix1 _ _ _ Hc). reflexivity.
    + destruct suf as [|s1 suf]; [contradiction|].
      cbn [app] in Hc. cbn [utf8_decode].
      rewrite (wf_char_prefix1 _ _ _ Hc), (wf_char_prefix2 _ _ _ _ Hc).
      reflexivity.
    + destruct suf as [|s1 suf]; [contradiction|].
      cbn [app] in Hc. cbn [utf8_decode].
      rewrite (wf_char_prefix1 _ _ _ Hc), (wf_char_prefix2 _ _ _ _ Hc),
        (wf_char_prefix3 _ _ _ _ _ Hc).
      reflexivity.
    + destruct suf as [|s1 suf]; [contradiction|].
      cbn [app] in Hc. destruct pre; discriminate.
  - cbn [concat]. rewrite <- app_assoc, utf8_decode_char by exact Hx.
    destruct (utf8_decode (concat cs ++ pre)); [discriminate|reflexivity].
Qed.

(** C4.  When the bytes of a string, or the bytes a reader delivers, are not
    well-formed UTF-8 (this includes a text that ends inside a character),
    [NewTreeFromString] and [NewTreeFromReader] return the error "invalid
    UTF-8" and a nil tree. *)
Theorem invalid_utf8_gives_no_tree (s : list byte) :
  valid_utf8 s = false ->
  NewTreeFromString s = (None, Some ErrInvalidUTF8) /\
  (forall r, readerFails r = false -> delivered r = s ->
             NewTreeFromReader r = (None, Some ErrInvalidUTF8)).
Proof.
  intros Hv. destruct (stringsNewReader_clean s) as [Hd Hf]. split.
  - apply (proj1 (proj2 (NewTreeFromReader_spec (stringsNewReader s))) Hf).
    rewrite Hd. exact Hv.
  - intros r Hr Hdr.
    apply (proj1 (proj2 (NewTreeFromReader_spec r)) Hr).
    rewrite Hdr. exact Hv.
Qed.

Lemma validBytes_chars (ls : list (list byte)) :
  Forall validBytes ls ->
  exists css, ls = map (@concat byte) css /\ Forall wellFormed css.
Proof.
  induction 1 as [|l ls (cs & Hw & <-) _ (css & -> & Hall)].
  - exists []. split; [reflexivity|constructor].
  - exists (cs :: css). split; [reflexivity|constructor; assumption].
Qed.

Lemma concat_flat {A : Type} (lss : list (list (list A))) :
  concat (map (@concat A) lss) = concat (concat lss).
Proof.
  induction lss as [|ls lss IH]; [reflexivity|].
  cbn [map concat]. rewrite concat_app, IH. reflexivity.
Qed.

Lemma wellFormed_concat (css : list (list (list byte))) :
  Forall wellFormed css -> wellFormed (concat css).
Proof.
  induction 1 as [|cs css H _ IH]; [constructor|].
  cbn [concat]. apply wellFormed_app. split; assumption.
Qed.

(** C5.  In a tree built by bulk construction, also after deletions, every
    leaf node holds at most 63 bytes (in its array of 63), and the leaves
    hold whole characters: the characters of the content are those of the
    first leaf, followed by those of the second leaf, and so on. *)
Theorem leaves_hold_whole_characters (t : Tree) (cs : list (list byte)) :
  built t cs ->
  (forall (p : nat) (l : leafNode),
     (p < length (heap t))%nat ->
     In l (liveNodes (getGroup (heap t) p)) ->
     0 <= numBytes l <= maxBytesPerLeaf /\ length (textBytes l) = 63%nat) /\
  exists css : list (list (list byte)),
    leaves (heap t) = map (@concat byte) css /\
    Forall wellFormed css /\
    concat css = cs.
Proof.
  intros Hb. apply built_ok in Hb.
  destruct Hb as (Hh & Hval & Hsize & Hw & Hbytes & _).
  split.
  - intros p l Hp Hl. destruct (proj2 Hh p Hp) as [(Hn & Hlen & Hall) _].
    apply (proj1 (Forall_forall _ _) Hall).
    unfold liveNodes in Hl. rewrite slice_0 in Hl.
    rewrite <- (firstn_skipn (Z.to_nat (lg_numNodes (getGroup (heap t) p)))).
    apply in_or_app. left. exact Hl.
  - apply leavesValid_leaves in Hval.
    destruct (validBytes_chars _ Hval) as (css & Hl & Hall).
    exists css. split; [exact Hl|]. split; [exact Hall|].
    apply wellFormed_inj; [apply wellFormed_concat; exact Hall|exact Hw|].
    rewrite <- Hbytes, heapBytes_leaves, Hl. symmetry. apply concat_flat.
Qed.

(** C10.  For a cursor of a tree (one returned by [CursorAtPosition] or
    [CursorAtLine], also after earlier reads), [Read(b)] returns the first
    [len(b)] of the bytes between the cursor and the end of the text with
    [(len(b), nil)] when that many bytes are left, and all the [k] bytes
    that are left with [(k, io.EOF)] when [k < len(b)]; the cursor is then
    past the bytes returned. *)
Theorem read_fills_or_eof (t : Tree) (cs : list (list byte)) (c : Cursor)
    (lenb : Z) :
  built t cs -> cursorOf t c -> 0 <= lenb ->
  exists fuel0 : nat,
  forall fuel : nat,
    (fuel0 <= fuel)%nat ->
    exists r : readResult,
      Read fuel (heap t) c lenb = Some r /\
      r_bytes r = firstn (Z.to_nat lenb) (remaining (heap t) c) /\
      r_n r = Z.of_nat (length (r_bytes r)) /\
      ((r_n r = lenb /\ r_err r = None /\
        lenb <= Z.of_nat (length (remaining (heap t) c))) \/
       (r_n r < lenb /\ r_err r = Some EOF /\
        r_n r = Z.of_nat (length (remaining (heap t) c)))) /\
      remaining (heap t) (r_cursor r)
      = skipn (Z.to_nat lenb) (remaining (heap t) c).
Proof.
  intros Hb Hc Hl. apply built_ok in Hb.
  pose proof (cursorOf_ok t cs c Hb Hc) as Hok. destruct Hb as (Hh & _).
  exists (fuelFor (heap t)). intros fuel Hf.
  destruct (Read_ok (heap t) c lenb fuel Hh Hok Hl Hf)
    as (r & E & Hby & Hn & He & _ & Hrem).
  rewrite Z.sub_0_r in *. cbn [app] in Hby. rewrite Z.add_0_l in Hn.
  exists r. split; [exact E|]. split; [exact Hby|].
  split; [rewrite Hby, length_firstn; lia|].
  split; [|exact Hrem].
  destruct (Z.leb_spec lenb (Z.of_nat (length (remaining (heap t) c))));
    [left|right]; repeat split; try assumption; lia.
Qed.
(** *** A sample tree: "a\né\nb", then without its first character *)

Definition sampleText : list byte := [x61; x0a; xc3; xa9; x0a; x62].

Definition sampleChars : list (list byte) :=
  [[x61]; [x0a]; [xc3; xa9]; [x0a]; [x62]].

Definition sampleTree : Tree :=
  match NewTreeFromString sampleText with
  | (Some t, _) => t
  | _ => NewTree
  end.

Lemma sampleTree_built : built sampleTree sampleChars.
Proof.
  apply (built_new sampleText).
  - reflexivity.
  - simpl. lia.
  - vm_compute. reflexivity.
Qed.

Lemma sampleTree_deleted_built :
  built (DeleteAtPosition sampleTree 0) (skipn 1 sampleChars).
Proof.
  apply (built_delete sampleTree sampleChars 0); [apply sampleTree_built|lia].
Qed.

Lemma roundtrip_witness :
  exists t,
    NewTreeFromString sampleText = (Some t, None) /\
    (forall r, readerFails r = false -> delivered r = sampleText ->
               NewTreeFromReader r = (Some t, None)) /\
    cursorReads (heap t) (CursorAtPosition t 0) sampleText /\
    (forall lenb, 1 <= lenb ->
       exists n0, forall rounds fuel,
         (n0 <= rounds)%nat -> (n0 <= fuel)%nat ->
         readToEnd rounds fuel (heap t) (CursorAtPosition t 0) lenb
         = Some sampleText).
Proof.
  apply (roundtrip sampleText).
  - reflexivity.
  - simpl. lia.
Defined.

Lemma cursors_after_deletions_witness :
  cursorReads (heap (DeleteAtPosition sampleTree 0))
              (CursorAtLine (DeleteAtPosition sampleTree 0) 2) [x62].
Proof.
  apply (proj1 (proj2 (proj2 (cursors_after_deletions
                                (DeleteAtPosition sampleTree 0)
                                (skipn 1 sampleChars)
                                sampleTree_deleted_built)))
           2 [x0a; xc3; xa9] [x62]).
  - lia.
  - reflexivity.
  - reflexivity.
Defined.

Lemma past_the_end_witness :
  DeleteAtPosition sampleTree 5 = sampleTree /\
  cursorReads (heap sampleTree) (CursorAtPosition sampleTree 5) [].
Proof.
  apply (past_the_end sampleTree sampleChars 5).
  - apply sampleTree_built.
  - simpl. lia.
Defined.

Lemma invalid_utf8_witness :
  NewTreeFromString [x61; xe2; x82] = (None, Some ErrInvalidUTF8) /\
  (forall r, readerFails r = false -> delivered r = [x61; xe2; x82] ->
             NewTreeFromReader r = (None, Some ErrInvalidUTF8)).
Proof.
  apply (invalid_utf8_gives_no_tree [x61; xe2; x82]). reflexivity.
Defined.

Lemma leaves_witness :
  (forall (p : nat) (l : leafNode),
     (p < length (heap (DeleteAtPosition sampleTree 0)))%nat ->
     In l (liveNodes (getGroup (heap (DeleteAtPosition sampleTree 0)) p)) ->
     0 <= numBytes l <= maxBytesPerLeaf /\ length (textBytes l) = 63%nat) /\
  exists css : list (list (list byte)),
    leaves (heap (DeleteAtPosition sampleTree 0)) = map (@concat byte) css /\
    Forall wellFormed css /\
    concat css = skipn 1 sampleChars.
Proof.
  apply (leaves_hold_whole_characters (DeleteAtPosition sampleTree 0)
           (skipn 1 sampleChars)).
  apply sampleTree_deleted_built.
Defined.

Lemma read_witness :
  exists fuel0 : nat,
  forall fuel : nat,
    (fuel0 <= fuel)%nat ->
    exists r : readResult,
      Read fuel (heap sampleTree) (CursorAtLine sampleTree 1) 4 = Some r /\
      r_bytes r
      = firstn (Z.to_nat 4)
          (remaining (heap sampleTree) (CursorAtLine sampleTree 1)) /\
      r_n r = Z.of_nat (length (r_bytes r)) /\
      ((r_n r = 4 /\ r_err r = None /\
        4 <= Z.of_nat (length (remaining (heap sampleTree)
                                 (CursorAtLine sampleTree 1)))) \/
       (r_n r < 4 /\ r_err r = Some EOF /\
        r_n r = Z.of_nat (length (remaining (heap sampleTree)
                                    (CursorAtLine sampleTree 1))))) /\
      remaining (heap sampleTree) (r_cursor r)
      = skipn (Z.to_nat 4)
          (remaining (heap sampleTree) (CursorAtLine sampleTree 1)).
Proof.
  apply (read_fills_or_eof sampleTree sampleChars (CursorAtLine sampleTree 1) 4).
  - apply sampleTree_built.
  - apply cursor_at_line. lia.
  - lia.
Defined.

(** The sample, computed. *)
Example sample_reads :
  option_map r_bytes
    (Read 10 (heap sampleTree) (CursorAtLine sampleTree 1) 4)
  = Some [xc3; xa9; x0a; x62] /\
  option_map r_bytes
    (Read 10 (heap (DeleteAtPosition sampleTree 2))
       (CursorAtPosition (DeleteAtPosition sampleTree 2) 1) 10)
  = Some [x0a; x0a; x62].
Proof. split; vm_compute; reflexivity. Qed.

(** *** Further properties of the tree *)

(** [DeleteAtPosition] at a position below the length removes exactly the
    character at this position: the tree then reads, from offset 0, the
    characters before it followed by the characters after it; and the number
    of leaf groups stays the same. *)
Theorem delete_removes_character (t : Tree) (cs : list (list byte)) (p : Z) :
  built t cs ->
  0 <= p < Z.of_nat (length cs) ->
  cursorReads (heap (DeleteAtPosition t p))
              (CursorAtPosition (DeleteAtPosition t p) 0)
              (concat (firstn (Z.to_nat p) cs)
               ++ concat (skipn (S (Z.to_nat p)) cs)) /\
  length (heap (DeleteAtPosition t p)) = length (heap t).
Proof.
  intros Hb Hp. apply built_ok in Hb.
  pose proof (chars_count t cs Hb) as Hn.
  destruct (DeleteAtPosition_ok t cs p Hb ltac:(lia)) as [Hok _].
  split.
  - destruct (CursorAtPosition_remaining _ _ 0 Hok ltac:(lia)) as [Hc Hrem].
    cbn [Z.to_nat skipn] in Hrem.
    rewrite deleteChar_in, concat_app in Hrem by lia.
    rewrite <- Hrem. apply cursorReads_remaining; [apply Hok|exact Hc].
  - destruct Hb as (Hh & Hval & Hsize & Hw & Hbytes & ht & Hroot).
    pose proof (inner_deleteAtPosition_spec (heap t) Hh Hsize Hval ht (root t)
                  0 (length (heap t)) p cs Hroot ltac:(lia) Hw) as Hdel.
    rewrite rangeBytes_all in Hdel. specialize (Hdel (eq_sym Hbytes)).
    unfold DeleteAtPosition.
    destruct (inner_deleteAtPosition (heap t) (root t) p) as [n' [[h' did] nl]].
    unfold deleted in Hdel.
    destruct (Z.ltb_spec p (Z.of_nat (length cs))) as [_|]; [|lia].
    cbn [heap]. apply Hdel.
Qed.

Lemma delete_removes_character_witness :
  cursorReads (heap (DeleteAtPosition sampleTree 2))
              (CursorAtPosition (DeleteAtPosition sampleTree 2) 0)
              ([x61; x0a] ++ [x0a; x62]) /\
  length (heap (DeleteAtPosition sampleTree 2)) = length (heap sampleTree).
Proof.
  apply (delete_removes_character sampleTree sampleChars 2).
  - apply sampleTree_built.
  - simpl. lia.
Defined.

(** The key of the root counts the text: its [numChars] is the number of
    characters and its [numNewlines] the number of newline characters of the
    content, for every tree built and after every deletion. *)
Theorem root_key_counts (t : Tree) (cs : list (list byte)) :
  built t cs ->
  inner_key (root t)
  = mkKey (Z.of_nat (length cs)) (countNewlines (concat cs)).
Proof.
  intros Hb. apply built_ok in Hb.
  destruct Hb as (Hh & Hval & Hsize & Hw & Hbytes & ht & Hroot).
  rewrite (nodeRep_key (heap t) Hh Hsize ht _ _ _ Hroot).
  rewrite rangeBytes_all, Hbytes. unfold keyOf.
  rewrite charCount_chars by exact Hw. reflexivity.
Qed.

Lemma root_key_counts_witness :
  inner_key (root (DeleteAtPosition sampleTree 0)) = mkKey 4 2.
Proof.
  apply (root_key_counts (DeleteAtPosition sampleTree 0) (skipn 1 sampleChars)).
  apply sampleTree_deleted_built.
Defined.



Definition sampleRead (c : Cursor) (lenb : Z) : readResult :=
  match Read 10 (heap sampleTree) c lenb with
  | Some r => r
  | None => mkRead nilCursor [] 0 None
  end.


(** Once [Read] has returned io.EOF, every later [Read] into a buffer that is
    not empty returns [(0, io.EOF)]. *)
Theorem eof_is_sticky (t : Tree) (cs : list (list byte)) (c : Cursor)
    (n n' : Z) (f : nat) (r : readResult) :
  built t cs -> cursorOf t c -> 0 <= n -> 1 <= n' ->
  Read f (heap t) c n = Some r ->
  r_err r = Some EOF ->
  exists fuel0 : nat,
  forall fuel : nat,
    (fuel0 <= fuel)%nat ->
    exists r' : readResult,
      Read fuel (heap t) (r_cursor r) n' = Some r' /\
      r_bytes r' = [] /\ r_n r' = 0 /\ r_err r' = Some EOF.
Proof.
  intros Hb Hc Hn Hn' E Herr. apply built_ok in Hb.
  pose proof (cursorOf_ok t cs c Hb Hc) as Hok. pose proof Hb as (Hh & _).
  destruct (Read_some _ c n f r Hh Hok Hn E)
    as (? & [= <-] & _ & _ & He & Hok1 & Hrem1).
  rewrite Z.sub_0_r in *. rewrite Herr in He.
  destruct (Z.leb_spec n (Z.of_nat (length (remaining (heap t) c))))
    as [|Hshort]; [discriminate|].
  rewrite skipn_all2 in Hrem1 by lia.
  exists (fuelFor (heap t)). intros fuel Hf.
  destruct (Read_ok _ (r_cursor r) n' fuel Hh Hok1 ltac:(lia) Hf)
    as (r' & E' & Hb' & Hn2 & He' & _).
  rewrite Hrem1, Z.sub_0_r in *. cbn [length app] in *.
  rewrite firstn_nil in Hb'.
  exists r'. split; [exact E'|]. split; [exact Hb'|].
  split; [lia|].
  destruct (Z.leb_spec n' (Z.of_nat 0)); [lia|exact He'].
Qed.

Lemma eof_is_sticky_witness :
  exists fuel0 : nat,
  forall fuel : nat,
    (fuel0 <= fuel)%nat ->
    exists r' : readResult,
      Read fuel (heap sampleTree)
        (r_cursor (sampleRead (CursorAtPosition sampleTree 4) 5)) 8 = Some r' /\
      r_bytes r' = [] /\ r_n r' = 0 /\ r_err r' = Some EOF.
Proof.
  apply (eof_is_sticky sampleTree sampleChars (CursorAtPosition sampleTree 4)
           5 8 10 (sampleRead (CursorAtPosition sampleTree 4) 5)).
  - apply sampleTree_built.
  - apply cursor_at_position. lia.
  - lia.
  - lia.
  - vm_compute. reflexivity.
  - vm_compute. reflexivity.
Defined.

(** *** Further properties of the loading loop *)

(** [NewTreeFromReader] returns either a tree and a nil error, or a nil tree
    and an error: a tree exactly when no read fails and the bytes delivered
    are well-formed UTF-8; and "invalid UTF-8" when no read fails and they
    are not. *)
Theorem NewTreeFromReader_outcome (r : Reader) :
  match NewTreeFromReader r with
  | (Some _, None) =>
    readerFails r = false /\ valid_utf8 (delivered r) = true
  | (None, Some e) =>
    readerFails r = true \/
    (valid_utf8 (delivered r) = false /\ e = ErrInvalidUTF8)
  | _ => False
  end.
Proof.
  destruct (NewTreeFromReader_spec r) as (Hok & Hbad & Hfail).
  destruct (readerFails r) eqn:Hf.
  - destruct (Hfail eq_refl) as [H1 (e & H2)].
    destruct (NewTreeFromReader r) as [[t|] [e'|]]; cbn [fst snd] in *;
      try discriminate.
    left. reflexivity.
  - destruct (valid_utf8 (delivered r)) eqn:Hv.
    + destruct (Hok eq_refl eq_refl) as (t & ->). auto.
    + rewrite (Hbad eq_refl eq_refl). right. auto.
Qed.

Lemma bulkLoad_loop_empty_read (r1 r2 : Reader) (err : option error) :
  forall (v : Validator) (st : loadState),
    bulkLoad_loop (r1 ++ ([], err) :: r2) v st
    = bulkLoad_loop (r1 ++ [([], err)]) v st.
Proof.
  induction r1 as [|[chunk e] r1 IH]; intros v st; cbn [app bulkLoad_loop].
  - reflexivity.
  - destruct (match e with Some e0 => negb (isEOF e0) | None => false end);
      [reflexivity|].
    destruct chunk as [|b chunk]; [reflexivity|].
    destruct (ValidateBytes v (b :: chunk)) as [ok v'].
    destruct ok; [apply IH|reflexivity].
Qed.

(** A read that returns no byte ends the loading: what the reader would
    return afterwards does not matter. *)
Theorem empty_read_ends_loading (r1 r2 : Reader) (err : option error) :
  NewTreeFromReader (r1 ++ ([], err) :: r2)
  = NewTreeFromReader (r1 ++ [([], err)]).
Proof.
  unfold NewTreeFromReader, bulkLoadIntoLeaves.
  rewrite bulkLoad_loop_empty_read. reflexivity.
Qed.

(** *** Further properties of the leaves *)

Lemma dropChars_split (bs : list byte) :
  forall q : nat,
    Z.of_nat q < charCount bs ->
    exists pre b rest,
      bs = pre ++ b :: rest /\
      utf8StartByteIndicator b = 1 /\
      charCount pre = Z.of_nat q /\
      dropChars q bs = b :: rest.
Proof.
  induction bs as [|x bs IH]; intros q Hq; [simpl in Hq; lia|].
  rewrite charCount_cons in Hq. rewrite dropChars_cons.
  destruct (utf8StartByteIndicator_01 x) as [E|E]; rewrite E in *.
  - change (0 <? 0) with false. cbv iota.
    destruct (IH q ltac:(lia)) as (pre & b & rest & -> & Hb & Hc & Hd).
    exists (x :: pre), b, rest. split; [reflexivity|]. split; [exact Hb|].
    split; [rewrite charCount_cons, E; lia|exact Hd].
  - change (0 <? 1) with true. cbv iota. destruct q as [|q].
    + exists [], x, bs. repeat split; [exact E].
    + destruct (IH q ltac:(lia)) as (pre & b & rest & -> & Hb & Hc & Hd).
      exists (x :: pre), b, rest. split; [reflexivity|]. split; [exact Hb|].
      split; [rewrite charCount_cons, E; lia|exact Hd].
Qed.

Lemma afterNewline_split (bs : list byte) :
  forall q : nat,
    Z.of_nat q < countNewlines bs ->
    exists pre b rest,
      bs = pre ++ b :: rest /\
      isNewline b = true /\
      countNewlines pre = Z.of_nat q /\
      afterNewline q bs = rest.
Proof.
  induction bs as [|x bs IH]; intros q Hq; [unfold countNewlines in Hq; simpl in Hq; lia|].
  rewrite countNewlines_cons in Hq. cbn [afterNewline].
  destruct (isNewline x) eqn:E.
  - destruct q as [|q].
    + exists [], x, bs. repeat split; [exact E].
    + destruct (IH q ltac:(lia)) as (pre & b & rest & -> & Hb & Hc & Hd).
      exists (x :: pre), b, rest. split; [reflexivity|]. split; [exact Hb|].
      split; [rewrite countNewlines_cons, E; lia|exact Hd].
  - destruct (IH q ltac:(lia)) as (pre & b & rest & -> & Hb & Hc & Hd).
    exists (x :: pre), b, rest. split; [reflexivity|]. split; [exact Hb|].
    split; [rewrite countNewlines_cons, E; lia|exact Hd].
Qed.

Lemma skipn_is_suffix {A : Type} (pre rest : list A) (x : A) (off : nat) :
  (off <= length (pre ++ x :: rest))%nat ->
  skipn off (pre ++ x :: rest) = x :: rest ->
  off = length pre.
Proof.
  intros Hle H. apply (f_equal (@length _)) in H.
  rewrite length_skipn, length_app in *. cbn [length] in *. lia.
Qed.

Lemma leaf_byte_at (l : leafNode) (off : nat) :
  leafOk l -> Z.of_nat off < numBytes l ->
  arr_get x00 (textBytes l) (Z.of_nat off) = nth off (leafBytes l) x00.
Proof.
  intros Hl H. unfold arr_get, leafBytes. rewrite Nat2Z.id, slice_0.
  symmetry. apply nth_firstn_lt. lia.
Qed.

(** [leafNode.byteOffsetForPosition]: for a position below the number of
    characters that start in the leaf, the offset of the start byte of that
    character (exactly [charPos] start bytes come before it); otherwise
    [numBytes]. *)
Theorem byteOffsetForPosition_finds_start (l : leafNode) (q : Z) :
  leafOk l -> 0 <= q < 18446744073709551616 ->
  (q < charCount (leafBytes l) ->
   0 <= byteOffsetForPosition l q < numBytes l /\
   utf8StartByteIndicator
     (arr_get x00 (textBytes l) (byteOffsetForPosition l q)) = 1 /\
   charCount (firstn (Z.to_nat (byteOffsetForPosition l q)) (leafBytes l)) = q) /\
  (charCount (leafBytes l) <= q -> byteOffsetForPosition l q = numBytes l).
Proof.
  intros Hl Hq. pose proof (length_leafBytes l Hl) as Hlen.
  destruct (byteOffsetForPosition_spec l q Hl Hq) as (Hoff & Hskip & Hlt).
  split; [|intros Hge; lia].
  intros Hin.
  destruct (dropChars_split (leafBytes l) (Z.to_nat q) ltac:(lia))
    as (pre & b & rest & Hbs & Hb & Hc & Hd).
  rewrite Hd in Hskip.
  set (off := byteOffsetForPosition l q) in *.
  assert (Eoff : Z.to_nat off = length pre).
  { apply (skipn_is_suffix pre rest b); rewrite <- Hbs; [lia|exact Hskip]. }
  split; [lia|]. split.
  - replace off with (Z.of_nat (Z.to_nat off)) by lia.
    rewrite leaf_byte_at by (try assumption; lia).
    rewrite (skipn_hd_nth x00 b _ rest _ Hskip). exact Hb.
  - rewrite Hbs, Eoff, firstn_app, Nat.sub_diag, firstn_all. cbn [firstn].
    rewrite app_nil_r. lia.
Qed.

Lemma byteOffsetForPosition_witness :
  let l := mkLeaf 4 ([x61; xc3; xa9; x62] ++ repeat x00 59) in
  (2 < charCount (leafBytes l) ->
   0 <= byteOffsetForPosition l 2 < numBytes l /\
   utf8StartByteIndicator
     (arr_get x00 (textBytes l) (byteOffsetForPosition l 2)) = 1 /\
   charCount (firstn (Z.to_nat (byteOffsetForPosition l 2)) (leafBytes l)) = 2) /\
  (charCount (leafBytes l) <= 2 -> byteOffsetForPosition l 2 = numBytes l).
Proof.
  intros l. apply (byteOffsetForPosition_finds_start l 2).
  - split; [simpl; lia|reflexivity].
  - lia.
Defined.

(** [leafNode.byteOffsetAfterNewline]: for a position below the number of
    newlines of the leaf, the offset just after that newline; otherwise
    [numBytes]. *)
Theorem byteOffsetAfterNewline_finds_newline (l : leafNode) (q : Z) :
  leafOk l -> 0 <= q < 18446744073709551616 ->
  (q < countNewlines (leafBytes l) ->
   1 <= byteOffsetAfterNewline l q <= numBytes l /\
   isNewline (arr_get x00 (textBytes l) (byteOffsetAfterNewline l q - 1)) = true /\
   countNewlines (firstn (Z.to_nat (byteOffsetAfterNewline l q)) (leafBytes l))
   = q + 1) /\
  (countNewlines (leafBytes l) <= q -> byteOffsetAfterNewline l q = numBytes l).
Proof.
  intros Hl Hq. pose proof (length_leafBytes l Hl) as Hlen.
  destruct (byteOffsetAfterNewline_spec l q Hl Hq) as (Hoff & Hskip).
  set (off := byteOffsetAfterNewline l q) in *.
  split.
  - intros Hin.
    destruct (afterNewline_split (leafBytes l) (Z.to_nat q) ltac:(lia))
      as (pre & b & rest & Hbs & Hb & Hc & Hd).
    rewrite Hd in Hskip.
    assert (Eoff : Z.to_nat off = S (length pre)).
    { apply (f_equal (@length _)) in Hskip.
      rewrite length_skipn, Hbs, length_app in Hskip. cbn [length] in Hskip.
      rewrite Hbs, length_app in Hlen. cbn [length] in Hlen. lia. }
    split; [lia|]. split.
    + replace (off - 1) with (Z.of_nat (length pre)) by lia.
      rewrite leaf_byte_at by (try assumption; lia).
      rewrite Hbs, app_nth2, Nat.sub_diag by lia. exact Hb.
    + rewrite Hbs, Eoff.
      change (pre ++ b :: rest) with (pre ++ [b] ++ rest).
      rewrite app_assoc.
      replace (S (length pre)) with (length (pre ++ [b]))
        by (rewrite length_app; simpl; lia).
      rewrite firstn_app, Nat.sub_diag, firstn_all. cbn [firstn].
      rewrite app_nil_r, countNewlines_app, countNewlines_cons, Hb.
      unfold countNewlines at 2. cbn [filter length]. lia.
  - intros Hge. rewrite afterNewline_all in Hskip by lia.
    apply (f_equal (@length _)) in Hskip. rewrite length_skipn in Hskip.
    cbn [length] in Hskip. lia.
Qed.

Lemma byteOffsetAfterNewline_witness :
  let l := mkLeaf 4 ([x61; x0a; x62; x0a] ++ repeat x00 59) in
  (1 < countNewlines (leafBytes l) ->
   1 <= byteOffsetAfterNewline l 1 <= numBytes l /\
   isNewline (arr_get x00 (textBytes l) (byteOffsetAfterNewline l 1 - 1)) = true /\
   countNewlines (firstn (Z.to_nat (byteOffsetAfterNewline l 1)) (leafBytes l))
   = 1 + 1) /\
  (countNewlines (leafBytes l) <= 1 -> byteOffsetAfterNewline l 1 = numBytes l).
Proof.
  intros l. apply (byteOffsetAfterNewline_finds_newline l 1).
  - split; [simpl; lia|reflexivity].
  - lia.
Defined.

(** *** The tables of [init] *)

(** The two tables filled by the [init] functions: a byte is a start byte
    exactly when its character width is not zero; the width is 1 for the
    bytes below 0x80, 2 from 0xC0, 3 from 0xE0, 4 from 0xF0 to 0xF7, and 0
    for the bytes from 0x80 to 0xBF and from 0xF8. *)
Theorem utf8_tables_agree (b : byte) :
  (utf8StartByteIndicator b = 1 <-> 0 < utf8CharWidth b) /\
  (utf8StartByteIndicator b = 0 <-> utf8CharWidth b = 0) /\
  utf8CharWidth b
  = (if byteZ b <? 128 then 1
     else if byteZ b <? 192 then 0
     else if byteZ b <? 224 then 2
     else if byteZ b <? 240 then 3
     else if byteZ b <? 248 then 4
     else 0).
Proof.
  split; [|split; [|apply utf8CharWidth_table]];
    rewrite utf8StartByteIndicator_table, utf8CharWidth_table;
    repeat match goal with
           | |- context [?a <? ?b] => destruct (Z.ltb_spec a b)
           end; split; intros; try lia; try reflexivity; try discriminate.
Qed.

(** For every well-formed character, the width the table gives to its first
    byte is the number of its bytes, and its other bytes have width zero and
    are no start bytes. *)
Theorem char_width_is_length (c : list byte) :
  wf_char c = true ->
  utf8CharWidth (hd x00 c) = Z.of_nat (length c) /\
  utf8StartByteIndicator (hd x00 c) = 1 /\
  Forall (fun b => utf8CharWidth b = 0 /\ utf8StartByteIndicator b = 0) (tl c).
Proof.
  intros Hc. destruct (wf_char_shape c Hc) as (b1 & tail & -> & Hs & Hw & Ht & _).
  cbn [hd tl]. split; [exact Hw|]. split; [exact Hs|].
  apply Forall_forall. intros b Hb.
  destruct (proj1 (Forall_forall _ _) Ht b Hb) as (H1 & H2 & _). auto.
Qed.

Lemma char_width_is_length_witness :
  utf8CharWidth (hd x00 [xe2; x82; xac]) = Z.of_nat (length [xe2; x82; xac]) /\
  utf8StartByteIndicator (hd x00 [xe2; x82; xac]) = 1 /\
  Forall (fun b => utf8CharWidth b = 0 /\ utf8StartByteIndicator b = 0)
         (tl [xe2; x82; xac]).
Proof. apply (char_width_is_length [xe2; x82; xac]). reflexivity. Defined.

(** *** Further properties of the inner nodes *)




(** The leaf groups of a tree are linked in the order of the text: [next]
    of every group points to the group that follows, [next] of the last one
    is nil, and every group has between 1 and 64 nodes; deletions keep
    this. *)
Theorem leaf_groups_are_linked (t : Tree) (cs : list (list byte)) :
  built t cs ->
  heap t <> [] /\
  forall p : nat,
    (p < length (heap t))%nat ->
    1 <= lg_numNodes (getGroup (heap t) p) <= maxNodesPerGroup /\
    lg_next (getGroup (heap t) p)
    = (if (S p <? length (heap t))%nat then Some (S p) else None).
Proof.
  intros Hb. apply built_ok in Hb. destruct Hb as ([Hne Hall] & _).
  split; [exact Hne|]. intros p Hp.
  destruct (Hall p Hp) as [(Hn & _) Hnext]. split; assumption.
Qed.

Lemma leaf_groups_are_linked_witness :
  heap (DeleteAtPosition sampleTree 0) <> [] /\
  forall p : nat,
    (p < length (heap (DeleteAtPosition sampleTree 0)))%nat ->
    1 <= lg_numNodes (getGroup (heap (DeleteAtPosition sampleTree 0)) p)
      <= maxNodesPerGroup /\
    lg_next (getGroup (heap (DeleteAtPosition sampleTree 0)) p)
    = (if (S p <? length (heap (DeleteAtPosition sampleTree 0)))%nat
       then Some (S p) else None).
Proof.
  apply (leaf_groups_are_linked (DeleteAtPosition sampleTree 0)
           (skipn 1 sampleChars)).
  apply sampleTree_deleted_built.
Defined.

(** *** The size of the leaves after loading *)

Definition leavesSmall (ls : list (list byte)) : Prop :=
  Forall (fun l => (length l <= 62)%nat) ls.

Lemma load_char_small (st : loadState) (c : list byte) :
  loadShape st ->
  leavesSmall (leaves (leafGroups st)) ->
  wf_char c = true ->
  leavesSmall (leaves (leafGroups (fold_left loadByte c st))).
Proof.
  intros Hs Hv Hc. unfold leavesSmall in *.
  destruct (wf_char_shape c Hc) as (b1 & tail & -> & _ & Hw & Htail & _).
  destruct (loadByte_spec st b1 Hs) as (fr & Hl & Hs1 & Hstep).
  pose proof (length_leafBytes _ (loadShape_curLeaf st Hs)) as Hnb.
  rewrite Hl in Hv. apply Forall_app in Hv. destruct Hv as [Hfr Hcur].
  inversion Hcur as [|? ? Hcur' _]; subst.
  rewrite Hw in Hstep. unfold maxBytesPerLeaf in Hstep.
  cbn [fold_left]. cbn [length] in *.
  destruct (Z.leb_spec 63 (numBytes (curLeaf st) + Z.of_nat (S (length tail))))
    as [Hadv|Hsame]; destruct Hstep as [Hl1 _].
  - change (fr ++ [leafBytes (curLeaf st); [b1]])
      with (fr ++ [leafBytes (curLeaf st)] ++ [[b1]]) in Hl1.
    rewrite app_assoc in Hl1.
    assert (Hlen4 : (length tail <= 3)%nat).
    { pose proof (utf8CharWidth_bound b1). lia. }
    destruct (load_continuation tail (loadByte st b1) _ [b1] Hs1 Hl1 Htail)
      as [_ Hl2]; [simpl; lia|].
    rewrite Hl2. apply Forall_app. split.
    + apply Forall_app. split; [exact Hfr|constructor; auto].
    + constructor; [|constructor]. cbn [app length]. lia.
  - destruct (load_continuation tail (loadByte st b1) _ _ Hs1 Hl1 Htail)
      as [_ Hl2]; [rewrite length_app; simpl; lia|].
    rewrite Hl2. apply Forall_app. split; [exact Hfr|].
    constructor; [|constructor]. rewrite !length_app. cbn [length]. lia.
Qed.

Lemma load_chars_small (cs : list (list byte)) :
  forall st : loadState,
    loadShape st ->
    Forall validBytes (leaves (leafGroups st)) ->
    leavesSmall (leaves (leafGroups st)) ->
    wellFormed cs ->
    leavesSmall (leaves (leafGroups (fold_left loadByte (concat cs) st))).
Proof.
  induction cs as [|c cs IH]; intros st Hs Hv Hsm Hw.
  - exact Hsm.
  - inversion Hw as [|? ? Hc Hw']; subst.
    cbn [concat]. rewrite fold_left_app.
    destruct (load_char st c Hs Hv Hc) as (Hs1 & Hv1 & _).
    apply IH; try assumption.
    apply load_char_small; assumption.
Qed.

(** Bulk loading never fills a leaf: a new leaf is started as soon as
    [numBytes + charWidth >= 63], so every leaf of a tree that
    [NewTreeFromReader] returns holds at most 62 bytes. *)
Theorem bulk_load_leaves_at_most_62 (r : Reader) (t : Tree) :
  NewTreeFromReader r = (Some t, None) ->
  Forall (fun l => (length l <= 62)%nat) (leaves (heap t)).
Proof.
  intros Hnew.
  destruct (NewTreeFromReader_spec r) as (_ & Hbad & Hfail).
  destruct (readerFails r) eqn:Hf.
  { destruct (Hfail eq_refl) as [H1 _]. rewrite Hnew in H1. discriminate. }
  destruct (valid_utf8 (delivered r)) eqn:Hv.
  2:{ rewrite (Hbad eq_refl eq_refl) in Hnew. discriminate. }
  unfold NewTreeFromReader in Hnew.
  rewrite (proj1 (bulkLoadIntoLeaves_reader r) Hf), Hv in Hnew.
  injection Hnew as <-. cbn [heap].
  apply validBytes_decode in Hv. destruct Hv as (cs & Hw & <-).
  destruct initialLoad_shape as [Hs Hl].
  apply load_chars_small; try assumption; rewrite Hl.
  - repeat constructor. apply validBytes_nil.
  - constructor; [simpl; lia|constructor].
Qed.

Lemma bulk_load_leaves_witness :
  Forall (fun l => (length l <= 62)%nat) (leaves (heap sampleTree)).
Proof.
  apply (bulk_load_leaves_at_most_62 (stringsNewReader sampleText) sampleTree).
  vm_compute. reflexivity.
Defined.

(** *** Deleting keeps the leaves in place *)

Section DeleteShape.
Variable h : leafHeap.
Hypothesis Hh : heapOk h.
Hypothesis Hsize : Z.of_nat (length (heapBytes h)) < 18446744073709551616.

Definition sameShape (h' : leafHeap) : Prop :=
  length h' = length h /\
  forall p : nat, lg_numNodes (getGroup h' p) = lg_numNodes (getGroup h p).

Lemma inner_deleteAtPosition_shape (ht : nat) :
  forall (n : innerNode) (lo hi : nat) (q : Z),
    nodeRep ht h n lo hi ->
    0 <= q < 18446744073709551616 ->
    sameShape (fst (fst (snd (inner_deleteAtPosition h n q)))).
Proof.
  induction ht as [|ht IH]; intros [c nk ks] lo hi q Hn Hq;
    pose proof (nodeRep_bounds _ _ _ _ _ Hn) as Hb;
    destruct (node_pieces h Hh Hsize _ c nk ks lo hi Hn)
      as (ps & Hk & Hnk & Hnk64 & Hcat & Hlen & Hc);
    destruct (locatePosition_spec ks nk ps Hk Hnk Hnk64 Hlen c q Hq)
      as (idx & q' & E & Hidx & Hq' & _);
    cbn [inner_deleteAtPosition]; rewrite E;
    (destruct c as [|p|m nodes]; [contradiction| |]); cbn [childrenAt] in Hc.
  - destruct Hc as (_ & <- & -> & ->).
    unfold leafGroup_deleteAtPosition.
    destruct (leaf_deleteAtPosition _ q') as [[l' did] nl]. cbn [fst snd].
    split; [apply length_setGroup|]. intros p.
    destruct (Nat.eq_dec p lo) as [->|Hp].
    + rewrite getGroup_setGroup_eq by lia. reflexivity.
    + rewrite getGroup_setGroup_neq by exact Hp. reflexivity.
  - destruct Hc as (_ & _ & ht' & [=] & _).
  - destruct Hc as (Hc & _). discriminate.
  - destruct Hc as (Hm & Hnodes & ht' & [= <-] & Hnth).
    destruct (Hnth idx Hidx) as (a & b & _ & _ & Hx & _).
    rewrite Nat2Z.id, (nth_update_nth _ _ zeroInner) by lia.
    pose proof (IH _ a b q' Hx Hq') as Hsh.
    destruct (inner_deleteAtPosition h (nth idx nodes zeroInner) q')
      as [x' [[h' did] nl]].
    cbn [fst snd] in *. exact Hsh.
Qed.

End DeleteShape.

(** [DeleteAtPosition] never removes a leaf, also when it deletes its last
    character: the tree keeps its leaf groups and every group keeps its
    number of nodes. *)
Theorem delete_keeps_leaves (t : Tree) (cs : list (list byte)) (p : Z) :
  built t cs -> 0 <= p < 18446744073709551616 ->
  length (heap (DeleteAtPosition t p)) = length (heap t) /\
  forall g : nat,
    lg_numNodes (getGroup (heap (DeleteAtPosition t p)) g)
    = lg_numNodes (getGroup (heap t) g).
Proof.
  intros Hb Hp. apply built_ok in Hb.
  destruct Hb as (Hh & _ & Hsize & _ & _ & ht & Hroot).
  pose proof (inner_deleteAtPosition_shape (heap t) Hh Hsize ht (root t) _ _ p
                Hroot Hp) as Hsh.
  unfold DeleteAtPosition.
  destruct (inner_deleteAtPosition (heap t) (root t) p) as [n' [[h' did] nl]].
  exact Hsh.
Qed.

Lemma delete_keeps_leaves_witness :
  length (heap (DeleteAtPosition sampleTree 1)) = length (heap sampleTree) /\
  forall g : nat,
    lg_numNodes (getGroup (heap (DeleteAtPosition sampleTree 1)) g)
    = lg_numNodes (getGroup (heap sampleTree) g).
Proof.
  apply (delete_keeps_leaves sampleTree sampleChars 1).
  - apply sampleTree_built.
  - lia.
Defined.

End TextFacts.

(** ** Word motions: the examples of the spec *)
Module LocateFacts.
Import Stdlib.Strings.String.
Import Locate.
Local Open Scope string_scope.

(** C9.  The examples of the spec: [NextWordStart] on "abc   defg   hij"
    returns 6 from position 1 and from position 4; [PrevWordStart] on
    "abc\n\n   123" returns 4 from position 8; [WordObject] on
    "abc   def  ghi" at position 4 returns (3, 9) and [InnerWordObject]
    returns (3, 6). *)
Theorem word_motion_examples :
  NextWordStart (asciiDoc "abc   defg   hij") 1 = 6 /\
  NextWordStart (asciiDoc "abc   defg   hij") 4 = 6 /\
  PrevWordStart (asciiDoc ("abc" ++ nl ++ nl ++ "   123")) 8 = 4 /\
  WordObject (asciiDoc "abc   def  ghi") 4 = (3, 9) /\
  InnerWordObject (asciiDoc "abc   def  ghi") 4 = (3, 6).
Proof. repeat split; vm_compute; reflexivity. Qed.

(** Some of the cases of the repository's tests ([TestNextWordStart],
    [TestPrevWordStart], [TestWordObject], [TestInnerWordObject]). *)
Example next_word_to_empty_line :
  NextWordStart (asciiDoc ("abc" ++ nl ++ nl ++ "   123")) 1 = 4.
Proof. vm_compute; reflexivity. Qed.

Example next_word_last_word_in_document :
  NextWordStart (asciiDoc "foo bar") 5 = 7.
Proof. vm_compute; reflexivity. Qed.

Example prev_word_punctuation :
  PrevWordStart (asciiDoc "abc/def/ghi") 5 = 4.
Proof. vm_compute; reflexivity. Qed.

Example word_object_whitespace_at_start_of_line :
  WordObject (asciiDoc ("abc" ++ nl ++ "    xyz")) 6 = (4, 11).
Proof. vm_compute; reflexivity. Qed.

Example word_object_empty_line :
  WordObject (asciiDoc ("abc" ++ nl ++ nl ++ "   123")) 4 = (4, 11).
Proof. vm_compute; reflexivity. Qed.

Example inner_word_object_empty_line :
  InnerWordObject (asciiDoc ("abc" ++ nl ++ nl ++ "   123")) 4 = (4, 4).
Proof. vm_compute; reflexivity. Qed.

Example motions_on_empty_document :
  NextWordStart [] 0 = 0 /\ PrevWordStart [] 0 = 0 /\
  WordObject [] 0 = (0, 0) /\ InnerWordObject [] 0 = (0, 0).
Proof. repeat split. Qed.

End LocateFacts.

(** ** The line breaker and the wrapped-line iterator *)
Module SegmentFacts.
Import Segment.
Local Open Scope lb_scope.

Lemma lbProp_beq_eq (a b : lbProp) : (a == b) = true <-> a = b.
Proof.
  split.
  - apply internal_lbProp_dec_bl.
  - apply internal_lbProp_dec_lb.
Qed.

Lemma lbProp_beq_neq (a b : lbProp) : (a == b) = false <-> a <> b.
Proof.
  rewrite <- lbProp_beq_eq. destruct (a == b); split; congruence.
Qed.

Section LineBreakerFacts.
Variable lbPropForRune : rune -> lbProp.
Variable eaPropForRune : rune -> eaProp.
Variable unicodeInMnMc : rune -> bool.

Local Abbreviation process := (ProcessRune lbPropForRune eaPropForRune unicodeInMnMc).
Local Abbreviation rules := (applyRules eaPropForRune).
Local Abbreviation resolve := (resolveProp lbPropForRune unicodeInMnMc).


(** At [done] the class is the rune's own, unless LB9 replaced it by the
    class of the base character. *)
Lemma applyRules_prop (lb : LineBreaker) (r : rune) (prop : lbProp) :
  d_prop (rules lb r prop) = prop \/
  (d_prop (rules lb r prop) = lastProp lb /\ lb9Condition lb prop = true).
Proof.
  unfold applyRules, lb9Condition.
  repeat match goal with
         | |- context [if ?c then _ else _] =>
           destruct c eqn:?; [simpl; auto; fail | ]
         end.
  all: simpl; auto.
Qed.

Lemma process_lastProp (lb : LineBreaker) (r : rune) :
  lastProp (snd (process lb r)) = reinterpret lb (d_prop (rules lb r (resolve r))).
Proof. reflexivity. Qed.


End LineBreakerFacts.



(** Why the order matters: after an ideograph, a combining mark is absorbed
    by LB9 and no break is allowed before it; the rules applied to AL, its
    class after LB10, would allow one. *)
Example lb10_before_the_rules_would_differ :
  let lb := snd (ProcessRune lbPropForRune_excerpt eaPropForRune_excerpt
                   unicodeInMnMc_excerpt zeroLineBreaker 19968) in
  fst (ProcessRune lbPropForRune_excerpt eaPropForRune_excerpt
         unicodeInMnMc_excerpt lb 769) = NoLineBreak /\
  d_decision (applyRules eaPropForRune_excerpt lb 769 lbPropAL)
  = AllowLineBreakBefore.
Proof. split; reflexivity. Qed.

(** *** The wrapped-line iterator *)

(** What every iterator reached by [NextSegment] satisfies: while clusters
    are still to come, an empty line buffer has width zero. *)
Definition iterInv (cfg : LineWrapConfig) (it : WrappedLineIter) : Prop :=
  wrapConfig it = cfg /\
  Forall (fun gc => gc <> []) (gc_pending (gcIter it)) /\
  (gc_pending (gcIter it) <> [] -> buffer it = [] -> currentWidth it = 0).

Lemma NextSegment_loop_inv (cfg : LineWrapConfig) (failure : option Text.error)
    (pending : list cluster) :
  Forall (fun gc => gc <> []) pending ->
  forall buf cw it' seg err,
    NextSegment_loop cfg pending failure buf cw = (it', seg, err) ->
    iterInv cfg it'.
Proof.
  induction pending as [|gc rest IH]; intros Hne buf cw it' seg err H.
  - assert (Hit : exists b w, it' = mkWrappedLineIter cfg (mkGcIter [] failure) b w).
    { simpl in H.
      destruct failure as [e|]; [destruct (Text.isEOF e)|];
        try destruct (negb (length buf =? 0)%nat);
        inversion H; eauto. }
    destruct Hit as (b & w & ->). repeat split; simpl; auto. congruence.
  - inversion Hne as [|? ? Hgc Hrest]; subst.
    simpl in H.
    destruct (HasNewline gc).
    { inversion H; subst. repeat split; simpl; auto. }
    destruct (maxLineWidth cfg <? Text.u64 (cw + widthFunc cfg gc cw)).
    + destruct (Z.eqb_spec cw 0) as [E|E].
      * destruct rest as [|next rest'].
        { inversion H; subst. repeat split; simpl; auto. }
        destruct (HasNewline next); inversion H; subst;
          repeat split; simpl; auto.
        inversion Hrest; assumption.
      * inversion H; subst. repeat split; simpl; auto. intros _ Hb. congruence.
    + eapply IH; eauto.
Qed.

Lemma reachable_inv (cfg : LineWrapConfig) (it : WrappedLineIter) :
  reachable cfg it -> iterInv cfg it.
Proof.
  induction 1 as [reader Hne | it it' seg err Hr IH Hn].
  - repeat split; simpl; auto.
  - destruct IH as (Hc & Hne & _). unfold NextSegment in Hn. rewrite Hc in Hn.
    eapply NextSegment_loop_inv; eauto.
Qed.

(** C7.  With an empty line buffer, a cluster that is wider than the
    maximum on its own is returned as a line by the call that meets it:
    the call takes this cluster from the clusters to come, whole, and, when
    the cluster after it has a newline, that one too, which it appends to
    the line; it returns no error and leaves the line buffer empty. *)
Theorem oversized_cluster_gets_own_line (cfg : LineWrapConfig)
    (it : WrappedLineIter) (gc : cluster) (rest : list cluster) :
  widthsAreUint64 cfg ->
  reachable cfg it ->
  buffer it = [] ->
  gc_pending (gcIter it) = gc :: rest ->
  HasNewline gc = false ->
  maxLineWidth cfg < widthFunc cfg gc 0 ->
  exists it',
    NextSegment it
    = (it',
       match rest with
       | next :: _ => if HasNewline next then gc ++ next else gc
       | [] => gc
       end,
       None) /\
    gc_pending (gcIter it')
    = match rest with
      | next :: rest' => if HasNewline next then rest' else rest
      | [] => []
      end /\
    buffer it' = [].
Proof.
  intros Hw Hr Hb Hp Hnl Hbig.
  destruct (reachable_inv cfg it Hr) as (Hc & _ & Hz).
  assert (Hcw : currentWidth it = 0) by (apply Hz; [congruence | exact Hb]).
  unfold NextSegment. rewrite Hc, Hp, Hb, Hcw. simpl.
  rewrite Hnl.
  assert (Hu : Text.u64 (widthFunc cfg gc 0) = widthFunc cfg gc 0).
  { unfold Text.u64. apply Z.mod_small. apply Hw. }
  rewrite Hu.
  destruct (Z.ltb_spec (maxLineWidth cfg) (widthFunc cfg gc 0)) as [_|]; [|lia].
  destruct rest as [|next rest'].
  - eexists; repeat split.
  - destruct (HasNewline next); eexists; repeat split.
Qed.

Lemma oversized_cluster_witness :
  exists it',
    NextSegment (NewWrappedLineIter (mkGcIter [[88]; [10]; [89]] None)
                   (mkLineWrapConfig 1 (fun _ _ => 2)))
    = (it', [88; 10], None) /\
    gc_pending (gcIter it') = [[89]] /\
    buffer it' = [].
Proof.
  apply (oversized_cluster_gets_own_line (mkLineWrapConfig 1 (fun _ _ => 2))
           (NewWrappedLineIter (mkGcIter [[88]; [10]; [89]] None)
              (mkLineWrapConfig 1 (fun _ _ => 2)))
           [88] [[10]; [89]]).
  - intros gc off. simpl. lia.
  - apply reach_new. simpl. repeat constructor; discriminate.
  - reflexivity.
  - reflexivity.
  - reflexivity.
  - simpl. lia.
Defined.

(** *** Wrap fidelity *)

(** The clusters held in the line buffer, with the width the iterator has
    for them. *)
Definition bufInv (cfg : LineWrapConfig) (bufCl : list cluster) (cw : Z) : Prop :=
  0 <= cw < 9223372036854775808 /\
  (cw = 0 -> bufCl = []) /\
  Forall (fun gc => HasNewline gc = false /\ gc <> []) bufCl /\
  (widthsOffsetFree cfg ->
   cw = lineWidth cfg bufCl /\
   (cw <= maxLineWidth cfg \/
    exists gc, bufCl = [gc] /\ maxLineWidth cfg < widthFunc cfg gc 0)).

(** What is left to do: bounds the number of calls of [NextSegment]. *)
Definition workLeft (pending bufCl : list cluster) : nat :=
  2 * length pending + match bufCl with [] => 0 | _ => 1 end.

Lemma lineWidth_app (cfg : LineWrapConfig) (gcs : list cluster) (gc : cluster) :
  lineWidth cfg (gcs ++ [gc])
  = lineWidth cfg gcs + widthFunc cfg gc (lineWidth cfg gcs).
Proof. unfold lineWidth. rewrite fold_left_app. reflexivity. Qed.

Lemma lineBody_newline (gcs : list cluster) (last : cluster) :
  HasNewline last = true -> lineBody (gcs ++ [last]) = gcs.
Proof.
  intros H. unfold lineBody. rewrite rev_app_distr. simpl. rewrite H.
  apply rev_involutive.
Qed.

Lemma lineBody_no_newline (gcs : list cluster) :
  Forall (fun gc => HasNewline gc = false /\ gc <> []) gcs ->
  lineBody gcs = gcs.
Proof.
  intros H. unfold lineBody.
  destruct (rev gcs) as [|last front] eqn:E; [reflexivity|].
  assert (Hin : In last gcs).
  { apply in_rev. rewrite E. left. reflexivity. }
  rewrite Forall_forall in H. destruct (H _ Hin) as [Hn _].
  rewrite Hn. reflexivity.
Qed.

Lemma concat_nonempty (gcs : list cluster) :
  Forall (fun gc => HasNewline gc = false /\ gc <> []) gcs ->
  gcs <> [] -> @concat rune gcs <> [].
Proof.
  intros H Hne. destruct gcs as [|gc gcs]; [congruence|].
  inversion H as [|? ? [_ Hgc] _]; subst. simpl.
  destruct gc; [congruence | discriminate].
Qed.

Lemma bufInv_within (cfg : LineWrapConfig) (bufCl : list cluster) (cw : Z) :
  bufInv cfg bufCl cw ->
  widthsOffsetFree cfg -> lineBodyWithinWidth cfg bufCl.
Proof.
  intros (_ & _ & Hnn & Hw) Hfree. destruct (Hw Hfree) as [Hcw Hor].
  unfold lineBodyWithinWidth. rewrite (lineBody_no_newline _ Hnn).
  destruct Hor as [Hle | Hbig]; [left; lia | right; exact Hbig].
Qed.

(** One call of [NextSegment]: either the end of the text, or a line.  A
    line is a group of clusters: the clusters of the buffer followed by
    clusters taken from those to come, part of which may stay in the buffer
    for the next line. *)
Definition lineOutcome (cfg : LineWrapConfig) (pending bufCl : list cluster)
    (it' : WrappedLineIter) (seg : list rune) (err : option Text.error) : Prop :=
  (err = Some Text.EOF /\ pending = [] /\ bufCl = []) \/
  (err = None /\
   exists taken rest group bufCl' cw',
     pending = taken ++ rest /\
     bufCl ++ taken = group ++ bufCl' /\
     seg = concat group /\
     it' = mkWrappedLineIter cfg (mkGcIter rest None) (concat bufCl') cw' /\
     (widthsOffsetFree cfg -> lineBodyWithinWidth cfg group) /\
     ((rest = [] /\ bufCl' = []) \/ bufInv cfg bufCl' cw') /\
     (workLeft rest bufCl' < workLeft pending bufCl)%nat).

Lemma bufInv_empty (cfg : LineWrapConfig) :
  widthsSmall cfg -> bufInv cfg [] 0.
Proof.
  intros [HM _]. repeat split; auto; lia.
Qed.

Lemma bufInv_snoc (cfg : LineWrapConfig) (bufCl : list cluster) (cw : Z)
    (gc : cluster) :
  widthsPositive cfg -> widthsSmall cfg ->
  bufInv cfg bufCl cw ->
  HasNewline gc = false -> gc <> [] ->
  cw + widthFunc cfg gc cw <= maxLineWidth cfg ->
  bufInv cfg (bufCl ++ [gc]) (cw + widthFunc cfg gc cw).
Proof.
  intros Hpos [HM Hsm] (Hcw & Hz & Hnn & Hw) Hnl Hne Hfit.
  pose proof (Hpos gc cw Hnl) as Hp.
  split; [lia|]. split; [lia|]. split.
  - apply Forall_app. split; [exact Hnn|]. constructor; auto.
  - intros Hfree. split; [|left; exact Hfit].
    rewrite lineWidth_app. destruct (Hw Hfree) as [E _]. rewrite <- E.
    reflexivity.
Qed.

Lemma bufInv_single (cfg : LineWrapConfig) (gc : cluster) (off : Z) :
  widthsPositive cfg -> widthsSmall cfg ->
  HasNewline gc = false -> gc <> [] ->
  bufInv cfg [gc] (widthFunc cfg gc off).
Proof.
  intros Hpos [HM Hsm] Hnl Hne.
  pose proof (Hpos gc off Hnl) as Hp. pose proof (Hsm gc off) as Hs.
  split; [lia|]. split; [lia|]. split.
  - repeat constructor; auto.
  - intros Hfree. rewrite (Hfree gc off). split.
    + unfold lineWidth. simpl. reflexivity.
    + destruct (Z_le_gt_dec (widthFunc cfg gc 0) (maxLineWidth cfg)) as [L|G].
      * left. exact L.
      * right. exists gc. split; [reflexivity | lia].
Qed.

Lemma concat_snoc (bufCl : list cluster) (gc : cluster) :
  @concat rune (bufCl ++ [gc]) = concat bufCl ++ gc.
Proof. rewrite concat_app. simpl. rewrite app_nil_r. reflexivity. Qed.

Lemma lineBody_single (gc : cluster) :
  HasNewline gc = false -> lineBody [gc] = [gc].
Proof. intros H. unfold lineBody. simpl. rewrite H. reflexivity. Qed.

Ltac split_outcome :=
  right; split; [reflexivity|];
  match goal with
  | |- exists taken rest group bufCl' cw', _ => idtac
  end.

Lemma NextSegment_loop_spec (cfg : LineWrapConfig) (pending : list cluster) :
  widthsPositive cfg -> widthsSmall cfg ->
  Forall (fun gc => gc <> []) pending ->
  forall (bufCl : list cluster) (cw : Z),
    bufInv cfg bufCl cw ->
    exists it' seg err,
      NextSegment_loop cfg pending None (concat bufCl) cw = (it', seg, err) /\
      lineOutcome cfg pending bufCl it' seg err.
Proof.
  intros Hpos Hsmall.
  induction pending as [|gc rest IH]; intros Hne bufCl cw Hinv.
  - (* no cluster left *)
    simpl. destruct bufCl as [|c bufCl].
    + do 3 eexists. split; [reflexivity|]. left. auto.
    + pose proof Hinv as (Hcw & Hz & Hnn & Hw).
      assert (Hc : negb (length (concat (c :: bufCl)) =? 0)%nat = true).
      { pose proof (concat_nonempty (c :: bufCl) Hnn ltac:(discriminate)) as Hx.
        destruct (concat (c :: bufCl)); [congruence | reflexivity]. }
      rewrite Hc. do 3 eexists. split; [reflexivity|]. split_outcome.
      exists [], [], (c :: bufCl), [], cw.
      split; [reflexivity|]. split; [reflexivity|].
      split; [reflexivity|]. split; [reflexivity|].
      split; [intros Hfree; eapply bufInv_within; eauto|].
      split; [left; auto|].
      unfold workLeft. simpl. lia.
  - inversion Hne as [|? ? Hgc Hrest]; subst.
    simpl. destruct (HasNewline gc) eqn:Hnl.
    + (* hard line break *)
      do 3 eexists. split; [reflexivity|]. split_outcome.
      exists [gc], rest, (bufCl ++ [gc]), [], 0.
      split; [reflexivity|]. split; [rewrite app_nil_r; reflexivity|].
      split; [rewrite concat_snoc; reflexivity|]. split; [reflexivity|].
      split; [|split; [right; apply bufInv_empty; exact Hsmall|]].
      * intros Hfree. destruct Hinv as (_ & _ & _ & Hw).
        destruct (Hw Hfree) as [E Hor].
        unfold lineBodyWithinWidth. rewrite lineBody_newline by exact Hnl.
        destruct Hor as [L|B]; [left; lia | right; exact B].
      * unfold workLeft. simpl. lia.
    + pose proof (Hpos gc cw Hnl) as Hp.
      pose proof (proj2 Hsmall gc cw) as Hs.
      pose proof Hinv as (Hcw & Hz & Hnn & Hw).
      assert (Hu : Text.u64 (cw + widthFunc cfg gc cw) = cw + widthFunc cfg gc cw).
      { unfold Text.u64. apply Z.mod_small. lia. }
      rewrite Hu.
      destruct (Z.ltb_spec (maxLineWidth cfg) (cw + widthFunc cfg gc cw)) as [Hover|Hfit].
      * destruct (Z.eqb_spec cw 0) as [E|E].
        -- (* the cluster is too wide for any line *)
           subst cw. rewrite (Hz eq_refl) in *. simpl in Hover.
           assert (Hok : forall tail, HasNewline tail = true ->
                     lineBodyWithinWidth cfg [gc; tail]).
           { intros tail Ht. right. exists gc. split; [|exact Hover].
             apply (lineBody_newline [gc]). exact Ht. }
           assert (Hok1 : lineBodyWithinWidth cfg [gc]).
           { right. exists gc. split; [|exact Hover].
             apply lineBody_single; exact Hnl. }
           destruct rest as [|next rest'].
           ++ do 3 eexists. split; [reflexivity|]. split_outcome.
              exists [gc], [], [gc], [], 0.
              split; [reflexivity|]. split; [reflexivity|].
              split; [simpl; rewrite app_nil_r; reflexivity|].
              split; [reflexivity|]. split; [intros _; exact Hok1|].
              split; [left; auto|]. unfold workLeft. simpl. lia.
           ++ destruct (HasNewline next) eqn:Hnext.
              ** do 3 eexists. split; [reflexivity|]. split_outcome.
                 exists [gc; next], rest', [gc; next], [], 0.
                 split; [reflexivity|]. split; [reflexivity|].
                 split; [simpl; rewrite app_nil_r; reflexivity|].
                 split; [reflexivity|]. split; [intros _; apply Hok; exact Hnext|].
                 split; [right; apply bufInv_empty; exact Hsmall|].
                 unfold workLeft. simpl. lia.
              ** do 3 eexists. split; [reflexivity|]. split_outcome.
                 exists [gc], (next :: rest'), [gc], [], 0.
                 split; [reflexivity|]. split; [reflexivity|].
                 split; [simpl; rewrite app_nil_r; reflexivity|].
                 split; [reflexivity|]. split; [intros _; exact Hok1|].
                 split; [right; apply bufInv_empty; exact Hsmall|].
                 unfold workLeft. simpl. lia.
        -- (* the line is full: the cluster starts the next line *)
           do 3 eexists. split; [reflexivity|]. split_outcome.
           exists [gc], rest, bufCl, [gc], (widthFunc cfg gc cw).
           split; [reflexivity|]. split; [reflexivity|].
           split; [reflexivity|].
           split; [simpl; rewrite app_nil_r; reflexivity|].
           split; [intros Hfree; eapply bufInv_within; eauto|].
           split; [right; apply bufInv_single; auto|].
           unfold workLeft. simpl. destruct bufCl; lia.
      * (* the cluster fits *)
        rewrite <- concat_snoc.
        destruct (IH Hrest (bufCl ++ [gc]) (cw + widthFunc cfg gc cw))
          as (it' & seg & err & Heq & Hout).
        { apply bufInv_snoc; auto. }
        exists it', seg, err. split; [exact Heq|].
        destruct Hout as [(_ & _ & Hnil) | (He & taken & rest' & group & bufCl' & cw' & H1 & H2 & H3 & H4 & H5 & H6 & H7)].
        -- destruct bufCl; discriminate.
        -- right. split; [exact He|].
           exists (gc :: taken), rest', group, bufCl', cw'.
           split; [simpl; rewrite H1; reflexivity|].
           split; [rewrite <- H2, <- app_assoc; reflexivity|].
           split; [exact H3|]. split; [exact H4|]. split; [exact H5|].
           split; [exact H6|].
           unfold workLeft in *. simpl.
           destruct (bufCl ++ [gc]) eqn:E; [destruct bufCl; discriminate|].
           destruct bufCl; lia.
Qed.

Lemma wrappedLines_spec (cfg : LineWrapConfig) :
  widthsPositive cfg -> widthsSmall cfg ->
  forall (fuel : nat) (pending bufCl : list cluster) (cw : Z),
    Forall (fun gc => gc <> []) pending ->
    (pending = [] /\ bufCl = []) \/ bufInv cfg bufCl cw ->
    (workLeft pending bufCl < fuel)%nat ->
    exists groups : list (list cluster),
      wrappedLines fuel
        (mkWrappedLineIter cfg (mkGcIter pending None) (concat bufCl) cw)
      = Some (map (@concat rune) groups) /\
      concat groups = bufCl ++ pending /\
      Forall (fun g => widthsOffsetFree cfg -> lineBodyWithinWidth cfg g) groups.
Proof.
  intros Hpos Hsmall.
  induction fuel as [|fuel IH]; intros pending bufCl cw Hne Hpre Hwork; [lia|].
  cbn [wrappedLines]. unfold NextSegment. cbn [wrapConfig gcIter gc_pending gc_failure buffer currentWidth].
  destruct Hpre as [[-> ->] | Hinv].
  - exists []. simpl. auto.
  - destruct (NextSegment_loop_spec cfg pending Hpos Hsmall Hne bufCl cw Hinv)
      as (it' & seg & err & Heq & Hout).
    rewrite Heq.
    destruct Hout as [(-> & -> & ->) | (-> & taken & rest & group & bufCl' & cw' & H1 & H2 & H3 & H4 & H5 & H6 & H7)].
    + exists []. simpl. auto.
    + subst it' seg pending.
      apply Forall_app in Hne. destruct Hne as [_ Hrest].
      destruct (IH rest bufCl' cw' Hrest H6 ltac:(lia)) as (groups & Hrun & Hcat & Hok).
      exists (group :: groups). rewrite Hrun. simpl.
      split; [reflexivity|]. split.
      * rewrite Hcat, app_assoc, <- H2, <- app_assoc. reflexivity.
      * constructor; assumption.
Qed.

(** Wrap fidelity for width functions that give no cluster the width
    zero.  For a text given by its (non-empty) grapheme clusters and
    a width function that gives every cluster without a newline a width of at
    least one cell, widths and maximum being below 2^63: the iterator ends,
    and its lines are the clusters of the text, in order, cut into groups; so
    the lines concatenated are the text.  If moreover the width of a cluster
    does not depend on the cell offset, then in every line the clusters
    before the closing newline cluster are together at most as wide as the
    maximum, or they are a single cluster wider than the maximum. *)
Theorem wrap_fidelity_positive_widths (cfg : LineWrapConfig) (clusters : list cluster) :
  widthsPositive cfg -> widthsSmall cfg ->
  Forall (fun gc => gc <> []) clusters ->
  wrapFidelity
    (fun cfg g => widthsOffsetFree cfg -> lineBodyWithinWidth cfg g)
    cfg clusters.
Proof.
  intros Hpos Hsmall Hne.
  destruct (wrappedLines_spec cfg Hpos Hsmall (S (workLeft clusters []))
              clusters [] 0 Hne (or_intror (bufInv_empty cfg Hsmall))
              ltac:(lia))
    as (groups & Hrun & Hcat & Hok).
  exists (S (workLeft clusters [])), groups. auto.
Qed.

Lemma wrap_fidelity_positive_widths_witness :
  wrapFidelity
    (fun cfg g => widthsOffsetFree cfg -> lineBodyWithinWidth cfg g)
    (mkLineWrapConfig 3 (fun _ _ => 1))
    [[97]; [98]; [99]; [100]; [10]; [101]].
Proof.
  apply (wrap_fidelity_positive_widths (mkLineWrapConfig 3 (fun _ _ => 1))).
  - intros gc off _. simpl. lia.
  - split; [simpl; lia | intros gc off; simpl; lia].
  - repeat constructor; discriminate.
Defined.

(** C6.  Wrap fidelity fails for a cluster of width zero that comes before
    a cluster wider than the maximum: U+200B, then X, with a maximum of one
    cell.  The test [iter.currentWidth == 0] takes the line buffer, which
    holds U+200B, for empty (the end-of-text path tests
    [len(iter.buffer) > 0]), and X is returned before the cluster that
    precedes it: the lines are X, then U+200B, their concatenation is not
    the text, and no cutting of the text into groups gives them. *)
Theorem wrap_fidelity_zero_width_overtaken :
  let cfg := mkLineWrapConfig 1
               (fun gc _ => match gc with [8203] => 0 | _ => 2 end) in
  let clusters := [[8203]; [88]] in
  wrappedLines 3 (NewWrappedLineIter (mkGcIter clusters None) cfg)
  = Some [[88]; [8203]] /\
  concat [[88]; [8203]] <> concat clusters /\
  forall lineOk, ~ wrapFidelity lineOk cfg clusters.
Proof.
  cbv zeta. split; [reflexivity|]. split; [discriminate|].
  intros lineOk (fuel & groups & Hrun & Hcat & _).
  destruct fuel as [|[|[|fuel]]]; try discriminate Hrun.
  cbn in Hrun. injection Hrun as Hm.
  destruct groups as [|g1 [|g2 [|g3 groups]]]; try discriminate Hm.
  injection Hm as H1 _.
  destruct g1 as [|c1 g1]; [discriminate H1|].
  cbn in Hcat. injection Hcat as Hc1 _. subst c1. discriminate H1.
Qed.

(** A width that depends on the cell offset (a tab stop every four cells):
    the cluster that starts a new line was measured at the end of the line
    before, and the new line comes out wider than the maximum. *)
Example offset_dependent_width_overflows :
  let cfg := mkLineWrapConfig 3
               (fun gc off => match gc with [9] => 4 - off mod 4 | _ => 1 end) in
  wrappedLines 4
    (NewWrappedLineIter
       (mkGcIter [[97]; [98]; [99]; [9]; [100]; [101]] None) cfg)
  = Some [[97; 98; 99]; [9; 100; 101]] /\
  lineWidth cfg [[9]; [100]; [101]] = 6.
Proof. split; reflexivity. Qed.

(** *** Further properties of the line breaker *)

Section LineBreakerMore.
Variable lbPropForRune : rune -> lbProp.
Variable eaPropForRune : rune -> eaProp.
Variable unicodeInMnMc : rune -> bool.

Local Abbreviation processRune :=
  (ProcessRune lbPropForRune eaPropForRune unicodeInMnMc).
Local Abbreviation resolved := (resolveProp lbPropForRune unicodeInMnMc).
Local Abbreviation breakerAfter :=
  (Segment.breakerAfter lbPropForRune eaPropForRune unicodeInMnMc).

Ltac rule_chain :=
  repeat match goal with
         | |- context [if ?c then _ else _] => destruct c; cbn [d_decision]
         end.

Lemma required_breaks_bool (lb : LineBreaker) (r : rune) (prop : lbProp) :
  let d := d_decision (applyRules eaPropForRune lb r prop) in
  (d = RequireLineBreakBefore
   <-> (lastProp lb == lbPropCR) && (prop != lbPropLF) = true) /\
  (d = RequireLineBreakAfter
   <-> (prop == lbPropLF)
       || ((lastProp lb != lbPropCR)
           && ((prop == lbPropBK) || (prop == lbPropNL))) = true).
Proof.
  unfold applyRules.
  destruct (prop == lbPropBK), (lastProp lb == lbPropCR), (prop == lbPropLF),
    (prop == lbPropNL); cbn [andb orb negb d_decision];
    try (split; split; intros; (reflexivity || discriminate));
    rule_chain; split; split; intros; (reflexivity || discriminate).
Qed.

(** The hard line breaks: [ProcessRune] returns [RequireLineBreakBefore]
    exactly for a rune that follows a CR and is not a LF, and
    [RequireLineBreakAfter] exactly for a LF, and for a BK or NL that does
    not follow a CR (the classes being those LB1 resolves the runes to). *)
Theorem required_breaks (lb : LineBreaker) (r : rune) :
  (fst (processRune lb r) = RequireLineBreakBefore
   <-> lastProp lb = lbPropCR /\ resolved r <> lbPropLF) /\
  (fst (processRune lb r) = RequireLineBreakAfter
   <-> resolved r = lbPropLF \/
       (lastProp lb <> lbPropCR /\
        (resolved r = lbPropBK \/ resolved r = lbPropNL))).
Proof.
  destruct (required_breaks_bool lb r (resolved r)) as [H1 H2].
  unfold ProcessRune. cbn [fst]. cbv zeta in H1, H2.
  split.
  - rewrite H1, andb_true_iff, negb_true_iff, lbProp_beq_eq, lbProp_beq_neq.
    reflexivity.
  - rewrite H2, orb_true_iff, andb_true_iff, orb_true_iff, negb_true_iff,
      !lbProp_beq_eq, lbProp_beq_neq.
    reflexivity.
Qed.

Lemma resolved_storable (r : rune) :
  storable (resolved r) = true \/ resolved r = lbPropCM.
Proof.
  unfold resolveProp.
  destruct (lbPropForRune r); cbn; try (left; reflexivity);
    destruct (unicodeInMnMc r); cbn; auto.
Qed.

Lemma processRune_storable (lb : LineBreaker) (r : rune) :
  storable (lastProp lb) = true \/ lastProp lb = lbPropNone ->
  storable (lastProp (snd (processRune lb r))) = true /\
  lastLastProp (snd (processRune lb r)) = lastProp lb.
Proof.
  intros Hlb. split; [|reflexivity].
  rewrite process_lastProp. unfold reinterpret.
  destruct (applyRules_prop eaPropForRune lb r (resolved r)) as [E|[E Hc]];
    rewrite E.
  - destruct (resolved_storable r) as [H|H].
    + destruct (resolved r); try discriminate; try reflexivity;
        destruct (lastProp lb); reflexivity.
    + rewrite H. reflexivity.
  - destruct Hlb as [H|H].
    + destruct (lastProp lb); try discriminate; reflexivity.
    + unfold lb9Condition in Hc. rewrite H in Hc. cbn in Hc.
      rewrite !andb_false_r in Hc. discriminate.
Qed.

Lemma breakerAfter_snoc (rs : list rune) (r : rune) :
  breakerAfter (rs ++ [r]) = snd (processRune (breakerAfter rs) r).
Proof. unfold breakerAfter. rewrite fold_left_app. reflexivity. Qed.

Lemma breakerAfter_inv (rs : list rune) :
  (storable (lastProp (breakerAfter rs)) = true \/
   lastProp (breakerAfter rs) = lbPropNone) /\
  (inZeroWidthSpaceSeq (breakerAfter rs) = true ->
   lastProp (breakerAfter rs) = lbPropZW \/
   lastProp (breakerAfter rs) = lbPropSP).
Proof.
  induction rs as [|r rs IH] using rev_ind.
  - split; [right; reflexivity|discriminate].
  - rewrite breakerAfter_snoc. destruct IH as [IH _].
    split; [left; apply processRune_storable; exact IH|].
    unfold ProcessRune. cbn [snd inZeroWidthSpaceSeq lastProp].
    rewrite orb_true_iff, andb_true_iff, !lbProp_beq_eq. tauto.
Qed.

(** After at least one rune, the class the breaker remembers is never
    lbPropNone, never one of the classes LB1 replaces (AI, SG, XX, SA, CJ)
    and never CM; and [lastLastProp] is the class remembered one rune
    earlier. *)
Theorem remembered_class_is_resolved (rs : list rune) (r : rune) :
  storable (lastProp (breakerAfter (rs ++ [r]))) = true /\
  lastLastProp (breakerAfter (rs ++ [r])) = lastProp (breakerAfter rs).
Proof.
  rewrite breakerAfter_snoc. apply processRune_storable.
  apply breakerAfter_inv.
Qed.

(** A combining mark or a ZWJ after a base character (a remembered class
    other than BK, CR, LF, NL, SP, ZW, after at least one rune) never gets a
    break opportunity, and the breaker goes on remembering the class of the
    base character (AL when the base was itself a ZWJ). *)
Theorem combining_mark_keeps_base (rs : list rune) (r : rune) :
  let lb := breakerAfter rs in
  resolved r = lbPropCM \/ resolved r = lbPropZWJ ->
  lastProp lb <> lbPropNone -> lastProp lb <> lbPropBK ->
  lastProp lb <> lbPropCR -> lastProp lb <> lbPropLF ->
  lastProp lb <> lbPropNL -> lastProp lb <> lbPropSP ->
  lastProp lb <> lbPropZW ->
  fst (processRune lb r) = NoLineBreak /\
  lastProp (snd (processRune lb r))
  = (if lastProp lb == lbPropZWJ then lbPropAL else lastProp lb).
Proof.
  intros lb Hprop H0 H1 H2 H3 H4 H5 H6.
  destruct (breakerAfter_inv rs) as [Hst Hzw]. fold lb in Hst, Hzw.
  assert (Hz : inZeroWidthSpaceSeq lb = false).
  { destruct (inZeroWidthSpaceSeq lb); [|reflexivity].
    destruct (Hzw eq_refl); contradiction. }
  destruct Hst as [Hst|Hst]; [|contradiction].
  assert (Hcm : (lastProp lb == lbPropCM) = false)
    by (destruct (lastProp lb); try discriminate; reflexivity).
  apply lbProp_beq_neq in H0, H1, H2, H3, H4, H5, H6.
  unfold ProcessRune, applyRules, reinterpret.
  rewrite Hz, H0, H1, H2, H3, H4, H5, H6.
  destruct Hprop as [-> | ->]; destruct (lastProp lb == lbPropZWJ) eqn:Ez;
    cbn; rewrite ?Hcm, ?Ez, ?H0; split; reflexivity.
Qed.

(** LB2 is left to the caller: the decision for the first rune of a text
    depends on its class only, and is [AllowLineBreakBefore] for every
    class but the hard line breaks and the classes before which LB6 to
    LB22 forbid a break; it is never [RequireLineBreakBefore]. *)
Theorem first_rune_decision (r : rune) :
  fst (processRune zeroLineBreaker r)
  = match resolved r with
    | lbPropBK | lbPropLF | lbPropNL => RequireLineBreakAfter
    | lbPropCR | lbPropSP | lbPropZW | lbPropWJ | lbPropGL
    | lbPropCL | lbPropCP | lbPropEX | lbPropIS | lbPropSY
    | lbPropQU | lbPropBA | lbPropHY | lbPropNS | lbPropIN => NoLineBreak
    | _ => AllowLineBreakBefore
    end.
Proof.
  unfold ProcessRune, applyRules. cbn [fst].
  destruct (resolved r); reflexivity.
Qed.

End LineBreakerMore.

Lemma combining_mark_keeps_base_witness :
  fst (ProcessRune lbPropForRune_excerpt eaPropForRune_excerpt
         unicodeInMnMc_excerpt
         (breakerAfter lbPropForRune_excerpt eaPropForRune_excerpt
            unicodeInMnMc_excerpt [19968]) 769) = NoLineBreak /\
  lastProp (snd (ProcessRune lbPropForRune_excerpt eaPropForRune_excerpt
                   unicodeInMnMc_excerpt
                   (breakerAfter lbPropForRune_excerpt eaPropForRune_excerpt
                      unicodeInMnMc_excerpt [19968]) 769))
  = lbPropID.
Proof.
  apply (combining_mark_keeps_base lbPropForRune_excerpt eaPropForRune_excerpt
           unicodeInMnMc_excerpt [19968] 769);
    try discriminate.
  left. reflexivity.
Defined.

(** The first letter of a text. *)
Example first_rune_letter :
  fst (ProcessRune lbPropForRune_excerpt eaPropForRune_excerpt
         unicodeInMnMc_excerpt zeroLineBreaker 97) = AllowLineBreakBefore.
Proof. reflexivity. Qed.

(** *** Further properties of the wrapped-line iterator *)

Lemma NextSegment_loop_nonempty (cfg : LineWrapConfig)
    (failure : option Text.error) (pending : list cluster) :
  Forall (fun gc => gc <> []) pending ->
  forall buf cw it' seg,
    (pending <> [] -> buf = [] -> cw = 0) ->
    NextSegment_loop cfg pending failure buf cw = (it', seg, None) ->
    seg <> [].
Proof.
  induction 1 as [|gc rest Hgc Hrest IH]; intros buf cw it' seg Hcw;
    cbn [NextSegment_loop].
  - destruct failure as [e|].
    + destruct (Text.isEOF e); [|discriminate].
      destruct buf; cbn; [discriminate|]. intros [= _ <-]. discriminate.
    + destruct buf; cbn; [discriminate|]. intros [= _ <-]. discriminate.
  - destruct (HasNewline gc).
    { intros [= _ <-]. intros E. apply app_eq_nil in E. destruct E. contradiction. }
    destruct (maxLineWidth cfg <? Text.u64 (cw + widthFunc cfg gc cw)).
    + destruct (Z.eqb_spec cw 0) as [E0|E0].
      * destruct rest as [|next rest'].
        { intros [= _ <-]. exact Hgc. }
        destruct (HasNewline next); intros [= _ <-]; [|exact Hgc].
        intros E. apply app_eq_nil in E. destruct E. contradiction.
      * intros [= _ <-]. intros ->. apply E0. apply Hcw; [discriminate|reflexivity].
    + apply IH. intros _ E. apply app_eq_nil in E. destruct E. contradiction.
Qed.

(** [NextSegment] never returns an empty line: when it returns a nil error,
    the segment has at least one rune (for an iterator made by
    [NewWrappedLineIter] and earlier calls, whatever the width function). *)
Theorem lines_are_never_empty (cfg : LineWrapConfig) (it it' : WrappedLineIter)
    (seg : list rune) :
  reachable cfg it ->
  NextSegment it = (it', seg, None) ->
  seg <> [].
Proof.
  intros Hr. apply reachable_inv in Hr. destruct Hr as (_ & Hne & Hcw).
  unfold NextSegment. apply NextSegment_loop_nonempty; assumption.
Qed.

Lemma lines_are_never_empty_witness :
  snd (fst (NextSegment
              (NewWrappedLineIter (mkGcIter [[97]; [98]; [10]] None)
                 (mkLineWrapConfig 1 (fun _ _ => 0))))) <> [].
Proof.
  apply (lines_are_never_empty (mkLineWrapConfig 1 (fun _ _ => 0))
           (NewWrappedLineIter (mkGcIter [[97]; [98]; [10]] None)
              (mkLineWrapConfig 1 (fun _ _ => 0)))
           (fst (fst (NextSegment
              (NewWrappedLineIter (mkGcIter [[97]; [98]; [10]] None)
                 (mkLineWrapConfig 1 (fun _ _ => 0))))))).
  - apply reach_new. simpl. repeat constructor; discriminate.
  - reflexivity.
Defined.

Lemma NextSegment_loop_error (cfg : LineWrapConfig)
    (failure : option Text.error) (pending : list cluster) :
  forall buf cw it' seg e,
    NextSegment_loop cfg pending failure buf cw = (it', seg, Some e) ->
    seg = [] /\
    wrapConfig it' = cfg /\
    gc_pending (gcIter it') = [] /\
    gc_failure (gcIter it') = failure /\
    NextSegment_loop cfg [] failure (buffer it') (currentWidth it')
    = (it', [], Some e).
Proof.
  induction pending as [|gc rest IH]; intros buf cw it' seg e;
    cbn [NextSegment_loop].
  - destruct failure as [e0|].
    + destruct (Text.isEOF e0) eqn:E0.
      * destruct buf; cbn; [|discriminate].
        intros [= <- <- <-]. cbn. auto.
      * intros [= <- <- <-]. cbn. auto.
    + destruct buf; cbn; [|discriminate].
      intros [= <- <- <-]. cbn. auto.
  - destruct (HasNewline gc); [discriminate|].
    destruct (maxLineWidth cfg <? Text.u64 (cw + widthFunc cfg gc cw)).
    + destruct (cw =? 0); [|discriminate].
      destruct rest as [|next rest']; [discriminate|].
      destruct (HasNewline next); discriminate.
    + apply IH.
Qed.

(** When [NextSegment] returns an error (io.EOF or the error of the cluster
    iterator), it returns no rune, and every later call returns the same
    error again; the runes that were buffered when the cluster iterator
    failed stay in the buffer. *)
Theorem errors_are_final (it it' : WrappedLineIter) (seg : list rune)
    (e : Text.error) :
  NextSegment it = (it', seg, Some e) ->
  seg = [] /\ NextSegment it' = (it', [], Some e).
Proof.
  unfold NextSegment. intros H.
  destruct (NextSegment_loop_error _ _ _ _ _ _ _ _ H)
    as (Hs & Hc & Hp & Hf & Hagain).
  split; [exact Hs|]. rewrite Hc, Hp, Hf. exact Hagain.
Qed.

Lemma errors_are_final_witness :
  let it := NewWrappedLineIter (mkGcIter [[97]] (Some (Text.ErrRead 5)))
              (mkLineWrapConfig 3 (fun _ _ => 1)) in
  snd (fst (NextSegment it)) = [] /\
  NextSegment (fst (fst (NextSegment it)))
  = (fst (fst (NextSegment it)), [], Some (Text.ErrRead 5)).
Proof.
  intros it.
  apply (errors_are_final it (fst (fst (NextSegment it)))
           (snd (fst (NextSegment it))) (Text.ErrRead 5)).
  reflexivity.
Defined.

Lemma NextSegment_loop_progress (cfg : LineWrapConfig)
    (failure : option Text.error) (pending : list cluster) :
  forall buf cw it' seg,
    NextSegment_loop cfg pending failure buf cw = (it', seg, None) ->
    (callsLeft it'
     < 2 * length pending + match buf with [] => 0 | _ => 1 end)%nat.
Proof.
  induction pending as [|gc rest IH]; intros buf cw it' seg;
    cbn [NextSegment_loop].
  - destruct failure as [e|].
    + destruct (Text.isEOF e); [|discriminate].
      destruct buf; cbn; [discriminate|]. intros [= <- _]. cbn. lia.
    + destruct buf; cbn; [discriminate|]. intros [= <- _]. cbn. lia.
  - cbn [length].
    destruct (HasNewline gc).
    { intros [= <- _]. unfold callsLeft. cbn. lia. }
    destruct (maxLineWidth cfg <? Text.u64 (cw + widthFunc cfg gc cw)).
    + destruct (cw =? 0).
      * destruct rest as [|next rest'].
        { intros [= <- _]. unfold callsLeft. cbn. destruct buf; lia. }
        destruct (HasNewline next); intros [= <- _]; unfold callsLeft; cbn;
          destruct buf; lia.
      * intros [= <- _]. unfold callsLeft. cbn. destruct gc; destruct buf; lia.
    + intros H. apply IH in H. destruct (buf ++ gc); destruct buf; lia.
Qed.

Lemma wrappedLines_total (fuel : nat) :
  forall it : WrappedLineIter,
    (callsLeft it < fuel)%nat ->
    exists lines,
      wrappedLines fuel it = Some lines /\
      (length lines <= callsLeft it)%nat.
Proof.
  induction fuel as [|fuel IH]; intros it Hf; [lia|].
  cbn [wrappedLines].
  destruct (NextSegment it) as [[it' seg] [e|]] eqn:E.
  - exists []. split; [reflexivity|cbn; lia].
  - unfold NextSegment in E. apply NextSegment_loop_progress in E.
    fold (callsLeft it) in E.
    destruct (IH it' ltac:(lia)) as (lines & -> & Hl).
    exists (seg :: lines). split; [reflexivity|]. cbn [length]. lia.
Qed.

(** Calling [NextSegment] until it returns an error always ends, for every
    width function and every maximum: after at most two calls for each
    cluster still to come, and one more for the buffer. *)
Theorem wrapping_always_ends (it : WrappedLineIter) :
  exists lines,
    wrappedLines (S (callsLeft it)) it = Some lines /\
    (length lines <= callsLeft it)%nat.
Proof. apply wrappedLines_total. lia. Qed.

(** *** Hard newlines end the line *)

(** A line buffer made of clusters that are all free of a newline. *)
Definition newlineFree (buf : list rune) : Prop :=
  exists cls : list cluster,
    buf = concat cls /\ Forall (fun gc => HasNewline gc = false) cls.

(** A line that a newline can only end: clusters free of a newline, then
    nothing or one cluster, of those to come, that has one. *)
Definition endsAtNewline (pending : list cluster) (seg : list rune) : Prop :=
  exists (front : list cluster) (last : cluster),
    seg = concat front ++ last /\
    Forall (fun gc => HasNewline gc = false) front /\
    (last = [] \/ (HasNewline last = true /\ In last pending)).

Lemma newlineFree_nil : newlineFree [].
Proof. exists []. split; [reflexivity|constructor]. Qed.

Lemma newlineFree_single (gc : cluster) :
  HasNewline gc = false -> newlineFree gc.
Proof.
  intros H. exists [gc]. split; [cbn; rewrite app_nil_r; reflexivity|].
  constructor; [exact H|constructor].
Qed.

Lemma newlineFree_app (buf : list rune) (gc : cluster) :
  newlineFree buf -> HasNewline gc = false -> newlineFree (buf ++ gc).
Proof.
  intros (cls & -> & Hcls) H. exists (cls ++ [gc]). split.
  - symmetry. apply concat_snoc.
  - apply Forall_app. split; [exact Hcls|]. constructor; [exact H|constructor].
Qed.

Lemma newlineFree_line (pending : list cluster) (buf : list rune) :
  newlineFree buf -> endsAtNewline pending buf.
Proof.
  intros (cls & -> & Hcls). exists cls, []. rewrite app_nil_r. auto.
Qed.

Lemma endsAtNewline_more (gc : cluster) (pending : list cluster) (seg : list rune) :
  endsAtNewline pending seg -> endsAtNewline (gc :: pending) seg.
Proof.
  intros (front & last & E & Hf & [Hl | [Hl Hin]]); exists front, last;
    (split; [exact E|]); (split; [exact Hf|]); [left; exact Hl|].
  right. split; [exact Hl|]. right. exact Hin.
Qed.

Lemma NextSegment_loop_newline (cfg : LineWrapConfig)
    (failure : option Text.error) (pending : list cluster) :
  forall buf cw it' seg err,
    newlineFree buf ->
    NextSegment_loop cfg pending failure buf cw = (it', seg, err) ->
    newlineFree (buffer it') /\ (err = None -> endsAtNewline pending seg).
Proof.
  induction pending as [|gc rest IH]; intros buf cw it' seg err Hbuf;
    cbn [NextSegment_loop].
  - assert (Hflush :
      (if negb (length buf =? 0)%nat
       then (mkWrappedLineIter cfg (mkGcIter [] failure) [] cw, buf,
             @None Text.error)
       else (mkWrappedLineIter cfg (mkGcIter [] failure) buf cw, [],
             Some Text.EOF)) = (it', seg, err) ->
      newlineFree (buffer it') /\ (err = None -> endsAtNewline [] seg)).
    { destruct (negb (length buf =? 0)%nat); intros [= <- <- <-]; cbn [buffer].
      - split; [apply newlineFree_nil|]. intros _.
        apply newlineFree_line. exact Hbuf.
      - split; [exact Hbuf|discriminate]. }
    destruct failure as [e|]; [|exact Hflush].
    destruct (Text.isEOF e); [exact Hflush|].
    intros [= <- <- <-]. cbn [buffer]. split; [exact Hbuf|discriminate].
  - destruct (HasNewline gc) eqn:Hgc.
    { intros [= <- <- <-]. cbn [buffer]. split; [apply newlineFree_nil|].
      intros _. destruct Hbuf as (cls & -> & Hcls). exists cls, gc.
      split; [reflexivity|]. split; [exact Hcls|].
      right. split; [exact Hgc|]. left. reflexivity. }
    destruct (maxLineWidth cfg <? Text.u64 (cw + widthFunc cfg gc cw)).
    + destruct (cw =? 0).
      * assert (Hone : endsAtNewline (gc :: rest) gc).
        { apply newlineFree_line. apply newlineFree_single. exact Hgc. }
        destruct rest as [|next rest'].
        { intros [= <- <- <-]. cbn [buffer]. split; [exact Hbuf|].
          intros _. exact Hone. }
        destruct (HasNewline next) eqn:Hnext; intros [= <- <- <-];
          cbn [buffer]; (split; [exact Hbuf|]); intros _; [|exact Hone].
        exists [gc], next. split; [cbn; rewrite app_nil_r; reflexivity|].
        split; [constructor; [exact Hgc|constructor]|].
        right. split; [exact Hnext|]. right. left. reflexivity.
      * intros [= <- <- <-]. cbn [buffer].
        split; [apply newlineFree_single; exact Hgc|].
        intros _. apply newlineFree_line. exact Hbuf.
    + intros H. apply IH in H; [|apply newlineFree_app; assumption].
      destruct H as [H1 H2]. split; [exact H1|].
      intros E. apply endsAtNewline_more. apply H2. exact E.
Qed.

Lemma reachable_newlineFree (cfg : LineWrapConfig) (it : WrappedLineIter) :
  reachable cfg it -> newlineFree (buffer it).
Proof.
  induction 1 as [reader Hne | it it' seg err Hr IH Hn].
  - apply newlineFree_nil.
  - unfold NextSegment in Hn.
    apply (NextSegment_loop_newline _ _ _ _ _ _ _ _ IH Hn).
Qed.

(** A line never goes on after a hard newline, whatever the width function:
    a line returned by [NextSegment] is made of clusters without a newline,
    followed by nothing or by one cluster that has a newline, which is one
    of the clusters that were still to come. *)
Theorem newline_ends_the_line (cfg : LineWrapConfig) (it it' : WrappedLineIter)
    (seg : list rune) :
  reachable cfg it ->
  NextSegment it = (it', seg, None) ->
  exists (front : list cluster) (last : cluster),
    seg = concat front ++ last /\
    Forall (fun gc => HasNewline gc = false) front /\
    (last = [] \/
     (HasNewline last = true /\ In last (gc_pending (gcIter it)))).
Proof.
  intros Hr Hn. apply reachable_newlineFree in Hr. unfold NextSegment in Hn.
  destruct (NextSegment_loop_newline _ _ _ _ _ _ _ _ Hr Hn) as [_ H].
  apply H. reflexivity.
Qed.

Lemma newline_ends_the_line_witness :
  exists (front : list cluster) (last : cluster),
    [97; 98; 10] = concat front ++ last /\
    Forall (fun gc => HasNewline gc = false) front /\
    (last = [] \/
     (HasNewline last = true /\ In last [[97]; [98]; [10]; [99]])).
Proof.
  apply (newline_ends_the_line (mkLineWrapConfig 5 (fun _ _ => 1))
           (NewWrappedLineIter (mkGcIter [[97]; [98]; [10]; [99]] None)
              (mkLineWrapConfig 5 (fun _ _ => 1)))
           (mkWrappedLineIter (mkLineWrapConfig 5 (fun _ _ => 1))
              (mkGcIter [[99]] None) [] 0)
           [97; 98; 10]).
  - apply reach_new. simpl. repeat constructor; discriminate.
  - reflexivity.
Defined.

End SegmentFacts.
